(** * tinysh: the command-pipeline execution engine

    A shallow embedding of [tinysh.c] (tokenizer, feature classifier,
    splitter, launcher, dispatcher, redirection and pipe handlers, driver)
    and the properties of its specification.

    The repository holds two variants of [tinysh.c].  The embedding follows
    the later one, whose functions return a status and whose driver knows
    [verbose] and [brief]; [Module legacy] has the functions of the earlier
    one.

    Conventions of the embedding.
    - A C string is a [string]: the bytes before its terminating NUL.
    - A [char *] is a [cptr]: [None] is the NULL pointer.
    - A heap block of [char *] slots is a list whose length is the number
      of slots that were allocated; a store outside it is [Undefined].
      [malloc], [realloc] and [strdup] succeed.  Character buffers are not
      bounded: the buffer of a PathList line has room for what [strcat]
      appends to it.
    - [int] and [size_t] counters are [nat]; return codes are [Z].  Counters
      stay far below [INT_MAX] for any line that fits in memory, so their
      wrap-around is not written out.
    - The code runs in several processes.  A function is written in
      continuation-passing style: what a process does from a call on is the
      [run] of the function applied to what the caller does with the result.
      After [fork] the child and the parent each go on with the same text, and
      a child that returns from a handler goes on in its copy of the callers.
    - The operating system is a [world]: whether a system call succeeds,
      what [execvp] does, how a replaced image ends.  It answers a call the
      same way each time, and the end of an image is given by its file and
      vector: what a program does to the file system, to the working
      directory or with its standard input is outside the embedding.  A call
      of [execvp] with a NULL file is recorded and answered by the world too.
    - Standard input is the list of the lines [getline] reads, then end of
      file; a read error of [getline] is not part of the embedding.  The
      PathList and the flags that [main] and [set_path] leave are the initial
      [shell] state of the engine, where [path] is a list: the state in which
      [path] is still NULL is not among them.  [Module startup] has the option
      processing of [main], with [set_path] up to the content of the
      PathList. *)

From Stdlib Require Import ZArith Ascii String Bool Lia.
From stdpp Require Import base list strings.

Open Scope Z_scope.
Open Scope nat_scope.

(** ** Results of code that touches the heap *)

Inductive outcome (A : Type) : Type :=
| Ok (a : A)
| Undefined        (* a store outside its block, a read through NULL *)
| OutOfFuel.     (* the model's loop bound was too small *)
Arguments Ok {A} a.
Arguments Undefined {A}.
Arguments OutOfFuel {A}.

#[global] Instance outcome_bind : MBind outcome := λ A B f m,
  match m with
  | Ok a => f a
  | Undefined => Undefined
  | OutOfFuel => OutOfFuel
  end.
#[global] Instance outcome_ret : MRet outcome := λ A a, Ok a.

(** ** Heap blocks of string pointers *)

Abbreviation cptr := (option string) (only parsing).
Abbreviation block := (list (option string)) (only parsing).

Definition malloc (n : nat) : block := replicate n None.

Definition realloc (b : block) (n : nat) : block :=
  take n b ++ replicate (n - length b) None.

(** [b[i] = p] *)
Definition store (b : block) (i : nat) (p : cptr) : outcome block :=
  if i <? length b then Ok (<[i := p]> b) else Undefined.

(** The vector a NULL-terminated block denotes. *)
Fixpoint argv_of (b : block) : list string :=
  match b with
  | Some s :: b' => s :: argv_of b'
  | _ => []
  end.

(** The block a vector is laid out in: its strings, then NULL. *)
Definition block_of (v : list string) : block := (Some <$> v) ++ [None].

(** ** The C library's string functions *)

Module libc.

Fixpoint strchr (s : string) (c : ascii) : bool :=
  match s with
  | EmptyString => false
  | String d s' => if Ascii.eqb d c then true else strchr s' c
  end.

Definition strcmp (a b : string) : bool := String.eqb a b.

Definition strcat (dst src : string) : string := dst +:+ src.

(** length of the initial segment of [s] made of bytes of [accept] *)
Fixpoint strspn (s accept : string) : nat :=
  match s with
  | EmptyString => 0
  | String c s' => if strchr accept c then S (strspn s' accept) else 0
  end.

(** length of the initial segment of [s] free of bytes of [reject] *)
Fixpoint strcspn (s reject : string) : nat :=
  match s with
  | EmptyString => 0
  | String c s' => if strchr reject c then 0 else S (strcspn s' reject)
  end.

(** [s + n] *)
Fixpoint advance (n : nat) (s : string) : string :=
  match n, s with
  | S n', String _ s' => advance n' s'
  | _, _ => s
  end.

(** the first [n] bytes of [s] *)
Fixpoint upto (n : nat) (s : string) : string :=
  match n, s with
  | S n', String c s' => String c (upto n' s')
  | _, _ => EmptyString
  end.

(** [strtok_r (s, delim, &save)] for a non-NULL [s]: the token returned
    (NULL when none is left) and the value stored in [save]. *)
Definition strtok_r (s delim : string) : cptr * string :=
  match s with
  | EmptyString => (None, s)
  | _ =>
    let s1 := advance (strspn s delim) s in
    match s1 with
    | EmptyString => (None, s1)
    | _ =>
      let n := strcspn s1 delim in
      match advance n s1 with
      | EmptyString => (Some (upto n s1), EmptyString)
      | String _ rest => (Some (upto n s1), rest)
      end
    end
  end.

End libc.

(** ** Tokenizer *)

Definition DEFAULT_TOKENS_CAPACITY : nat := 3.
Definition TOKEN_FACTOR_HEURISTIC : nat := 4.

(** The [while ((tok = strtok_r (context, delim, &context)) != NULL)] loop. *)
Fixpoint tokenizer_loop (fuel : nat) (context delim : string)
    (tokens : block) (tok_used capacity : nat) : outcome (block * nat) :=
  match fuel with
  | 0 => OutOfFuel
  | S fuel' =>
    match libc.strtok_r context delim with
    | (None, _) => Ok (tokens, tok_used)
    | (Some tok, context') =>
      let '(tokens, capacity) :=
        if tok_used =? capacity
        then (realloc tokens (capacity * 2), capacity * 2)
        else (tokens, capacity) in
      tokens' ← store tokens tok_used (Some tok);
      tokenizer_loop fuel' context' delim tokens' (S tok_used) capacity
    end
  end.

(** [tokenizer (input, delim, &tok_num)]: the returned [char **] (NULL when
    no token was found) and the value left in [tok_num]. *)
Definition tokenizer (input delim : string) (tok_num : nat)
    : outcome (option block * nat) :=
  let capacity :=
    if 0 <? tok_num then tok_num / TOKEN_FACTOR_HEURISTIC + 1
    else DEFAULT_TOKENS_CAPACITY in
  '(tokens, tok_used) ←
    tokenizer_loop (S (String.length input)) input delim (malloc capacity) 0 capacity;
  if tok_used =? 0 then Ok (None, 0)
  else
    tokens' ← store (realloc tokens (tok_used + 1)) tok_used None;
    Ok (Some tokens', tok_used).

(** ** Feature classifier *)

(** 0 if not a special feature, 1 if append, 2 if overwrite, 3 if pipe. *)
Fixpoint is_special_feature (cmd : list string) : Z :=
  match cmd with
  | [] => 0
  | c :: rest =>
    if libc.strcmp c ">>" then 1
    else if libc.strcmp c ">" then 2
    else if libc.strcmp c "|" then 3
    else is_special_feature rest
  end%Z.

(** ** Pipeline splitter

    The first half of [special_command]: [head] and [tail] are two blocks of
    [capacity] slots; one [capacity] variable serves both growth checks. *)

Definition is_operator (c : string) : bool :=
  libc.strcmp c "|" || libc.strcmp c ">" || libc.strcmp c ">>".

(** [while (strcmp (cmd[i], "|") != 0 && ...) { ...; head[j++] = cmd[i++]; }
    head[j] = NULL; i++;]
    [rest] is [cmd + i]; the result is [cmd + i] after the operator, the
    capacity reached, and [head]. *)
Fixpoint head_loop (rest : list string) (j capacity : nat) (head : block)
    : outcome (list string * nat * block) :=
  match rest with
  | [] => Undefined                        (* strcmp on the terminating NULL *)
  | c :: rest' =>
    if is_operator c then
      head' ← store head j None;
      Ok (rest', capacity, head')
    else
      let '(head, capacity) :=
        if capacity - 1 <=? j
        then (realloc head (capacity * 2), capacity * 2)
        else (head, capacity) in
      head' ← store head j (Some c);
      head_loop rest' (S j) capacity head'
  end.

(** [while (cmd[i] != NULL) { ...; tail[k++] = cmd[i++]; } tail[k] = NULL;] *)
Fixpoint tail_loop (rest : list string) (k capacity : nat) (tail : block)
    : outcome block :=
  match rest with
  | [] => store tail k None
  | c :: rest' =>
    let '(tail, capacity) :=
      if capacity - 1 <=? k
      then (realloc tail (capacity * 2), capacity * 2)
      else (tail, capacity) in
    tail' ← store tail k (Some c);
    tail_loop rest' (S k) capacity tail'
  end.

Definition splitter (cmd : list string) (num_cmd : nat) : outcome (block * block) :=
  let capacity :=
    if 0 <? num_cmd then num_cmd / 2 + 1 else DEFAULT_TOKENS_CAPACITY in
  let head := malloc capacity in
  let tail := malloc capacity in
  '(rest, capacity, head) ← head_loop cmd 0 capacity head;
  tail ← tail_loop rest 0 capacity tail;
  Ok (head, tail).

(** ** Processes and the operating system

    The code runs in several processes.  A [run] is what one process does
    from some point to its end: the events it performs, the runs of the
    children it forks, and its [fate].  The operating system's answers come
    from a [world]. *)

Definition LF : string := String "010"%char EmptyString.
Definition delim : string :=
  String " "%char (String "009"%char (String "010"%char EmptyString)).

(** [%s] of a pointer, as glibc prints it *)
Definition show (p : cptr) : string := default "(null)" p.

Definition READ_END : nat := 0.
Definition WRITE_END : nat := 1.
Definition EXIT_SUCCESS : Z := 0.
Definition EXIT_FAILURE : Z := 1.
Definition ENOENT : Z := 2.
Definition SIGINT : Z := 2.
Definition SIGQUIT : Z := 3.
Definition mode_0666 : N := 438.

Inductive desc : Type :=
| STDIN_FILENO
| STDOUT_FILENO
| pipefd (end_ : nat)       (* an end of the pipe of the current handler *)
| fd (file : cptr)          (* the descriptor [open] returned for [file] *)
| saved_stdout.

Inductive oflag : Type := O_TRUNC | O_APPEND.   (* with O_CREAT | O_WRONLY *)

Inductive syscall : Type :=
| sys_fork
| sys_pipe
| sys_wait
| sys_waitpid
| sys_dup (d : desc)
| sys_dup2 (old new : desc)
| sys_close (d : desc)
| sys_open (file : cptr) (flag : oflag) (mode : N)
| sys_chdir (dir : cptr)
| sys_getcwd
| sys_getenv (name : string).

(** What [execvp] does: the image is replaced, or the call returns. *)
Inductive exec_result : Type :=
| Replaced
| Returned (r : Z) (errno : Z).

(** The termination state [wait] reports. *)
Inductive wstatus : Type :=
| Exited (code : Z)
| Signaled (sig : Z).

Definition WIFEXITED (s : wstatus) : bool :=
  match s with Exited _ => true | Signaled _ => false end.
Definition WEXITSTATUS (s : wstatus) : Z :=
  match s with Exited c => c | Signaled _ => 0 end.
Definition WIFSIGNALED (s : wstatus) : bool :=
  match s with Exited _ => false | Signaled _ => true end.
Definition WTERMSIG (s : wstatus) : Z :=
  match s with Exited _ => 0 | Signaled g => g end.

Record world : Type := {
  succeeds : syscall → bool;                   (* does the call succeed *)
  execvp : cptr → list string → exec_result;
  image_end : cptr → list string → wstatus;    (* how a replaced image ends *)
  crash_end : wstatus;                         (* how a faulting process ends *)
  getcwd : string;
  HOME : cptr;
}.

(** The process-wide variables of [tinysh.c]. *)
Record shell : Type := {
  path : list string;
  path_flag : bool;
  verbose_flag : bool;
  stdout_flag : bool;
}.

Definition set_path_entry (st : shell) (i : nat) (s : string) : shell :=
  {| path := <[i := s]> (path st); path_flag := path_flag st;
     verbose_flag := verbose_flag st; stdout_flag := stdout_flag st |}.
Definition set_verbose_flag (st : shell) (b : bool) : shell :=
  {| path := path st; path_flag := path_flag st;
     verbose_flag := b; stdout_flag := stdout_flag st |}.
Definition set_stdout_flag (st : shell) (b : bool) : shell :=
  {| path := path st; path_flag := path_flag st;
     verbose_flag := verbose_flag st; stdout_flag := b |}.

Inductive event : Type :=
| Sys (c : syscall) (ok : bool)
| Execvp (file : cptr) (argv : list string) (res : exec_result)
| Printf (s : string)                 (* to standard output *)
| Dprintf (d : desc) (s : string)
| Perror (s : string)
| Eprintf (s : string).               (* fprintf (stderr, ...) *)

Inductive fate : Type :=
| Exits (code : Z)                              (* [_Exit (code)] *)
| Image (file : cptr) (argv : list string)      (* [execvp] replaced it *)
| Fault                                         (* undefined behaviour *)
| Stuck                                         (* the model ran out of fuel *)
| Returns (ret : Z) (st : shell).               (* returned to [main], or to [halt] *)

Inductive run : Type :=
| Done (f : fate)
| Ev (e : event) (r : run)
| Forked (child parent : run).

(** what the code does after a function returns, in the returning process *)
Definition cont : Type := Z → shell → run.

Fixpoint fate_of (r : run) : fate :=
  match r with
  | Done f => f
  | Ev _ r => fate_of r
  | Forked _ parent => fate_of parent
  end.

Definition termination (w : world) (r : run) : option wstatus :=
  match fate_of r with
  | Exits c => Some (Exited c)
  | Image file argv => Some (image_end w file argv)
  | Fault => Some (crash_end w)
  | Returns c _ => Some (Exited c)
  | Stuck => None
  end.

(** Observations on runs. *)

Fixpoint forks (r : run) : nat :=
  match r with
  | Done _ => 0
  | Ev _ r => forks r
  | Forked c p => S (forks c + forks p)
  end.

Fixpoint events (r : run) : list event :=   (* children first *)
  match r with
  | Done _ => []
  | Ev e r => e :: events r
  | Forked c p => events c ++ events p
  end.

Definition is_pipe (e : event) : bool :=
  match e with Sys sys_pipe true => true | _ => false end.
(** pipes created *)
Fixpoint pipes (r : run) : nat :=
  match r with
  | Done _ => 0
  | Ev e r => (if is_pipe e then 1 else 0) + pipes r
  | Forked c p => pipes c + pipes p
  end.

Definition launch_of (e : event) : option (cptr * list string) :=
  match e with Execvp file argv _ => Some (file, argv) | _ => None end.
(** every [execvp] attempted, with its arguments *)
Definition launches (r : run) : list (cptr * list string) :=
  omap launch_of (events r).

Definition stdout_of (e : event) : option string :=
  match e with Printf s => Some s | _ => None end.
Definition stderr_of (e : event) : option string :=
  match e with Perror s | Eprintf s => Some s | _ => None end.

(** ** The engine *)

Section Engine.

Variable w : world.

(** a system call whose failure is tested *)
Definition sys (c : syscall) (ok failed : run) : run :=
  if succeeds w c then Ev (Sys c true) ok else Ev (Sys c false) failed.

(** [if (verbose_flag) printf (...)] *)
Definition verbose (st : shell) (s : string) (r : run) : run :=
  if verbose_flag st then Ev (Printf s) r else r.

(** [if (close (d) < 0) perror ("Error closing file descriptor.");] *)
Definition close_noting (d : desc) (r : run) : run :=
  sys (sys_close d) r (Ev (Perror "Error closing file descriptor.") r).

(** [if (verbose_flag) { if (stdout_flag) { close (saved_stdout);
    stdout_flag = 0; } }] *)
Definition drop_saved_stdout (st : shell) (k : shell → run) : run :=
  if verbose_flag st && stdout_flag st
  then Ev (Sys (sys_close saved_stdout) (succeeds w (sys_close saved_stdout)))
          (k (set_stdout_flag st false))
  else k st.

(** *** Launcher *)

(** [while ((curr_path = path[i++]) != NULL) { strcat (curr_path, cmd[0]);
    ...; if (execvp (curr_path, cmd) == -1) { perror (...); return -1; } }]
    [dirs] is [path + i]. *)
Fixpoint exec_path_loop (cmd : list string) (dirs : list string) (i : nat)
    (st : shell) (k : cont) : run :=
  match dirs with
  | [] => Ev (Eprintf ("Error:  Invalid command." +:+ LF)) (k (-1)%Z st)
  | dir :: dirs' =>
    match cmd !! 0 with
    | None => Done Fault                        (* strcat from NULL *)
    | Some cmd0 =>
      let curr_path := libc.strcat dir cmd0 in
      let st := set_path_entry st i curr_path in
      drop_saved_stdout st (λ st,
        match execvp w (Some curr_path) cmd with
        | Replaced =>
          Ev (Execvp (Some curr_path) cmd Replaced)
             (Done (Image (Some curr_path) cmd))
        | Returned r errno =>
          Ev (Execvp (Some curr_path) cmd (Returned r errno))
             (if (r =? -1)%Z
              then Ev (Perror "Error executing program.") (k (-1)%Z st)
              else exec_path_loop cmd dirs' (S i) st k)
        end)
    end
  end.

Definition exec (cmd : list string) (st : shell) (k : cont) : run :=
  if negb (path_flag st) then
    drop_saved_stdout st (λ st,
      match execvp w (cmd !! 0) cmd with
      | Replaced =>
        Ev (Execvp (cmd !! 0) cmd Replaced) (Done (Image (cmd !! 0) cmd))
      | Returned r errno =>
        Ev (Execvp (cmd !! 0) cmd (Returned r errno))
           (if (r =? -1)%Z then
              let r := verbose st (show (cmd !! 0) +:+
                         " is not a valid command or program." +:+ LF +:+ LF)
                         (k (-1)%Z st) in
              if (errno =? ENOENT)%Z then r
              else Ev (Perror "Error executing program.") r
            else k (-1)%Z st)                  (* Should never be reached. *)
      end)
  else
    drop_saved_stdout st (λ st, exec_path_loop cmd (path st) 0 st k).

(** *** Redirection handlers *)

Definition redirect (flag : oflag) (how : string)
    (head tail : list string) (st : shell) (k : cont) : run :=
  sys sys_fork
    (Forked
      (* Child process. *)
      (verbose st ("  Child:" +:+ LF)
      (sys (sys_open (tail !! 0) flag mode_0666)
        (verbose st ("    Opening " +:+ show (tail !! 0) +:+
                     " for writing (" +:+ how +:+ ")." +:+ LF)
        ((λ rest : shell → run,
            if verbose_flag st && negb (stdout_flag st) then
              sys (sys_dup STDOUT_FILENO)
                (rest (set_stdout_flag st true))
                (Ev (Perror "Error duplicating stdout file descriptor.")
                    (k (-1)%Z st))
            else rest st)
         (λ st,
          sys (sys_dup2 (fd (tail !! 0)) STDOUT_FILENO)
            ((if verbose_flag st then
                Ev (Dprintf saved_stdout
                      ("    Duplicating the file descriptor for file " +:+
                       show (tail !! 0) +:+ " as stdout." +:+ LF))
              else id)
            (sys (sys_close (fd (tail !! 0)))
              ((if verbose_flag st then
                  λ r, Ev (Dprintf saved_stdout
                             ("    Closing output file descriptor." +:+ LF))
                      (Ev (Dprintf saved_stdout
                             ("    Executing the head command:  " +:+
                              show (head !! 0) +:+ LF)) r)
                else id)
              (exec head st (λ _ st, k (-1)%Z st)))  (* Shouldn't be reached. *)
              (Ev (Perror "Error closing a file descriptor.") (k (-1)%Z st))))
            (Ev (Perror "Error duplicating file descriptor.") (k (-1)%Z st)))))
        (Ev (Perror "Error opening file.") (k (-1)%Z st))))
      (* Parent process. *)
      (verbose st ("  Creating a child process for the command:  " +:+
                   show (head !! 0) +:+ LF)
      (sys sys_waitpid
        (verbose st ("  Parent:" +:+ LF +:+
                     "    Waiting for child process to terminate." +:+ LF)
          (k 0%Z st))
        (Ev (Perror "Error waiting for a process.") (k (-1)%Z st)))))
    (Ev (Perror "Error forking a process.") (k (-1)%Z st)).

Definition overwrite_handle (head tail : list string) (st : shell) (k : cont)
    : run :=
  verbose st ("  Overwriting the output of " +:+ show (head !! 0) +:+
              " onto " +:+ show (tail !! 0) +:+ LF)
    (redirect O_TRUNC "overwrite" head tail st k).

Definition append_handle (head tail : list string) (st : shell) (k : cont)
    : run :=
  verbose st ("  Appending the output of " +:+ show (head !! 0) +:+
              " onto the end of " +:+ show (tail !! 0) +:+ LF)
    (redirect O_APPEND "append" head tail st k).

(** [redirection_write_handle (head, tail, type)]: the two redirection
    handlers written as one, [type] non-zero for overwriting.  No function
    calls it.  Its messages go through [printf]; for the message about the
    opened file it calls [strcat] with a string literal as the destination. *)
Definition redirection_write_handle (head tail : list string) (type : Z)
    (st : shell) (k : cont) : run :=
  let verb :=
    if negb (type =? 0)%Z
    then "  Overwriting the output of " +:+ show (head !! 0) +:+
         " onto " +:+ show (tail !! 0) +:+ LF
    else "  Appending the output of " +:+ show (head !! 0) +:+
         " onto the end of " +:+ show (tail !! 0) +:+ LF in
  let flags := if negb (type =? 0)%Z then O_TRUNC else O_APPEND in
  verbose st verb
  (sys sys_fork
    (Forked
      (* Child process. *)
      (verbose st ("  Child:" +:+ LF)
      (sys (sys_open (tail !! 0) flags mode_0666)
        (if verbose_flag st then
           Done Fault                        (* strcat into a string literal *)
         else
           (λ rest : shell → run,
              if verbose_flag st && negb (stdout_flag st) then
                sys (sys_dup STDOUT_FILENO)
                  (rest (set_stdout_flag st true))
                  (Ev (Perror "Error duplicating stdout file descriptor.")
                      (k (-1)%Z st))
              else rest st)
           (λ st,
            sys (sys_dup2 (fd (tail !! 0)) STDOUT_FILENO)
              (verbose st ("    Duplicating the file descriptor for file " +:+
                           show (tail !! 0) +:+ " as stdout." +:+ LF)
              (sys (sys_close (fd (tail !! 0)))
                (verbose st ("    Closing output file descriptor." +:+ LF)
                (verbose st ("    Executing the head command:  " +:+
                             show (head !! 0) +:+ LF)
                (exec head st (λ _ st, k (-1)%Z st))))  (* Shouldn't be reached. *)
                (Ev (Perror "Error closing a file descriptor.") (k (-1)%Z st))))
              (Ev (Perror "Error duplicating file descriptor.") (k (-1)%Z st))))
        (Ev (Perror "Error opening file.") (k (-1)%Z st))))
      (* Parent process. *)
      (verbose st ("  Creating a child process for the command:  " +:+
                   show (head !! 0) +:+ LF)
      (sys sys_waitpid
        (verbose st ("  Parent:" +:+ LF +:+
                     "    Waiting for child process to terminate." +:+ LF)
          (k 0%Z st))
        (Ev (Perror "Error waiting for a process.") (k (-1)%Z st)))))
    (Ev (Perror "Error forking a process.") (k (-1)%Z st))).

(** *** Pipe handler

    [special_command] and [pipe_handle] call each other; [pipe_handle_with]
    takes the [special_command] it calls for the tail. *)

Definition pipe_handle_with
    (special_command : list string → nat → Z → shell → cont → run)
    (head tail : list string) (st : shell) (k : cont) : run :=
  verbose st ("  Piping:  " +:+ show (head !! 0) +:+ " --> " +:+
              show (tail !! 0) +:+ LF)
  (sys sys_pipe
    (verbose st ("  Creating a pipe for interprocess communication." +:+ LF)
    (sys sys_fork
      (Forked
        (* Child process used to execute the head command. *)
        (verbose st ("  Child:" +:+ LF)
        (sys (sys_close (pipefd READ_END))
          (verbose st ("    Closing the read end of the pipe." +:+ LF)
          ((λ rest : shell → run,
              if verbose_flag st && negb (stdout_flag st) then
                sys (sys_dup STDOUT_FILENO)
                  (rest (set_stdout_flag st true))
                  (Ev (Perror "Error duplicating stdout file descriptor.")
                      (close_noting (pipefd WRITE_END) (k (-1)%Z st)))
              else rest st)
           (λ st,
            sys (sys_dup2 (pipefd WRITE_END) STDOUT_FILENO)
              ((if verbose_flag st then
                  λ r, Ev (Dprintf saved_stdout
                             ("    Duplicating the file descriptor of the write end of the pipe as stdout." +:+ LF))
                      (Ev (Dprintf saved_stdout
                             ("    Executing the head command:  " +:+
                              show (head !! 0) +:+ LF)) r)
                else id)
              (sys (sys_close (pipefd WRITE_END))
                (exec head st (λ _ st, k (-1)%Z st))   (* Shouldn't be reached. *)
                (Ev (Perror "Error closing file descriptor.") (k (-1)%Z st))))
              (Ev (Perror "Error duplicating file descriptor.")
                  (close_noting (pipefd WRITE_END) (k (-1)%Z st))))))
          (Ev (Perror "Error closing file descriptor.")
              (close_noting (pipefd WRITE_END) (k (-1)%Z st)))))
        (* Parent process. *)
        (verbose st ("  Creating a child process for the command:  " +:+
                     show (head !! 0) +:+ LF)
        (sys sys_waitpid
          (verbose st ("  Parent:" +:+ LF +:+
                       "    Waiting for child process to terminate." +:+ LF)
          (sys (sys_dup2 (pipefd READ_END) STDIN_FILENO)
            (verbose st ("    Duplicating the file descriptor of the read end of the pipe as stdin." +:+ LF)
            (sys (sys_close (pipefd READ_END))
              (sys (sys_close (pipefd WRITE_END))
                (verbose st ("    Closing both ends of the pipe." +:+ LF)
                  (let tail_type := is_special_feature tail in
                   if (0 <? tail_type)%Z then
                     verbose st ("    Tail command consists of special feature." +:+ LF)
                       (special_command tail 0 tail_type st (λ r st,
                          if (r =? -1)%Z then k (-1)%Z st else k 0%Z st))
                   else
                     verbose st ("    Executing the tail command:  " +:+
                                 show (tail !! 0) +:+ LF +:+ LF)
                     (verbose st ("Program Output:" +:+ LF +:+ LF)
                       (exec tail st (λ _ st, k (-1)%Z st)))))  (* Shouldn't be reached. *)
                (Ev (Perror "Error closing file descriptor.") (k (-1)%Z st)))
              (Ev (Perror "Error closing file descriptor.")
                  (close_noting (pipefd WRITE_END) (k (-1)%Z st)))))
            (Ev (Perror "Error duplicating file descriptor.")
                (close_noting (pipefd READ_END)
                (close_noting (pipefd WRITE_END) (k (-1)%Z st))))))
          (Ev (Perror "Error waiting for child process.")
              (close_noting (pipefd READ_END)
              (close_noting (pipefd WRITE_END) (k (-1)%Z st)))))))
      (Ev (Perror "Error forking a process.")
          (close_noting (pipefd READ_END)
          (close_noting (pipefd WRITE_END) (k (-1)%Z st))))))
    (Ev (Perror "Error creating pipe.") (k (-1)%Z st))).

(** *** Splitting and dispatch to the handlers *)

Fixpoint special_command (fuel : nat) (cmd : list string) (num_cmd : nat)
    (type : Z) (st : shell) (k : cont) : run :=
  match fuel with
  | 0 => Done Stuck
  | S fuel' =>
    match splitter cmd num_cmd with
    | Ok (head, tail) =>
      let head := argv_of head in
      let tail := argv_of tail in
      match type with
      | 1%Z => append_handle head tail st k
      | 2%Z => overwrite_handle head tail st k
      | 3%Z => pipe_handle_with (special_command fuel') head tail st k
      | _ => Ev (Eprintf "Error:  Should not be reached!") (k (-1)%Z st)
      end
    | Undefined => Done Fault
    | OutOfFuel => Done Stuck
    end
  end.

Definition pipe_handle (fuel : nat) : list string → list string → shell → cont → run :=
  pipe_handle_with (special_command fuel).

(** *** Dispatcher *)

Definition exec_dispatch (cmd : list string) (num_cmd : nat) (st : shell)
    (k : cont) : run :=
  sys sys_fork
    (let leave : cont := λ status _,
       Done (Exits (if (status =? -1)%Z then EXIT_FAILURE else EXIT_SUCCESS)) in
     let child :=
       verbose st ("Child:" +:+ LF)
         (let type := is_special_feature cmd in
          if (0 <? type)%Z then
            special_command (S (length cmd)) cmd num_cmd type st leave
          else
            verbose st ("  Executing " +:+ show (cmd !! 0) +:+ "..." +:+ LF +:+ LF)
            (verbose st ("Program Output:" +:+ LF +:+ LF)
              (exec cmd st leave))) in
     Forked child
       (verbose st ("Creating a child process to run the command: " +:+
                    show (cmd !! 0) +:+ LF)
       (verbose st ("Parent:" +:+ LF +:+
                    "  Waiting for child process to terminate." +:+ LF)
       (match termination w child with
        | None => Done Stuck
        | Some status =>
          sys sys_wait
            (if WIFSIGNALED status &&
                ((WTERMSIG status =? SIGINT)%Z || (WTERMSIG status =? SIGQUIT)%Z)
             then
               Ev (Printf ("Process executing a command was killed by the user." +:+ LF))
                  (k (-1)%Z st)
             else
               k (if WIFEXITED status && (WEXITSTATUS status =? EXIT_SUCCESS)%Z
                  then EXIT_SUCCESS else (-1)%Z) st)
            (Ev (Perror "Error waiting for a process.") (k (-1)%Z st))
        end))))
    (Ev (Perror "Error forking a process.") (k (-1)%Z st)).

(** *** Built-in handlers *)

Definition cd_handle (cmd : list string) (num_cmd : nat) (st : shell)
    (k : cont) : run :=
  verbose st ("Changing current directory..." +:+ LF)
  (if num_cmd =? 1 then
     match HOME w with
     | None =>
       Ev (Sys (sys_getenv "HOME") false)
       (Ev (Printf "Error:  There is no home environment variable defined in your environment.")
           (k (-1)%Z st))
     | Some home =>
       Ev (Sys (sys_getenv "HOME") true)
       (verbose st ("Obtained home environment variable via call to getenv." +:+ LF)
       (sys (sys_chdir (Some home))
         (verbose st ("Changed current directory to your home directory: " +:+
                      home +:+ LF)
           (k 0%Z st))
         (Ev (Perror "Error:  Unable to change to your home directory.")
             (k (-1)%Z st))))
     end
   else if num_cmd =? 2 then
     sys (sys_chdir (cmd !! 1))
       (if verbose_flag st then
          sys sys_getcwd
            (Ev (Printf ("Changed current directory to: " +:+ getcwd w +:+ LF))
                (k 0%Z st))
            (Ev (Perror "Error:  Getting the current working directory failed.")
                (k (-1)%Z st))
        else k 0%Z st)
       (Ev (Perror ("Error:  Changing directory failed." +:+ LF)) (k (-1)%Z st))
   else
     Ev (Printf ("Error:  Too many arguments." +:+ LF +:+ "Usage: cd [dir]" +:+ LF))
        (k (-1)%Z st)).

Definition pwd_handle (cmd : list string) (num_cmd : nat) (st : shell)
    (k : cont) : run :=
  verbose st ("Getting current working directory..." +:+ LF)
  (if negb (num_cmd =? 1) && (is_special_feature cmd =? 0)%Z then
     Ev (Printf ("Error:  pwd should not have any arguments." +:+ LF))
        (k (-1)%Z st)
   else
     sys sys_getcwd
       (verbose st ("Obtained current working directory via call to getcwd." +:+ LF)
       (verbose st ("Program Output:" +:+ LF +:+ LF)
       (Ev (Printf (getcwd w +:+ LF)) (k 0%Z st))))
       (Ev (Perror "Error:  Getting the current working directory failed.")
           (k (-1)%Z st))).

(** *** The interactive loop

    [stdin] holds the lines [getline] will read; after the last one the
    stream is at end of file. *)

Definition farewell (st : shell) : run :=
  Ev (Printf ("Exiting now.  Thanks for using tinysh!" +:+ LF))
     (Done (Returns 0%Z st)).

(** [if (verbose_flag && !exit_flag) { ... }] after a command *)
Definition summary (st : shell) (command_status : Z) (r : run) : run :=
  if verbose_flag st then
    Ev (Printf LF)
    (Ev (Printf (if (command_status =? -1)%Z
                 then "Previous command failed." +:+ LF +:+ LF
                 else "Previous command was successful." +:+ LF +:+ LF)) r)
  else r.

(** One turn of the loop once the line is tokenized; [again] is the rest
    of the loop. *)
Definition turn (cmds : list string) (num_cmds : nat) (st : shell)
    (again : shell → run) : run :=
  match cmds with
  | [] => again st                      (* no commands: reprompt *)
  | cmd0 :: _ =>
    verbose st LF
    (let next : cont := λ command_status st,
       summary st command_status (again st) in
     if libc.strcmp cmd0 "exit" then farewell st
     else if libc.strcmp cmd0 "verbose" then next 0%Z (set_verbose_flag st true)
     else if libc.strcmp cmd0 "brief" then next 0%Z (set_verbose_flag st false)
     else if libc.strcmp cmd0 "pwd" then pwd_handle cmds num_cmds st next
     else if libc.strcmp cmd0 "cd" then cd_handle cmds num_cmds st next
     else exec_dispatch cmds num_cmds st next)
  end.

Fixpoint driver_loop (stdin : list string) (st : shell) : run :=
  Ev (Printf "tinysh> ")
  match stdin with
  | [] =>
    verbose st (LF +:+ "Encountered EOF, it looks like you pressed CTRL + D." +:+
                LF +:+ "Exiting now..." +:+ LF +:+ LF)
      (farewell st)
  | input :: stdin' =>
    match tokenizer input delim (String.length input) with
    | Ok (cmds, num_cmds) =>
      turn (from_option argv_of [] cmds) num_cmds st (driver_loop stdin')
    | Undefined => Done Fault
    | OutOfFuel => Done Stuck
    end
  end.

Definition driver (stdin : list string) (st : shell) : run :=
  Ev (Printf (if path_flag st
              then "Using the path defined in the provided path file." +:+ LF
              else "Using the path defined by your environment." +:+ LF))
     (driver_loop stdin st).

End Engine.

(** ** The earlier variant

    In the earlier [tinysh.c] the functions return nothing.  In the launcher
    and the handlers every path ends in [exit] or in a replaced image, so they
    need no continuation.  [path] is an array of [INIT_NUM_PATHS] pointers
    there. *)

Module legacy.

Definition INIT_NUM_PATHS : nat := 20.

Definition die : run := Done (Exits EXIT_FAILURE).

Definition invalid : run :=
  Ev (Printf ("Error:  Invalid command." +:+ LF)) die.

(** [for (i = 0; (i < INIT_NUM_PATHS) && (path[i] != NULL) &&
    (strcmp (path[i], "") != 0); i++) { ... }] *)
Fixpoint exec_path_loop (w : world) (cmd : list string) (dirs : list string)
    (i : nat) (st : shell) : run :=
  match dirs with
  | [] => invalid
  | dir :: dirs' =>
    if (INIT_NUM_PATHS <=? i) || libc.strcmp dir "" then invalid
    else
      match cmd !! 0 with
      | None => Done Fault                        (* strcat from NULL *)
      | Some cmd0 =>
        let curr_path := libc.strcat dir cmd0 in
        let st := set_path_entry st i curr_path in
        drop_saved_stdout w st (λ st,
          match execvp w (Some curr_path) cmd with
          | Replaced =>
            Ev (Execvp (Some curr_path) cmd Replaced)
               (Done (Image (Some curr_path) cmd))
          | Returned r errno =>
            Ev (Execvp (Some curr_path) cmd (Returned r errno))
               (if (r =? -1)%Z
                then Ev (Perror "Error executing program.") die
                else exec_path_loop w cmd dirs' (S i) st)
          end)
      end
  end.

Definition exec (w : world) (cmd : list string) (st : shell) : run :=
  if negb (path_flag st) then
    drop_saved_stdout w st (λ st,
      match execvp w (cmd !! 0) cmd with
      | Replaced =>
        Ev (Execvp (cmd !! 0) cmd Replaced) (Done (Image (cmd !! 0) cmd))
      | Returned r errno =>
        Ev (Execvp (cmd !! 0) cmd (Returned r errno))
           (if (r =? -1)%Z
            then Ev (Perror "Error executing program.") die
            else invalid)
      end)
  else exec_path_loop w cmd (path st) 0 st.

(** [overwrite_handle] ([over] true) and [append_handle] ([over] false):
    the same text up to the open flag and a few messages. *)
Definition redirect (w : world) (over : bool) (head tail : list string)
    (st : shell) : run :=
  let flag := if over then O_TRUNC else O_APPEND in
  let how := if over then "overwrite" else "append" in
  verbose st (if over
              then "  Overwriting the output of " +:+ show (head !! 0) +:+
                   " onto " +:+ show (tail !! 0) +:+ LF
              else "  Appending the output of " +:+ show (head !! 0) +:+
                   " onto the end of " +:+ show (tail !! 0) +:+ LF)
  (sys w sys_pipe
    (verbose st ("  Creating a pipe for interprocess communication." +:+ LF)
    (sys w sys_fork
      (Forked
        (* Child process. *)
        ((if over then verbose st ("  Child:" +:+ LF) else id)
        (sys w (sys_open (tail !! 0) flag mode_0666)
          (verbose st ("    Opening " +:+ show (tail !! 0) +:+
                       " for writing (" +:+ how +:+ ")." +:+ LF)
          ((λ rest : shell → run,
              if verbose_flag st && negb (stdout_flag st) then
                sys w (sys_dup STDOUT_FILENO)
                  (rest (set_stdout_flag st true))
                  (Ev (Perror "Error duplicating stdout file descriptor.") die)
              else rest st)
           (λ st,
            sys w (sys_dup2 (fd (tail !! 0)) STDOUT_FILENO)
              (verbose st ("    Duplicating the file descriptor for file " +:+
                           show (tail !! 0) +:+ " as stdout." +:+ LF)
              (sys w (sys_close (pipefd 0))
                (verbose st ("    Closing the read end of the pipe." +:+ LF)
                (if negb (is_special_feature tail =? 0)%Z then
                   sys w (sys_dup2 (pipefd 1) STDOUT_FILENO)
                     (verbose st ("    Duplicating the file descriptor of the write end of the pipe as stdout." +:+ LF)
                     (if length tail <? 2 then Done Fault   (* tail[2] lies past the NULL *)
                      else
                        sys w (sys_open (tail !! 2) flag mode_0666)
                          ((if over then id
                            else verbose st ("    Opening " +:+ show (tail !! 0) +:+
                                             " for writing (append)." +:+ LF))
                          (sys w (sys_dup2 (fd (tail !! 2)) STDOUT_FILENO)
                            (verbose st ("    Duplicating the file descriptor for file " +:+
                                         show (tail !! (if over then 2 else 0)) +:+
                                         " as stdout." +:+ LF)
                            (verbose st ("    Executing the head command:  " +:+
                                         show (head !! 0) +:+ LF)
                              (exec w head st)))
                            (Ev (Perror "Error duplicating file descriptor.") die)))
                          (Ev (Perror "Error opening file.") die)))
                     (Ev (Perror "Error duplicating file descriptor.") die)
                 else
                   verbose st ("    Executing the head command:  " +:+
                               show (head !! 0) +:+ LF)
                     (exec w head st)))
                (Ev (Perror "Error closing file descriptor.") die)))
              (Ev (Perror "Error duplicating file descriptor.") die))))
          (Ev (Perror "Error opening file.") die)))
        (* Parent process. *)
        (verbose st ("  Creating a child process for the command:  " +:+
                     show (head !! 0) +:+ LF)
        (sys w sys_waitpid
          (verbose st ("  Parent:" +:+ LF +:+
                       "    Waiting for child process to terminate." +:+ LF)
            die)
          (Ev (Perror (if over then "Error waiting for a process."
                       else "Error waiting for process.")) die))))
      (Ev (Perror "Error forking a process.") die)))
    (Ev (Perror (if over then "Error creating pipe." else "Error piping failed."))
        die)).

Definition overwrite_handle (w : world) : list string → list string → shell → run :=
  redirect w true.

Definition append_handle (w : world) : list string → list string → shell → run :=
  redirect w false.

Definition MAX_INPUT : nat := 255.            (* <limits.h> *)

(** *** Tokenizer

    [while ((tok = strtok_r (context, delim, &context)) != NULL) {
       cmd_list->cmds[tok_ind++] = strdup (tok);
       if (tok_ind >= capacity - 1) { ... realloc (..., (capacity *= 2) ...) } }] *)
Fixpoint tokenizer_loop (fuel : nat) (context delim : string)
    (cmds : block) (tok_ind capacity : nat) : outcome (block * nat) :=
  match fuel with
  | 0 => OutOfFuel
  | S fuel' =>
    match libc.strtok_r context delim with
    | (None, _) => Ok (cmds, tok_ind)
    | (Some tok, context') =>
      cmds' ← store cmds tok_ind (Some tok);
      let '(cmds', capacity) :=
        if capacity - 1 <=? S tok_ind
        then (realloc cmds' (capacity * 2), capacity * 2)
        else (cmds', capacity) in
      tokenizer_loop fuel' context' delim cmds' (S tok_ind) capacity
    end
  end.

(** [tokenizer (input, cmd_list, delim, capacity)]: what it leaves in
    [cmd_list->cmds] and [cmd_list->size]. *)
Definition tokenizer (input delim : string) (capacity : nat)
    : outcome (block * nat) :=
  '(cmds, tok_ind) ←
    tokenizer_loop (S (String.length input)) input delim (malloc capacity) 0 capacity;
  cmds' ← store cmds tok_ind None;
  Ok (cmds', tok_ind).

(** *** Pipe handler, splitting and dispatch

    What a function that returns nothing does next is a [shell → run]. *)

Definition pipe_handle_with (w : world)
    (special_command : list string → Z → Z → shell → run)
    (head tail : list string) (st : shell) : run :=
  verbose st ("  Piping:  " +:+ show (head !! 0) +:+ " --> " +:+
              show (tail !! 0) +:+ LF)
  (sys w sys_pipe
    (verbose st ("  Creating a pipe for interprocess communication." +:+ LF)
    (sys w sys_fork
      (Forked
        (* Child process. *)
        (verbose st ("  Child:" +:+ LF)
        (sys w (sys_close (pipefd 0))
          (verbose st ("    Closing the read end of the pipe." +:+ LF)
          ((λ rest : shell → run,
              if verbose_flag st && negb (stdout_flag st) then
                sys w (sys_dup STDOUT_FILENO)
                  (rest (set_stdout_flag st true))
                  (Ev (Perror "Error duplicating stdout file descriptor.") die)
              else rest st)
           (λ st,
            sys w (sys_dup2 (pipefd 1) STDOUT_FILENO)
              ((if verbose_flag st then
                  λ r, Ev (Dprintf saved_stdout
                             ("    Duplicating the file descriptor of the write end of the pipe as stdout." +:+ LF))
                      (Ev (Dprintf saved_stdout
                             ("    Executing the head command:  " +:+
                              show (head !! 0) +:+ LF)) r)
                else id)
              (exec w head st))
              (Ev (Perror "Error duplicating file descriptor.") die))))
          (Ev (Perror "Error closing file descriptor.") die)))
        (* Parent process. *)
        (verbose st ("  Creating a child process for the command:  " +:+
                     show (head !! 0) +:+ LF)
        (sys w sys_waitpid
          (verbose st ("  Parent:" +:+ LF +:+
                       "    Waiting for child process to terminate." +:+ LF)
          (sys w (sys_dup2 (pipefd 0) STDIN_FILENO)
            (verbose st ("    Duplicating the file descriptor of the read end of the pipe as stdin." +:+ LF)
            (sys w (sys_close (pipefd 0))
              (sys w (sys_close (pipefd 1))
                (verbose st ("    Closing both ends of the pipe." +:+ LF)
                  (let tail_type := is_special_feature tail in
                   if (0 <? tail_type)%Z then
                     special_command tail (-1)%Z tail_type st
                   else
                     verbose st ("    Executing the tail command:  " +:+
                                 show (tail !! 0) +:+ LF +:+ LF)
                     (verbose st ("Program Output:" +:+ LF +:+ LF)
                       (exec w tail st))))
                (Ev (Perror "    Error closing file descriptor.") die))
              (Ev (Perror "    Error closing file descriptor.") die)))
            (Ev (Perror "Error duplicating file descriptor.") die)))
          (Ev (Perror "Error waiting for child process.") die))))
      (Ev (Perror "Error forking a process.") die)))
    (Ev (Perror "Error creating pipe.") die)).

(** The splitting loops are those of the later variant, and
    [DEFAULT_CMD_NUM] is 3 as [DEFAULT_TOKENS_CAPACITY] is; the pipe handler
    passes -1 for [num_cmd] where the later one passes 0.  [k] is what the
    caller does when [special_command] returns, which it does for a [type]
    that is none of 1, 2 and 3; inside the pipe handler the caller calls
    [exit]. *)
Fixpoint special_command (w : world) (fuel : nat) (cmd : list string)
    (num_cmd type : Z) (st : shell) (k : shell → run) : run :=
  match fuel with
  | 0 => Done Stuck
  | S fuel' =>
    match splitter cmd (Z.to_nat num_cmd) with
    | Ok (head, tail) =>
      let head := argv_of head in
      let tail := argv_of tail in
      match type with
      | 1%Z => append_handle w head tail st
      | 2%Z => overwrite_handle w head tail st
      | 3%Z => pipe_handle_with w
                 (λ cmd num_cmd type st,
                    special_command w fuel' cmd num_cmd type st (λ _, die))
                 head tail st
      | _ => Ev (Printf "Error:  Should not be reached!") (k st)
      end
    | Undefined => Done Fault
    | OutOfFuel => Done Stuck
    end
  end.

Definition exec_dispatch (w : world) (cmd : list string) (num_cmd : Z)
    (st : shell) (k : shell → run) : run :=
  sys w sys_fork
    (Forked
       (* Child process *)
       (verbose st ("Child:" +:+ LF)
         (let type := is_special_feature cmd in
          if (0 <? type)%Z then
            special_command w (S (length cmd)) cmd num_cmd type st k
          else
            verbose st ("  Executing " +:+ show (cmd !! 0) +:+ "..." +:+ LF +:+ LF)
            (verbose st ("Program Output:" +:+ LF +:+ LF)
              (exec w cmd st))))
       (* Parent process *)
       (verbose st ("Creating a child process to run the command: " +:+
                    show (cmd !! 0) +:+ LF)
       (verbose st ("Parent:" +:+ LF +:+
                    "  Waiting for child process to terminate." +:+ LF)
       (sys w sys_wait
          (k st)
          (Ev (Perror "Error waiting for a process.") die)))))
    (Ev (Perror "Error forking a process.") die).

(** *** Built-in handlers *)

Definition cd_handle (w : world) (cmd : list string) (size : nat) (st : shell)
    (k : shell → run) : run :=
  verbose st ("Changing current directory..." +:+ LF)
  (if size =? 1 then
     let home := HOME w in
     (match home with
      | None =>
        λ r, Ev (Sys (sys_getenv "HOME") false)
            (Ev (Printf "Error:  There is no home environment variable defined in your environment.") r)
      | Some _ => Ev (Sys (sys_getenv "HOME") true)
      end)
     (verbose st ("Obtained home environment variable via call to getenv." +:+ LF)
     ((λ r, sys w (sys_chdir home) r
              (Ev (Perror "Error:  Unable to change to your home directory.") r))
     (verbose st ("Changed current directory to your home directory: " +:+
                  show home +:+ LF)
       (k st))))
   else if size =? 2 then
     (λ r, sys w (sys_chdir (cmd !! 1)) r
             (Ev (Perror ("Error:  Changing directory failed." +:+ LF)) r))
     (if verbose_flag st then
        sys w sys_getcwd
          (Ev (Printf ("Changed current directory to: " +:+ getcwd w +:+ LF)) (k st))
          (Ev (Perror "Error:  Getting the current working directory failed.") (k st))
      else k st)
   else
     Ev (Printf ("Error:  Too many arguments." +:+ LF +:+ "Usage: cd [dir]" +:+ LF))
        (k st)).

Definition pwd_handle (w : world) (cmd : list string) (size : nat) (st : shell)
    (k : shell → run) : run :=
  verbose st ("Getting current working directory..." +:+ LF)
  (if negb (size =? 1) && (is_special_feature cmd =? 0)%Z then
     Ev (Printf ("Error:  pwd should not have any arguments." +:+ LF)) (k st)
   else
     sys w sys_getcwd
       (verbose st ("Obtained current working directory via call to getcwd." +:+ LF)
       (verbose st ("Program Output:" +:+ LF +:+ LF)
       (Ev (Printf (getcwd w +:+ LF)) (k st))))
       (Ev (Perror "Error:  Getting the current working directory failed.") (k st))).

(** *** The interactive loop

    [stdin] is the stream: the characters not yet read.  [input] is the
    array [char input[MAX_INPUT]]: [None] until [fgets] has written to it.
    When the driver returns, [main] returns 0. *)

(** the characters [fgets] stores: up to [n], or up to and with a newline *)
Fixpoint fgets_loop (n : nat) (stream : string) : string * string :=
  match n, stream with
  | S n', String c rest =>
    if Ascii.eqb c "010"%char then (String c EmptyString, rest)
    else let '(line, rest') := fgets_loop n' rest in (String c line, rest')
  | _, _ => (EmptyString, stream)
  end.

(** [fgets (s, size, stream)]: NULL at end of file when nothing was read,
    and then the array is left as it was *)
Definition fgets (size : nat) (stream : string) : option (string * string) :=
  match stream with
  | EmptyString => None
  | _ => Some (fgets_loop (size - 1) stream)
  end.

Fixpoint driver_loop (w : world) (fuel : nat) (stdin : string)
    (input : option string) (st : shell) : run :=
  match fuel with
  | 0 => Done Stuck
  | S fuel' =>
    Ev (Printf "tinysh> ")
    (let '(input, stdin) :=
       match fgets MAX_INPUT stdin with
       | Some (line, rest) => (Some line, rest)
       | None => (input, stdin)
       end in
     match input with
     | None => Done Fault                 (* strlen of an array never written *)
     | Some line =>
       match tokenizer line delim (String.length line / 2 + 1) with
       | Ok (cmds, size) =>
         match argv_of cmds with
         | [] => driver_loop w fuel' stdin input st          (* continue *)
         | cmd0 :: _ =>
           verbose st LF
           (let next : shell → run := λ st,
              verbose st LF (driver_loop w fuel' stdin input st) in
            if libc.strcmp cmd0 "exit" then farewell st
            else if libc.strcmp cmd0 "pwd" then pwd_handle w (argv_of cmds) size st next
            else if libc.strcmp cmd0 "cd" then cd_handle w (argv_of cmds) size st next
            else exec_dispatch w (argv_of cmds) (Z.of_nat size) st next)
         end
       | Undefined => Done Fault
       | OutOfFuel => Done Stuck
       end
     end)
  end.

Definition driver (w : world) (fuel : nat) (stdin : string) (st : shell) : run :=
  Ev (Printf (if path_flag st
              then "Using the path defined in the provided path file." +:+ LF
              else "Using the path defined by your environment." +:+ LF))
     (verbose st ("Dynamically allocating memory for a struct containing a list of commands and the number of commands." +:+ LF)
     (driver_loop w fuel stdin None st)).

(** *** The path file

    An entry of [char *path[INIT_NUM_PATHS]] is NULL, a buffer of [PATH_MAX]
    bytes that nothing was written to yet, or a buffer that holds a string. *)

Definition PATH_MAX : nat := 4096.            (* <limits.h> *)

Inductive entry : Type :=
| Null
| Fresh                                       (* [malloc (PATH_MAX)] *)
| Holds (s : string).

(** [path[i] = e] *)
Definition store_entry (path : list entry) (i : nat) (e : entry)
    : outcome (list entry) :=
  if i <? length path then Ok (<[i := e]> path) else Undefined.

(** [while ((ind < INIT_NUM_PATHS) && (fgets (path[ind], PATH_MAX, fp) != NULL)) {
       if ((path[++ind] = malloc (PATH_MAX)) == NULL) { ... } }]
    [fp] is what is left of the file; [path[ind]] is the buffer that was
    allocated last. *)
Fixpoint set_path_loop (fuel : nat) (fp : string) (path : list entry) (ind : nat)
    : outcome (list entry) :=
  match fuel with
  | 0 => OutOfFuel
  | S fuel' =>
    if ind <? INIT_NUM_PATHS then
      match fgets PATH_MAX fp with
      | None => Ok path
      | Some (line, fp') =>
        path ← store_entry path ind (Holds line);
        path ← store_entry path (S ind) Fresh;
        set_path_loop fuel' fp' path (S ind)
      end
    else Ok path
  end.

(** [set_path (file_path)]: what it prints, and what it returns with
    [path_flag] and [path] after it.  [opened] is what [fopen (file_path, "r")]
    gives: [errno], or the content of the file. *)
Definition set_path (opened : Z + string) (file_path : string)
    (path_flag : bool) (path : list entry)
    : list event * outcome (Z * bool * list entry) :=
  match opened with
  | inl errno =>
    (if (errno =? ENOENT)%Z then [] else [Perror "Unable to open .path file."],
     Ok (0%Z, false, path))
  | inr content =>
    ([Printf ("Obtaining path from the following file: " +:+ file_path)],
     path ← store_entry path 0 Fresh;
     path ← set_path_loop (S INIT_NUM_PATHS) content path 0;
     Ok (1%Z, path_flag, path))
  end.

End legacy.

(** ** Start-up: [main], [set_path], [usage]

    [main] reads the options with [getopt_long].  What one call of
    [getopt_long (argc, argv, "p:hv", long_options, &option_index)] finds on
    the command line is a [found]; the command line is the list of what the
    successive calls find, and after the last one [getopt_long] returns -1.
    (The messages [getopt_long] writes itself are not among the events.)
    [set_path] is embedded up to the content of the PathList: of [path] the
    embedding keeps the file it was read from. *)

Module startup.

(** the option characters of ["p:hv"] *)
Inductive letter : Type := opt_p | opt_h | opt_v.

Inductive found : Type :=
| Short (c : letter) (optarg : option string)         (* an option of ["p:hv"] *)
| Long (option_index : nat) (optarg : option string)  (* an entry of [long_options] *)
| Unrecognized (optopt : Z).       (* not an option, or its argument is missing *)

(** the variable a [flag] field points to *)
Inductive flag_variable : Type := the_path_flag | the_verbose_flag.

Definition code (c : ascii) : Z := Z.of_nat (nat_of_ascii c).

Definition code_of (c : letter) : Z :=
  match c with
  | opt_p => code "p"
  | opt_h => code "h"
  | opt_v => code "v"
  end.

(** [long_options]: [name], [flag] and [val] of each entry *)
Definition long_options : list (string * option flag_variable * Z) :=
  [ ("path", Some the_path_flag, 1%Z);
    ("verbose", Some the_verbose_flag, 1%Z);
    ("help", None, code "h") ].

Record vars : Type := {
  path_file : option string;  (* the file [path] was read from; [None]: [path] is NULL *)
  path_flag : bool;
  verbose_flag : bool;
  stdout_flag : bool;
}.

(** the static variables as the program starts *)
Definition initial : vars :=
  {| path_file := None; path_flag := false; verbose_flag := false;
     stdout_flag := false |}.

Definition with_path_file (v : vars) (file : string) : vars :=
  {| path_file := Some file; path_flag := path_flag v;
     verbose_flag := verbose_flag v; stdout_flag := stdout_flag v |}.
Definition with_path_flag (v : vars) (b : bool) : vars :=
  {| path_file := path_file v; path_flag := b;
     verbose_flag := verbose_flag v; stdout_flag := stdout_flag v |}.
Definition with_verbose_flag (v : vars) (b : bool) : vars :=
  {| path_file := path_file v; path_flag := path_flag v;
     verbose_flag := b; stdout_flag := stdout_flag v |}.
Definition with_stdout_flag (v : vars) (b : bool) : vars :=
  {| path_file := path_file v; path_flag := path_flag v;
     verbose_flag := verbose_flag v; stdout_flag := b |}.

(** how [main] ends: by [exit], or by calling [driver] *)
Inductive start : Type :=
| Exit (status : Z)
| Drive (v : vars).

(** [evs] happen, then [p] *)
Definition after (evs : list event) (p : list event * start) : list event * start :=
  (evs ++ p.1, p.2).

Definition usage (progname : string) : list event :=
  [Eprintf ("usage: " +:+ progname +:+
            " [-p|--path file] [-h|--help] [-v|--verbose]" +:+ LF)].

Definition display_help (progname : string) : list event := usage progname.

Section Files.

(** [fopen (file, "r")]: [None] when it succeeds, else [errno] *)
Variable fopen : string → option Z.

(** [set_path (file_path)]: what it prints, what it returns, the variables
    after it *)
Definition set_path (file_path : string) (v : vars) : list event * Z * vars :=
  match fopen file_path with
  | Some errno =>
    (if (errno =? ENOENT)%Z then [] else [Perror "Unable to open .path file."],
     (-1)%Z, with_path_flag v false)
  | None =>
    ([Printf ("Obtaining path from the following file: " +:+ file_path)],
     0%Z, with_path_file v file_path)
  end.

(** The value [getopt_long] returns and the variables after the call: for
    a long option whose [flag] is not NULL it stores [val] in the variable
    and returns 0; for one whose [flag] is NULL it returns [val]. *)
Definition getopt_long (f : found) (v : vars) : Z * vars :=
  match f with
  | Short c _ => (code_of c, v)
  | Unrecognized _ => (code "?", v)
  | Long option_index _ =>
    match long_options !! option_index with
    | Some (_, Some the_path_flag, val) =>
      (0%Z, with_path_flag v (negb (val =? 0)%Z))
    | Some (_, Some the_verbose_flag, val) =>
      (0%Z, with_verbose_flag v (negb (val =? 0)%Z))
    | Some (_, None, val) => (val, v)
    | None => (code "?", v)
    end
  end.

Definition optarg (f : found) : option string :=
  match f with
  | Short _ a | Long _ a => a
  | Unrecognized _ => None
  end.

Definition optopt (f : found) : Z :=
  match f with
  | Unrecognized o => o
  | _ => 0%Z
  end.

Definition option_index (f : found) : nat :=
  match f with
  | Long i _ => i
  | _ => 0
  end.

(** [if (optarg) { if (set_path (optarg) == -1) path_flag = 0; }
     else { printf (...); usage (argv[0]); exit (EXIT_FAILURE); }] *)
Definition process_path (progname : string) (f : found) (v : vars)
    (go_on : vars → list event * start) : list event * start :=
  match optarg f with
  | Some file =>
    let '(evs, r, v) := set_path file v in
    after evs
      (go_on (if (r =? -1)%Z then with_path_flag v false else v))
  | None =>
    (Printf ("Please provide a path file." +:+ LF) :: usage progname,
     Exit EXIT_FAILURE)
  end.

(** [while ((c = getopt_long (...)) != -1) { switch (c) { ... } }] *)
Fixpoint main_loop (progname : string) (opts : list found) (v : vars)
    : list event * start :=
  match opts with
  | [] => ([], Drive v)
  | f :: opts' =>
    let '(c, v) := getopt_long f v in
    let go_on := main_loop progname opts' in
    if (c =? 0)%Z then
      match long_options !! option_index f with
      | Some (_, Some _, _) => go_on v            (* the option sets a flag *)
      | _ =>
        if path_flag v then process_path progname f v go_on
        else if verbose_flag v then
          after [Printf ("Running in verbose mode." +:+ LF)] (go_on v)
        else
          (Eprintf ("Error processing shell arguments." +:+ LF) :: usage progname,
           Exit EXIT_FAILURE)
      end
    else if (c =? code "h")%Z then (display_help progname, Exit EXIT_SUCCESS)
    else if (c =? code "p")%Z then
      process_path progname f (with_path_flag v true) go_on
    else if (c =? code "v")%Z then
      after [Printf ("Running in verbose mode." +:+ LF)]
        (go_on (with_verbose_flag v true))
    else if (c =? code "?")%Z then
      ((if negb (optopt f =? 0)%Z && (optopt f =? code "p")%Z
        then [Printf ("Please provide a path file when using the path option." +:+ LF)]
        else []) ++ usage progname,
       Exit EXIT_FAILURE)
    else
      ([Eprintf ("Error, shouldn't reach the default case in switch statement." +:+ LF)],
       Exit EXIT_FAILURE)
  end.

(** [main] up to its call of [driver] *)
Definition main (progname : string) (opts : list found) : list event * start :=
  main_loop progname opts (with_stdout_flag initial false).

End Files.

End startup.

(** ** Notions the properties are stated with *)

(** [c] is one of the delimiter characters. *)
Definition delimiter (delim : string) (c : ascii) : Prop :=
  In c (list_ascii_of_string delim).

Definition chars_all (P : ascii → Prop) (s : string) : Prop :=
  Forall P (list_ascii_of_string s).

(** Modelled from the spec: "the ordered list of maximal non-delimiter
    substrings".  [tokenization delim s toks]: [s] is a gap of delimiters,
    then the substring [tok] free of delimiters, which ends at the end of [s]
    or at a delimiter, and so on for what follows. *)
Inductive tokenization (delim : string) : string → list string → Prop :=
| tokenization_done gap :
    chars_all (delimiter delim) gap →
    tokenization delim gap []
| tokenization_token gap tok rest toks :
    chars_all (delimiter delim) gap →
    tok ≠ EmptyString →
    chars_all (λ c, ¬ delimiter delim c) tok →
    (rest = EmptyString ∨ ∃ c rest', rest = String c rest' ∧ delimiter delim c) →
    tokenization delim rest toks →
    tokenization delim (gap +:+ tok +:+ rest) (tok :: toks).

(** What the tokenizer hands back for a vector of tokens: NULL for none,
    else a block of exactly its strings and a NULL; and the count. *)
Definition handed_back (toks : list string) : option block * nat :=
  match toks with
  | [] => (None, 0)
  | _ => (Some (block_of toks), length toks)
  end.

Definition operator (c : string) : Prop := c = ">>" ∨ c = ">" ∨ c = "|".

(** The stages [s1; s2; ...; sn] written as one command [s1 | s2 | ... | sn]. *)
Fixpoint chain (stages : list (list string)) : list string :=
  match stages with
  | [] => []
  | [s] => s
  | s :: stages' => s ++ "|" :: chain stages'
  end.

(** number of stages of a command: one more than its pipe operators *)
Definition stages_of (cmd : list string) : nat :=
  S (length (filter (λ c, c = "|") cmd)).

(** A property of every fate in a run, children included. *)
Fixpoint all_fates (P : fate → Prop) (r : run) : Prop :=
  match r with
  | Done f => P f
  | Ev _ r => all_fates P r
  | Forked c p => all_fates P c ∧ all_fates P p
  end.

Definition faultless : run → Prop := all_fates (λ f, f ≠ Fault).
Definition stuck_free : run → Prop := all_fates (λ f, f ≠ Stuck).

(** The code under study returns to a caller that stops there. *)
Definition halt : cont := λ r st, Done (Returns r st).

(** Worlds and states for concrete runs. *)

(** every system call succeeds, every program is found and exits with 0 *)
Definition calm : world :=
  {| succeeds := λ _, true;
     execvp := λ _ _, Replaced;
     image_end := λ _ _, Exited 0;
     crash_end := Signaled 11;
     getcwd := "/";
     HOME := Some "/root" |}.

(** as [calm], but no program is found *)
Definition barren : world :=
  {| succeeds := λ _, true;
     execvp := λ _ _, Returned (-1) ENOENT;
     image_end := λ _ _, Exited 0;
     crash_end := Signaled 11;
     getcwd := "/";
     HOME := Some "/root" |}.

(** as [calm], but every program is killed by the signal [sig] *)
Definition killing (sig : Z) : world :=
  {| succeeds := λ _, true;
     execvp := λ _ _, Replaced;
     image_end := λ _ _, Signaled sig;
     crash_end := Signaled 11;
     getcwd := "/";
     HOME := Some "/root" |}.

Definition brief : shell :=
  {| path := []; path_flag := false; verbose_flag := false; stdout_flag := false |}.

Definition chatty : shell :=
  {| path := []; path_flag := false; verbose_flag := true; stdout_flag := false |}.

Definition configured (dirs : list string) : shell :=
  {| path := dirs; path_flag := true; verbose_flag := false; stdout_flag := false |}.

(** every text a process writes, whatever the stream *)
Definition output_of (e : event) : option string :=
  match e with
  | Printf s | Dprintf _ s | Perror s | Eprintf s => Some s
  | Sys _ _ | Execvp _ _ _ => None
  end.

(** [s] is empty or starts with a character that is not in [P]. *)
Definition stops (P : ascii → Prop) (s : string) : Prop :=
  match s with
  | EmptyString => True
  | String c _ => ¬ P c
  end.

(** the names the driver handles itself *)
Definition builtin (cmd0 : string) : Prop :=
  cmd0 = "exit" ∨ cmd0 = "verbose" ∨ cmd0 = "brief" ∨ cmd0 = "pwd" ∨ cmd0 = "cd".

(** The children the handlers fork for a command, and the pipes they create:
    one of each per pipe operator up to the first redirection operator, and
    one more child for that redirection. *)
Fixpoint handler_forks (cmd : list string) : nat :=
  match cmd with
  | [] => 0
  | c :: rest =>
    if libc.strcmp c "|" then S (handler_forks rest)
    else if is_operator c then 1
    else handler_forks rest
  end.

Fixpoint handler_pipes (cmd : list string) : nat :=
  match cmd with
  | [] => 0
  | c :: rest =>
    if libc.strcmp c "|" then S (handler_pipes rest)
    else if is_operator c then 0
    else handler_pipes rest
  end.

(** a run in which nothing is forked and no pipe is created *)
Definition forkless (r : run) : Prop := forks r = 0 ∧ pipes r = 0.

(** ** Notions of the further properties *)

(** [s] without its delimiter characters *)
Fixpoint strip (delim s : string) : string :=
  match s with
  | EmptyString => EmptyString
  | String c s' =>
    if libc.strchr delim c then strip delim s' else String c (strip delim s')
  end.

(** a token: not empty, and free of delimiters *)
Definition token (delim tok : string) : Prop :=
  tok ≠ EmptyString ∧ chars_all (λ c, ¬ delimiter delim c) tok.

(** how a process ends without coming back to the code that forked it *)
Definition leaves (f : fate) : Prop :=
  match f with
  | Exits _ | Image _ _ | Fault => True
  | Stuck | Returns _ _ => False
  end.

(** every process forked in [r], and every process those fork, [leaves] *)
Fixpoint children_leave (r : run) : Prop :=
  match r with
  | Done _ => True
  | Ev _ r => children_leave r
  | Forked c p => all_fates leaves c ∧ children_leave p
  end.


(** A property of every event in a run, children included. *)
Fixpoint all_events (Q : event → Prop) (r : run) : Prop :=
  match r with
  | Done _ => True
  | Ev e r => Q e ∧ all_events Q r
  | Forked c p => all_events Q c ∧ all_events Q p
  end.

(** a property of the file and the vector of every [execvp] attempted *)
Definition on_launch (R : cptr → list string → Prop) (e : event) : Prop :=
  match e with
  | Execvp file argv _ => R file argv
  | _ => True
  end.

(** [v] is a run of consecutive tokens of [cmd] *)
Definition segment_of (cmd v : list string) : Prop := ∃ a b, cmd = a ++ v ++ b.

(** two states of the variables that agree on the PathList and the mode *)
Definition same_paths (st st' : shell) : Prop :=
  path st = path st' ∧ path_flag st = path_flag st'.

(** two continuations that launch the same programs from such states *)
Definition alike (k k' : cont) : Prop :=
  ∀ r r' st st', same_paths st st' → launches (k r st) = launches (k' r' st').

(** no line that [fgets] will read from [stdin] has [exit] as its first token *)
Inductive never_exits : string → Prop :=
| never_exits_eof : never_exits EmptyString
| never_exits_line stdin line rest toks :
    legacy.fgets legacy.MAX_INPUT stdin = Some (line, rest) →
    tokenization delim line toks → head toks ≠ Some "exit" →
    never_exits rest → never_exits stdin.

(** the command line has no [--path] *)
Definition no_long_path (opts : list startup.found) : Prop :=
  Forall (λ f, ∀ a, f ≠ startup.Long 0 a) opts.

(** The programs of a command: the vector before each pipe operator, then
    the vector before the first redirection operator (what follows it names
    a file) or, without one, the last vector. *)
Fixpoint programs_of (cmd : list string) : list (list string) :=
  match cmd with
  | [] => [[]]
  | c :: rest =>
    if libc.strcmp c "|" then [] :: programs_of rest
    else if is_operator c then [[]]
    else match programs_of rest with
         | prog :: progs => (c :: prog) :: progs
         | [] => [[c]]
         end
  end.

(** as [calm], but no file can be opened *)
Definition unwritable : world :=
  {| succeeds := λ c, match c with sys_open _ _ _ => false | _ => true end;
     execvp := λ _ _, Replaced;
     image_end := λ _ _, Exited 0;
     crash_end := Signaled 11;
     getcwd := "/";
     HOME := Some "/root" |}.

(** [w] with other ends for the programs it runs and for the processes that
    crash *)
Definition ending (w : world) (image_end' : option string → list string → wstatus)
    (crash_end' : wstatus) : world :=
  {| succeeds := succeeds w;
     execvp := execvp w;
     image_end := image_end';
     crash_end := crash_end';
     getcwd := getcwd w;
     HOME := HOME w |}.


(** a line of a path file: no newline in it, and it fits a buffer with its
    newline *)
Definition path_line (l : string) : Prop :=
  chars_all (λ c, c ≠ "010"%char) l ∧ String.length l + 2 ≤ legacy.PATH_MAX.

(** the file that holds these lines *)
Fixpoint file_of (lines : list string) : string :=
  match lines with
  | [] => EmptyString
  | l :: lines' => l +:+ LF +:+ file_of lines'
  end.

(** * Properties *)

(** ** Strings *)

Lemma strchr_delimiter delim c : libc.strchr delim c = true ↔ delimiter delim c.
Proof.
  unfold delimiter. induction delim as [|d delim IH]; simpl.
  - split; [discriminate | tauto].
  - destruct (Ascii.eqb_spec d c) as [->|Hne].
    + split; auto.
    + rewrite IH. split; [auto | intros [?|?]; [congruence | assumption]].
Qed.

Lemma strchr_not_delimiter delim c : libc.strchr delim c = false ↔ ¬ delimiter delim c.
Proof.
  rewrite <- strchr_delimiter. destruct (libc.strchr delim c); split; congruence.
Qed.

Lemma string_app_cons c a b : String c a +:+ b = String c (a +:+ b).
Proof. reflexivity. Qed.

Lemma upto_advance n s : libc.upto n s +:+ libc.advance n s = s.
Proof.
  revert s. induction n as [|n IH]; intros [|c s]; simpl; try reflexivity.
  rewrite string_app_cons. f_equal. apply IH.
Qed.

Lemma advance_length n s : String.length (libc.advance n s) ≤ String.length s.
Proof.
  revert s. induction n as [|n IH]; intros [|c s]; simpl; try lia.
  specialize (IH s). lia.
Qed.

Lemma strspn_gap s delim :
  chars_all (delimiter delim) (libc.upto (libc.strspn s delim) s).
Proof.
  unfold chars_all. induction s as [|c s IH]; simpl; [constructor|].
  destruct (libc.strchr delim c) eqn:E; simpl; constructor; auto.
  now apply strchr_delimiter.
Qed.

Lemma strspn_stops s delim :
  match libc.advance (libc.strspn s delim) s with
  | EmptyString => True
  | String c _ => ¬ delimiter delim c
  end.
Proof.
  induction s as [|c s IH]; simpl; [exact I|].
  destruct (libc.strchr delim c) eqn:E; simpl; [exact IH|].
  now apply strchr_not_delimiter.
Qed.

Lemma strcspn_token s delim :
  chars_all (λ c, ¬ delimiter delim c) (libc.upto (libc.strcspn s delim) s).
Proof.
  unfold chars_all. induction s as [|c s IH]; simpl; [constructor|].
  destruct (libc.strchr delim c) eqn:E; simpl; constructor; auto.
  now apply strchr_not_delimiter.
Qed.

Lemma strcspn_stops s delim :
  match libc.advance (libc.strcspn s delim) s with
  | EmptyString => True
  | String c _ => delimiter delim c
  end.
Proof.
  induction s as [|c s IH]; simpl; [exact I|].
  destruct (libc.strchr delim c) eqn:E; simpl; [|exact IH].
  now apply strchr_delimiter.
Qed.

Lemma string_app_length a b :
  String.length (a +:+ b) = String.length a + String.length b.
Proof.
  induction a as [|x a IH]; [reflexivity|].
  rewrite string_app_cons. simpl. now rewrite IH.
Qed.

Lemma string_app_assoc a b c : (a +:+ b) +:+ c = a +:+ b +:+ c.
Proof.
  induction a as [|x a IH]; [reflexivity|].
  rewrite !string_app_cons. now rewrite IH.
Qed.

Lemma string_app_nil_r a : a +:+ EmptyString = a.
Proof.
  induction a as [|x a IH]; [reflexivity|].
  rewrite string_app_cons. now rewrite IH.
Qed.

(** What one call of [strtok_r] does. *)
Lemma strtok_r_none s delim save :
  libc.strtok_r s delim = (None, save) → chars_all (delimiter delim) s.
Proof.
  unfold libc.strtok_r. destruct s as [|c s]; [intros _; constructor|].
  pose proof (strspn_gap (String c s) delim) as Hgap.
  pose proof (upto_advance (libc.strspn (String c s) delim) (String c s)) as Hsplit.
  destruct (libc.advance (libc.strspn (String c s) delim) (String c s)) as [|c1 s1] eqn:E.
  - intros _. rewrite string_app_nil_r in Hsplit. now rewrite Hsplit in Hgap.
  - destruct (libc.advance _ (String c1 s1)); discriminate.
Qed.

Lemma strtok_r_some s delim tok save :
  libc.strtok_r s delim = (Some tok, save) →
  ∃ gap, chars_all (delimiter delim) gap ∧ tok ≠ EmptyString ∧
         chars_all (λ c, ¬ delimiter delim c) tok ∧
         String.length save < String.length s ∧
         ((save = EmptyString ∧ s = gap +:+ tok) ∨
          (∃ d, delimiter delim d ∧ s = gap +:+ tok +:+ String d save)).
Proof.
  unfold libc.strtok_r. destruct s as [|c s]; [discriminate|].
  pose proof (strspn_gap (String c s) delim) as Hgap.
  pose proof (upto_advance (libc.strspn (String c s) delim) (String c s)) as Hsplit.
  pose proof (strspn_stops (String c s) delim) as Hstop.
  set (gap := libc.upto (libc.strspn (String c s) delim) (String c s)) in *.
  destruct (libc.advance (libc.strspn (String c s) delim) (String c s))
    as [|c1 s1] eqn:E; [discriminate|].
  pose proof (strcspn_token (String c1 s1) delim) as Htok.
  pose proof (upto_advance (libc.strcspn (String c1 s1) delim) (String c1 s1)) as Hsplit1.
  pose proof (strcspn_stops (String c1 s1) delim) as Hstop1.
  assert (Hne : libc.upto (libc.strcspn (String c1 s1) delim) (String c1 s1) ≠ EmptyString).
  { simpl. apply strchr_not_delimiter in Hstop. now rewrite Hstop. }
  assert (Hlen : String.length (String c s) =
                 String.length gap + String.length (String c1 s1)).
  { rewrite <- Hsplit at 1. apply string_app_length. }
  set (tok1 := libc.upto (libc.strcspn (String c1 s1) delim) (String c1 s1)) in *.
  assert (Hlen1 : String.length (String c1 s1) =
                  String.length tok1 +
                  String.length (libc.advance (libc.strcspn (String c1 s1) delim) (String c1 s1))).
  { rewrite <- Hsplit1 at 1. apply string_app_length. }
  assert (Hpos : 0 < String.length tok1).
  { destruct tok1; [congruence | simpl; lia]. }

  destruct (libc.advance (libc.strcspn (String c1 s1) delim) (String c1 s1))
    as [|d rest] eqn:E1; intros [= <- <-]; exists gap; repeat split; auto.
  - simpl. lia.
  - left. split; [reflexivity|]. rewrite string_app_nil_r in Hsplit1.
    now rewrite Hsplit1.
  - simpl in Hlen, Hlen1 |- *. lia.
  - right. exists d. split; [assumption|]. now rewrite Hsplit1.
Qed.

(** ** Heap blocks *)

Lemma length_malloc n : length (malloc n) = n.
Proof. apply length_replicate. Qed.

Lemma length_realloc b n : length (realloc b n) = n.
Proof.
  unfold realloc. rewrite length_app, length_take, length_replicate. lia.
Qed.

Lemma take_realloc b n m : m ≤ n → m ≤ length b → take m (realloc b n) = take m b.
Proof.
  intros Hn Hb. unfold realloc.
  rewrite take_app_le by (rewrite length_take; lia).
  rewrite take_take. f_equal. lia.
Qed.

Lemma store_ok b i p : i < length b → store b i p = Ok (<[i := p]> b).
Proof.
  intros H. unfold store. now apply Nat.ltb_lt in H as ->.
Qed.

Lemma store_undefined b i p : length b ≤ i → store b i p = Undefined.
Proof.
  intros H. unfold store. now apply Nat.ltb_ge in H as ->.
Qed.

Lemma take_store_next (b : block) i p :
  i < length b → take (S i) (<[i := p]> b) = take i b ++ [p].
Proof.
  intros H. rewrite insert_take_drop by assumption.
  rewrite take_app_ge by (rewrite length_take; lia).
  rewrite length_take, Nat.min_l by lia.
  replace (S i - i) with 1 by lia. reflexivity.
Qed.

Lemma argv_of_vector (v : list string) (b : block) :
  argv_of ((Some <$> v) ++ None :: b) = v.
Proof. induction v as [|s v IH]; simpl; [reflexivity | now f_equal]. Qed.

Lemma argv_of_block_of v : argv_of (block_of v) = v.
Proof. apply argv_of_vector. Qed.

(** A block whose first [n] slots hold [v] and whose slot [n] holds NULL
    denotes [v]. *)
Lemma argv_of_terminated (b : block) (v : list string) :
  take (length v) b = Some <$> v → b !! length v = Some None → argv_of b = v.
Proof.
  intros Htake Hnull.
  rewrite <- (take_drop (length v) b), Htake.
  destruct (drop (length v) b) as [|p rest] eqn:E.
  - apply (f_equal (λ l, l !! 0)) in E. rewrite lookup_drop, Nat.add_0_r in E.
    rewrite Hnull in E. discriminate.
  - apply (f_equal (λ l, l !! 0)) in E. rewrite lookup_drop, Nat.add_0_r in E.
    rewrite Hnull in E. injection E as <-. apply argv_of_vector.
Qed.

(** ** Tokenizer *)

Lemma tokenization_after_delimiter delim d s toks :
  delimiter delim d → tokenization delim s toks →
  tokenization delim (String d s) toks.
Proof.
  intros Hd H. destruct H as [gap Hgap | gap tok rest toks Hgap Hne Htok Hrest H].
  - constructor. constructor; assumption.
  - change (String d (gap +:+ tok +:+ rest)) with (String d gap +:+ tok +:+ rest).
    constructor; try assumption. constructor; assumption.
Qed.

(** The loop stays inside its block and collects the tokens of [context]. *)
Lemma tokenizer_loop_spec delim fuel : ∀ context tokens tok_used capacity acc,
  String.length context < fuel →
  length tokens = capacity → tok_used ≤ capacity → 0 < capacity →
  length acc = tok_used → take tok_used tokens = Some <$> acc →
  ∃ toks tokens',
    tokenizer_loop fuel context delim tokens tok_used capacity
      = Ok (tokens', tok_used + length toks) ∧
    tok_used + length toks ≤ length tokens' ∧
    take (tok_used + length toks) tokens' = Some <$> (acc ++ toks) ∧
    tokenization delim context toks.
Proof.
  induction fuel as [|fuel IH]; intros context tokens tok_used capacity acc
    Hfuel Hlen Hused Hcap Hacc Htake; [lia|].
  simpl. destruct (libc.strtok_r context delim) as [[tok|] context'] eqn:E.
  - apply strtok_r_some in E as (gap & Hgap & Hne & Htok & Hshort & Hshape).
    set (grown := if tok_used =? capacity
                  then (realloc tokens (capacity * 2), capacity * 2)
                  else (tokens, capacity)).
    assert (Hg : length grown.1 = grown.2 ∧ tok_used < grown.2 ∧
                 take tok_used grown.1 = Some <$> acc).
    { subst grown. destruct (Nat.eqb_spec tok_used capacity) as [->|Hne']; simpl.
      - rewrite length_realloc. split; [reflexivity|]. split; [lia|].
        rewrite take_realloc by lia. assumption.
      - split; [assumption|]. split; [lia | assumption]. }
    destruct grown as [tokens1 capacity1]. simpl in Hg.
    destruct Hg as (Hlen1 & Hlt & Htake1).
    rewrite store_ok by lia. simpl.
    destruct (IH context' (<[tok_used := Some tok]> tokens1) (S tok_used) capacity1
                (acc ++ [tok])) as (toks & tokens' & Hrun & Hfit & Hres & Hspec).
    + lia.
    + rewrite length_insert. assumption.
    + lia.
    + lia.
    + rewrite length_app. simpl. lia.
    + rewrite take_store_next by lia. rewrite Htake1, fmap_app. reflexivity.
    + exists (tok :: toks), tokens'. simpl.
      replace (tok_used + S (length toks)) with (S tok_used + length toks) by lia.
      split; [assumption|]. split; [assumption|].
      split; [now rewrite <- app_assoc in Hres|].
      destruct Hshape as [[-> ->] | (d & Hd & ->)].
      * inversion Hspec as [gap' Hgap' | ]; subst.
        -- rewrite <- (string_app_nil_r tok) at 1.
           constructor; auto.
        -- exfalso. destruct gap0; destruct tok0; try discriminate; congruence.
      * constructor; auto.
        -- right. eauto.
        -- now apply tokenization_after_delimiter.
  - exists [], tokens. rewrite Nat.add_0_r, app_nil_r.
    split; [reflexivity|]. split; [lia|]. split; [assumption|].
    constructor. eapply strtok_r_none; eassumption.
Qed.

Lemma tokenization_nil_length delim s toks :
  tokenization delim s toks → chars_all (delimiter delim) s → toks = [].
Proof.
  intros H Hall. destruct H as [|gap tok rest toks Hgap Hne Htok Hrest H];
    [reflexivity|].
  exfalso. unfold chars_all in *.
  assert (Happ : ∀ a b, list_ascii_of_string (a +:+ b) =
                        list_ascii_of_string a ++ list_ascii_of_string b).
  { intros a b. induction a as [|x a IHa]; [reflexivity|].
    rewrite string_app_cons. simpl. now rewrite IHa. }
  rewrite !Happ in Hall.
  apply Forall_app in Hall as [_ Hall]. apply Forall_app in Hall as [Hall _].
  destruct tok as [|c tok]; [congruence|].
  simpl in Hall, Htok. inversion Hall; inversion Htok; subst. contradiction.
Qed.

(** The tokenizer returns, and what it hands back is the tokenization. *)
Lemma tokenizer_spec input delim tok_num :
  ∃ toks, tokenizer input delim tok_num = Ok (handed_back toks) ∧
          tokenization delim input toks.
Proof.
  unfold tokenizer.
  set (capacity := if 0 <? tok_num then tok_num / TOKEN_FACTOR_HEURISTIC + 1
                   else DEFAULT_TOKENS_CAPACITY).
  assert (Hcap : 0 < capacity).
  { subst capacity. destruct (0 <? tok_num); [lia | unfold DEFAULT_TOKENS_CAPACITY; lia]. }
  destruct (tokenizer_loop_spec delim (S (String.length input)) input
              (malloc capacity) 0 capacity [])
    as (toks & tokens' & Hrun & Hfit & Hres & Hspec); try (simpl; lia).
  { apply length_malloc. }
  { reflexivity. }
  exists toks. split; [|assumption].
  rewrite Hrun. simpl in *. destruct toks as [|tok toks]; [reflexivity|].
  simpl length in *. simpl.
  rewrite store_ok by (rewrite length_realloc; lia). simpl.
  do 3 f_equal. unfold block_of.
  rewrite insert_take_drop by (rewrite length_realloc; lia).
  rewrite take_realloc by lia.
  rewrite drop_ge by (rewrite length_realloc; lia).
  rewrite Hres. reflexivity.
Qed.

(** ** Feature classifier *)

Lemma is_operator_spec c : is_operator c = true ↔ operator c.
Proof.
  unfold is_operator, operator, libc.strcmp.
  destruct (String.eqb_spec c "|") as [->|H1]; [tauto|].
  destruct (String.eqb_spec c ">") as [->|H2]; [tauto|].
  destruct (String.eqb_spec c ">>") as [->|H3]; [tauto|].
  simpl. split; [discriminate | tauto].
Qed.

Lemma is_operator_false c : is_operator c = false ↔ ¬ operator c.
Proof.
  rewrite <- is_operator_spec. destruct (is_operator c); split; congruence.
Qed.

Lemma is_special_feature_plain cmd :
  Forall (λ c, ¬ operator c) cmd → is_special_feature cmd = 0%Z.
Proof.
  induction 1 as [|c cmd Hc _ IH]; [reflexivity|].
  simpl. unfold libc.strcmp, operator in *.
  destruct (String.eqb_spec c ">>"); [tauto|].
  destruct (String.eqb_spec c ">"); [tauto|].
  destruct (String.eqb_spec c "|"); [tauto|]. exact IH.
Qed.

Lemma is_special_feature_skip pre rest :
  Forall (λ c, ¬ operator c) pre →
  is_special_feature (pre ++ rest) = is_special_feature rest.
Proof.
  induction 1 as [|c pre Hc _ IH]; [reflexivity|].
  simpl. unfold libc.strcmp, operator in *.
  destruct (String.eqb_spec c ">>"); [tauto|].
  destruct (String.eqb_spec c ">"); [tauto|].
  destruct (String.eqb_spec c "|"); [tauto|]. exact IH.
Qed.

Lemma is_special_feature_range cmd :
  (0 ≤ is_special_feature cmd ≤ 3)%Z.
Proof.
  induction cmd as [|c cmd IH]; simpl; [lia|].
  repeat destruct (libc.strcmp c _); lia.
Qed.

(** C4: the classifier returns 0 (None) when no token is an operator, and
    otherwise the code of the leftmost token that is one: 1 (Append) for
    [">>"], 2 (Overwrite) for [">"], 3 (Pipe) for ["|"].  It is a function of
    the vector alone.  The three examples of the specification hold. *)
Theorem is_special_feature_leftmost_operator :
  (∀ cmd, Forall (λ c, c ≠ ">>" ∧ c ≠ ">" ∧ c ≠ "|") cmd →
          is_special_feature cmd = 0%Z) ∧
  (∀ pre op post, Forall (λ c, c ≠ ">>" ∧ c ≠ ">" ∧ c ≠ "|") pre →
     (op = ">>" → is_special_feature (pre ++ op :: post) = 1%Z) ∧
     (op = ">" → is_special_feature (pre ++ op :: post) = 2%Z) ∧
     (op = "|" → is_special_feature (pre ++ op :: post) = 3%Z)) ∧
  is_special_feature ["ls"; "-la"] = 0%Z ∧
  is_special_feature ["a"; "|"; "b"] = 3%Z ∧
  is_special_feature ["a"; ">>"; "f"] = 1%Z.
Proof.
  assert (Hplain : ∀ l, Forall (λ c, c ≠ ">>" ∧ c ≠ ">" ∧ c ≠ "|") l →
                        Forall (λ c, ¬ operator c) l).
  { intros l Hl. eapply Forall_impl; [exact Hl|]. unfold operator. tauto. }
  split; [|split; [|repeat split]].
  - intros cmd H. apply is_special_feature_plain, Hplain, H.
  - intros pre op post H.
    rewrite is_special_feature_skip by apply Hplain, H.
    repeat split; intros ->; reflexivity.
Qed.

Lemma is_special_feature_leftmost_operator_witness :
  Forall (λ c, c ≠ ">>" ∧ c ≠ ">" ∧ c ≠ "|") ["grep"; "-i"; "x"] ∧
  is_special_feature (["grep"; "-i"; "x"] ++ ">" :: ["out"; "|"; "wc"]) = 2%Z.
Proof.
  assert (H : Forall (λ c, c ≠ ">>" ∧ c ≠ ">" ∧ c ≠ "|") ["grep"; "-i"; "x"])
    by (repeat constructor; discriminate).
  split; [exact H|].
  exact (proj1 (proj2 (proj1 (proj2 is_special_feature_leftmost_operator)
                         ["grep"; "-i"; "x"] ">" ["out"; "|"; "wc"] H)) eq_refl).
Defined.

(** ** Pipeline splitter *)

Lemma head_loop_spec pre : ∀ op post j c head acc,
  Forall (λ t, ¬ operator t) pre → operator op →
  length head = c → j < c → length acc = j → take j head = Some <$> acc →
  ∃ c1 head',
    head_loop (pre ++ op :: post) j c head = Ok (post, c1, head') ∧
    argv_of head' = acc ++ pre ∧ length head' = c1 ∧
    (j + length pre < c → c1 = c) ∧
    (c ≤ j + length pre → 2 * c ≤ c1).
Proof.
  induction pre as [|t pre IH]; intros op post j c head acc Hpre Hop Hlen Hj Hacc Htake.
  - simpl. apply is_operator_spec in Hop as ->.
    rewrite store_ok by lia. simpl.
    exists c, (<[j := None]> head). split; [reflexivity|].
    rewrite app_nil_r, length_insert. repeat split; try lia.
    apply argv_of_terminated.
    + rewrite Hacc, take_insert_ge by lia. assumption.
    + rewrite Hacc. apply list_lookup_insert_eq. lia.
  - apply Forall_cons in Hpre as [Ht Hpre']. subst j. simpl.
    apply is_operator_false in Ht as ->.
    set (grown := if c - 1 <=? length acc
                  then (realloc head (c * 2), c * 2) else (head, c)).
    assert (Hg : length grown.1 = grown.2 ∧ S (length acc) < grown.2 + 0 ∧
                 take (length acc) grown.1 = Some <$> acc ∧
                 (S (length acc) < c → grown.2 = c) ∧
                 (c ≤ S (length acc) → grown.2 = 2 * c)).
    { subst grown. destruct (Nat.leb_spec (c - 1) (length acc)); simpl.
      - rewrite length_realloc, take_realloc by lia. repeat split; auto; lia.
      - repeat split; auto; lia. }
    destruct grown as [head1 c0]. simpl in Hg.
    destruct Hg as (Hlen1 & Hlt & Htake1 & Hsame & Hdouble).
    rewrite store_ok by lia. simpl.
    destruct (IH op post (S (length acc)) c0 (<[length acc := Some t]> head1)
                (acc ++ [t])) as (c1 & head' & Hrun & Hargv & Hlen' & Hkeep & Hgrow);
      try assumption; try lia.
    + rewrite length_insert. assumption.
    + rewrite length_app. simpl. lia.
    + rewrite take_store_next by lia. rewrite Htake1, fmap_app. reflexivity.
    + exists c1, head'. split; [assumption|].
      split; [now rewrite <- app_assoc in Hargv|]. split; [assumption|].
      split; intros H.
      * rewrite Hkeep; [apply Hsame|rewrite Hsame]; lia.
      * destruct (Nat.lt_ge_cases (S (length acc)) c) as [Hlt'|Hge].
        -- rewrite (Hsame Hlt') in *. apply Hgrow. lia.
        -- rewrite (Hdouble Hge) in *.
           destruct (Nat.lt_ge_cases (S (length acc) + length pre) (2 * c)).
           ++ rewrite Hkeep; lia.
           ++ specialize (Hgrow ltac:(lia)). lia.
Qed.

(** Whatever the capacity variable says, a tail that is returned is right. *)
Lemma tail_loop_sound post : ∀ k c tail acc tail',
  k < c → k ≤ length tail → length acc = k → take k tail = Some <$> acc →
  tail_loop post k c tail = Ok tail' → argv_of tail' = acc ++ post.
Proof.
  induction post as [|t post IH]; intros k c tail acc tail' Hk Hfit Hacc Htake.
  - simpl. unfold store. destruct (Nat.ltb_spec k (length tail)); [|discriminate].
    intros [= <-]. rewrite app_nil_r. apply argv_of_terminated.
    + rewrite Hacc, take_insert_ge by lia. assumption.
    + rewrite Hacc. apply list_lookup_insert_eq. lia.
  - simpl.
    set (grown := if c - 1 <=? k then (realloc tail (c * 2), c * 2) else (tail, c)).
    assert (Hg : S k < grown.2 + 0 ∧ k ≤ length grown.1 ∧
                 take k grown.1 = Some <$> acc).
    { subst grown. destruct (Nat.leb_spec (c - 1) k); simpl.
      - rewrite length_realloc, take_realloc by lia. repeat split; auto; lia.
      - repeat split; auto; lia. }
    destruct grown as [tail1 c0]. simpl in Hg. destruct Hg as (Hlt & Hfit1 & Htake1).
    unfold store. destruct (Nat.ltb_spec k (length tail1)); [|discriminate].
    simpl. intros Hrun.
    rewrite (IH (S k) c0 (<[k := Some t]> tail1) (acc ++ [t]) tail'); try lia.
    + now rewrite <- app_assoc.
    + rewrite length_insert. lia.
    + rewrite length_app. simpl. lia.
    + rewrite take_store_next by lia. rewrite Htake1, fmap_app. reflexivity.
    + assumption.
Qed.

Lemma tail_loop_not_stuck post : ∀ k c tail, tail_loop post k c tail ≠ OutOfFuel.
Proof.
  induction post as [|t post IH]; intros k c tail; simpl.
  - unfold store. destruct (k <? length tail); discriminate.
  - destruct (if c - 1 <=? k then _ else _) as [tail1 c0].
    unfold store. destruct (k <? length tail1); simpl; [apply IH | discriminate].
Qed.

(** The tail block is large enough when the capacity variable is its size... *)
Lemma tail_loop_synced post : ∀ k c tail,
  length tail = c → k < c → ∃ tail', tail_loop post k c tail = Ok tail'.
Proof.
  induction post as [|t post IH]; intros k c tail Hlen Hk; simpl.
  - rewrite store_ok by lia. eauto.
  - destruct (Nat.leb_spec (c - 1) k).
    + rewrite store_ok by (rewrite length_realloc; lia). simpl.
      apply IH; [rewrite length_insert, length_realloc|]; lia.
    + rewrite store_ok by lia. simpl.
      apply IH; [rewrite length_insert|]; lia.
Qed.

(** ... or when the tail is shorter than the block. *)
Lemma tail_loop_short post : ∀ k c tail,
  k + length post < length tail → length tail ≤ c →
  ∃ tail', tail_loop post k c tail = Ok tail'.
Proof.
  induction post as [|t post IH]; intros k c tail Hfit Hc; simpl in *.
  - rewrite store_ok by lia. eauto.
  - destruct (Nat.leb_spec (c - 1) k).
    + rewrite store_ok by (rewrite length_realloc; lia). simpl.
      apply IH; rewrite length_insert, length_realloc; lia.
    + rewrite store_ok by lia. simpl.
      apply IH; rewrite length_insert; lia.
Qed.

(** The slip: the capacity variable grew for [head], the tail block did not. *)
Lemma tail_loop_overrun post : ∀ k c tail,
  2 ≤ length tail → 2 * length tail ≤ c → k ≤ length tail →
  length tail ≤ k + length post →
  tail_loop post k c tail = Undefined.
Proof.
  induction post as [|t post IH]; intros k c tail Hbig Hc Hk Hlong; simpl in *.
  - apply store_undefined. lia.
  - destruct (Nat.leb_spec (c - 1) k); [lia|].
    destruct (Nat.lt_ge_cases k (length tail)).
    + rewrite store_ok by lia. simpl.
      apply IH; rewrite length_insert; lia.
    + rewrite store_undefined by lia. reflexivity.
Qed.

(** The splitter never misses its loop bound; what it returns is the
    vector before the first operator and the vector after it. *)
Lemma splitter_sound pre op post num_cmd :
  Forall (λ t, ¬ operator t) pre → operator op →
  splitter (pre ++ op :: post) num_cmd = Undefined ∨
  ∃ head tail, splitter (pre ++ op :: post) num_cmd = Ok (head, tail) ∧
               argv_of head = pre ∧ argv_of tail = post.
Proof.
  intros Hpre Hop. unfold splitter.
  set (c := if 0 <? num_cmd then num_cmd / 2 + 1 else DEFAULT_TOKENS_CAPACITY).
  assert (Hc : 0 < c).
  { subst c. unfold DEFAULT_TOKENS_CAPACITY. destruct (0 <? num_cmd); lia. }
  destruct (head_loop_spec pre op post 0 c (malloc c) [] Hpre Hop)
    as (c1 & head' & Hrun & Hargv & Hlen' & Hkeep & Hgrow);
    [apply length_malloc | lia | reflexivity | reflexivity |].
  rewrite Hrun. simpl.
  destruct (tail_loop post 0 c1 (malloc c)) as [tail'| |] eqn:E; simpl.
  - right. exists head', tail'. split; [reflexivity|]. split; [assumption|].
    apply (tail_loop_sound post 0 c1 (malloc c) [] tail'); auto; try lia.
  - now left.
  - now apply tail_loop_not_stuck in E.
Qed.

(** With the number of tokens the dispatcher passes, nothing is overrun. *)
Lemma splitter_counted pre op post :
  Forall (λ t, ¬ operator t) pre → operator op →
  ∃ head tail,
    splitter (pre ++ op :: post) (length (pre ++ op :: post)) = Ok (head, tail) ∧
    argv_of head = pre ∧ argv_of tail = post.
Proof.
  intros Hpre Hop.
  destruct (splitter_sound pre op post (length (pre ++ op :: post)) Hpre Hop)
    as [Hbad|]; [exfalso | assumption].
  revert Hbad. unfold splitter. rewrite length_app. simpl length.
  set (n := length pre + S (length post)).
  replace (0 <? n) with true by (symmetry; apply Nat.ltb_lt; lia).
  pose proof (Nat.div_mod_eq n 2) as Hdiv.
  pose proof (Nat.mod_upper_bound n 2 ltac:(lia)) as Hmod.
  remember (n / 2 + 1) as c eqn:Hc.
  destruct (head_loop_spec pre op post 0 c (malloc c) [] Hpre Hop)
    as (c1 & head' & Hrun & Hargv & Hlen' & Hkeep & Hgrow);
    [apply length_malloc | lia | reflexivity | reflexivity |].
  rewrite Hrun. simpl.
  destruct (Nat.lt_ge_cases (length pre) c) as [Hshort|Hlong].
  - rewrite Hkeep by lia.
    destruct (tail_loop_synced post 0 c (malloc c))
      as [tail' ->]; [apply length_malloc | lia | discriminate].
  - specialize (Hgrow ltac:(lia)).
    destruct (tail_loop_short post 0 c1 (malloc c))
      as [tail' ->]; rewrite ?length_malloc; [lia | lia | discriminate].
Qed.

(** With the count 0 the pipe handler passes, the tail block is overrun
    exactly when both sides have three tokens or more. *)
Lemma splitter_uncounted pre op post :
  Forall (λ t, ¬ operator t) pre → operator op →
  splitter (pre ++ op :: post) 0 = Undefined ↔ 3 ≤ length pre ∧ 3 ≤ length post.
Proof.
  intros Hpre Hop. unfold splitter. simpl (if 0 <? 0 then _ else _).
  unfold DEFAULT_TOKENS_CAPACITY.
  destruct (head_loop_spec pre op post 0 3 (malloc 3) [] Hpre Hop)
    as (c1 & head' & Hrun & Hargv & Hlen' & Hkeep & Hgrow);
    [apply length_malloc | lia | reflexivity | reflexivity |].
  rewrite Hrun. simpl.
  destruct (Nat.lt_ge_cases (length pre) 3) as [Hshort|Hlong].
  - rewrite Hkeep by lia.
    destruct (tail_loop_synced post 0 3 (malloc 3)) as [tail' ->];
      [apply length_malloc | lia |].
    simpl. split; [discriminate | lia].
  - specialize (Hgrow ltac:(lia)).
    destruct (Nat.lt_ge_cases (length post) 3) as [Hfew|Hmany].
    + destruct (tail_loop_short post 0 c1 (malloc 3)) as [tail' ->];
        rewrite ?length_malloc; try lia.
      simpl. split; [discriminate | lia].
    + rewrite tail_loop_overrun; rewrite ?length_malloc; try lia.
      simpl. split; [lia | reflexivity].
Qed.

Lemma head_loop_plain cmd : ∀ j c head,
  Forall (λ t, ¬ operator t) cmd → head_loop cmd j c head = Undefined.
Proof.
  induction cmd as [|t cmd IH]; intros j c head Hcmd; [reflexivity|].
  apply Forall_cons in Hcmd as [Ht Hcmd]. simpl.
  apply is_operator_false in Ht as ->.
  destruct (if c - 1 <=? j then _ else _) as [head1 c0].
  unfold store. destruct (j <? length head1); simpl; [now apply IH | reflexivity].
Qed.

(** Every command is free of operators or has a first one. *)
Lemma first_operator cmd :
  Forall (λ t, ¬ operator t) cmd ∨
  ∃ pre op post, cmd = pre ++ op :: post ∧
                 Forall (λ t, ¬ operator t) pre ∧ operator op.
Proof.
  induction cmd as [|t cmd IH]; [left; constructor|].
  destruct (is_operator t) eqn:E.
  - right. exists [], t, cmd. split; [reflexivity|].
    split; [constructor | now apply is_operator_spec].
  - apply is_operator_false in E. destruct IH as [IH | (pre & op & post & -> & Hpre & Hop)].
    + left. now constructor.
    + right. exists (t :: pre), op, post. split; [reflexivity|].
      split; [now constructor | assumption].
Qed.

(** The tail is shorter than the command: the recursion of the handlers
    ends. *)
Lemma splitter_shorter cmd num_cmd head tail :
  splitter cmd num_cmd = Ok (head, tail) → length (argv_of tail) < length cmd.
Proof.
  destruct (first_operator cmd) as [Hplain | (pre & op & post & -> & Hpre & Hop)].
  - unfold splitter. rewrite head_loop_plain by assumption. discriminate.
  - destruct (splitter_sound pre op post num_cmd Hpre Hop)
      as [-> | (head' & tail' & -> & _ & Htail)]; [discriminate|].
    intros [= <- <-]. rewrite Htail, length_app. simpl. lia.
Qed.

(** ** Runs *)

Lemma all_fates_fate_of P r : all_fates P r → P (fate_of r).
Proof. induction r; simpl; tauto. Qed.

Section Runs.

Variable w : world.
Variable P : fate → Prop.

Lemma all_fates_sys c ok failed :
  all_fates P ok → all_fates P failed → all_fates P (sys w c ok failed).
Proof. unfold sys. destruct (succeeds w c); simpl; tauto. Qed.

Lemma all_fates_verbose st s r : all_fates P r → all_fates P (verbose st s r).
Proof. unfold verbose. destruct (verbose_flag st); simpl; tauto. Qed.

Lemma all_fates_close_noting d r :
  all_fates P r → all_fates P (close_noting w d r).
Proof. intros H. apply all_fates_sys; simpl; assumption. Qed.

Lemma all_fates_drop_saved_stdout st k :
  (∀ st', path_flag st' = path_flag st → all_fates P (k st')) →
  all_fates P (drop_saved_stdout w st k).
Proof.
  intros H. unfold drop_saved_stdout.
  destruct (verbose_flag st && stdout_flag st); simpl; now apply H.
Qed.

Lemma all_fates_summary st status r : all_fates P r → all_fates P (summary st status r).
Proof. unfold summary. destruct (verbose_flag st); simpl; tauto. Qed.

Hypothesis P_image : ∀ file argv, P (Image file argv).

Lemma all_fates_exec_path_loop cmd dirs : ∀ i st k,
  P Fault → (∀ r st', all_fates P (k r st')) →
  all_fates P (exec_path_loop w cmd dirs i st k).
Proof.
  induction dirs as [|dir dirs IH]; intros i st k Hfault Hk; simpl; [apply Hk|].
  destruct (cmd !! 0); [|exact Hfault].
  apply all_fates_drop_saved_stdout. intros st' _.
  destruct (execvp w _ cmd) as [|r errno]; simpl; [apply P_image|].
  destruct (r =? -1)%Z; simpl; [apply Hk | now apply IH].
Qed.

(** The launcher faults in configured-path mode only (on an empty vector):
    [P] holds of [Fault], or the mode is the environment's. *)
Lemma all_fates_exec cmd st k :
  P Fault ∨ path_flag st = false →
  (∀ r st', all_fates P (k r st')) → all_fates P (exec w cmd st k).
Proof.
  intros Hsafe Hk. unfold exec. destruct (path_flag st) eqn:Hflag; simpl.
  - destruct Hsafe as [Hfault|]; [|discriminate].
    apply all_fates_drop_saved_stdout. intros st' _.
    now apply all_fates_exec_path_loop.
  - apply all_fates_drop_saved_stdout. intros st' _.
    destruct (execvp w _ cmd) as [|r errno]; simpl; [apply P_image|].
    destruct (r =? -1)%Z; [|apply Hk].
    destruct (errno =? ENOENT)%Z; simpl; apply all_fates_verbose, Hk.
Qed.

(** one step through the text of a handler *)
Ltac fates :=
  repeat first
    [ apply all_fates_sys
    | apply all_fates_verbose
    | apply all_fates_close_noting
    | apply all_fates_exec; [assumption | intros ? ?]
    | match goal with
      | H : ∀ r st, all_fates P (_ r st) |- all_fates P (_ _ _) => apply H
      | |- all_fates P (Forked _ _) => split
      | |- all_fates P (Ev _ _) => change (all_fates P (Ev ?e ?r)) with (all_fates P r)
      | |- all_fates P (if ?b then _ else _) => destruct b
      | |- all_fates P ((if ?b then _ else _) _) => destruct b
      | |- all_fates P (id _) => unfold id
      end
    | progress cbn beta ].

Lemma all_fates_redirect flag how head tail st k :
  P Fault ∨ path_flag st = false →
  (∀ r st', all_fates P (k r st')) →
  all_fates P (redirect w flag how head tail st k).
Proof. intros Hsafe Hk. unfold redirect. fates. Qed.

Lemma all_fates_overwrite_handle head tail st k :
  P Fault ∨ path_flag st = false →
  (∀ r st', all_fates P (k r st')) →
  all_fates P (overwrite_handle w head tail st k).
Proof. intros Hsafe Hk. now apply all_fates_verbose, all_fates_redirect. Qed.

Lemma all_fates_append_handle head tail st k :
  P Fault ∨ path_flag st = false →
  (∀ r st', all_fates P (k r st')) →
  all_fates P (append_handle w head tail st k).
Proof. intros Hsafe Hk. now apply all_fates_verbose, all_fates_redirect. Qed.

Lemma all_fates_pipe_handle_with special_command head tail st k :
  P Fault ∨ path_flag st = false →
  ((0 < is_special_feature tail)%Z →
   ∀ k', (∀ r st', all_fates P (k' r st')) →
         all_fates P (special_command tail 0 (is_special_feature tail) st k')) →
  (∀ r st', all_fates P (k r st')) →
  all_fates P (pipe_handle_with w special_command head tail st k).
Proof.
  intros Hsafe Hsc Hk. unfold pipe_handle_with.
  destruct (Z.ltb_spec 0 (is_special_feature tail)) as [Hop|_]; fates.
  apply Hsc; [assumption|]. intros r st'. fates.
Qed.

End Runs.

(** ** Enough fuel: the handlers return *)

Lemma special_command_stuck_free w fuel : ∀ cmd num_cmd type st k,
  length cmd < fuel → (∀ r st', stuck_free (k r st')) →
  stuck_free (special_command w fuel cmd num_cmd type st k).
Proof.
  unfold stuck_free.
  induction fuel as [|fuel IH]; intros cmd num_cmd type st k Hfuel Hk; [lia|].
  assert (Hsafe : Fault ≠ Stuck ∨ path_flag st = false) by (left; discriminate).
  simpl. destruct (splitter cmd num_cmd) as [[head tail]| |] eqn:E.
  - apply splitter_shorter in E.
    assert (Hpipe : all_fates (λ f, f ≠ Stuck)
              (pipe_handle_with w (special_command w fuel) (argv_of head)
                 (argv_of tail) st k)).
    { apply all_fates_pipe_handle_with; try assumption; [discriminate|].
      intros _ k' Hk'. apply IH; [lia | assumption]. }
    assert (Hover : all_fates (λ f, f ≠ Stuck)
              (overwrite_handle w (argv_of head) (argv_of tail) st k))
      by (apply all_fates_overwrite_handle; try assumption; discriminate).
    assert (Happ : all_fates (λ f, f ≠ Stuck)
              (append_handle w (argv_of head) (argv_of tail) st k))
      by (apply all_fates_append_handle; try assumption; discriminate).
    destruct type as [|[[q|q|]|[q|q|]|]|p]; simpl; auto.
  - simpl. discriminate.
  - pose proof (first_operator cmd) as [Hplain | (pre & op & post & -> & Hpre & Hop)].
    + unfold splitter in E. rewrite head_loop_plain in E by assumption. discriminate.
    + destruct (splitter_sound pre op post num_cmd Hpre Hop)
        as [H | (? & ? & H & _)]; rewrite H in E; discriminate.
Qed.

Lemma exec_dispatch_stuck_free w cmd num_cmd st k :
  (∀ r st', stuck_free (k r st')) →
  stuck_free (exec_dispatch w cmd num_cmd st k).
Proof.
  intros Hk. unfold exec_dispatch.
  set (leave := λ (status : Z) (_ : shell),
         Done (Exits (if (status =? -1)%Z then EXIT_FAILURE else EXIT_SUCCESS))).
  set (child := verbose st _ _).
  assert (Hchild : stuck_free child).
  { subst child. apply all_fates_verbose.
    destruct (0 <? is_special_feature cmd)%Z.
    - apply special_command_stuck_free; [lia|]. intros r st'. simpl. discriminate.
    - do 2 apply all_fates_verbose.
      apply all_fates_exec; try discriminate. left. discriminate. }
  apply all_fates_sys; simpl; [|apply Hk]. split; [assumption|].
  do 2 apply all_fates_verbose.
  assert (Hfate := all_fates_fate_of _ _ Hchild).
  unfold termination. destruct (fate_of child); try congruence;
    (apply all_fates_sys; simpl; [|apply Hk]);
    repeat match goal with |- all_fates _ (if ?b then _ else _) => destruct b end;
    simpl; apply Hk.
Qed.

Lemma from_handed_back toks : from_option argv_of [] (handed_back toks).1 = toks.
Proof. destruct toks; [reflexivity | apply argv_of_block_of]. Qed.

Lemma turn_stuck_free w cmds num_cmds st again :
  (∀ st', stuck_free (again st')) → stuck_free (turn w cmds num_cmds st again).
Proof.
  intros Hagain. unfold turn. destruct cmds as [|cmd0 cmds]; [apply Hagain|].
  assert (Hnext : ∀ r st', stuck_free (summary st' r (again st')))
    by (intros; apply all_fates_summary, Hagain).
  apply all_fates_verbose.
  repeat match goal with |- all_fates _ (if ?b then _ else _) => destruct b end;
    try apply Hnext.
  - simpl. discriminate.
  - unfold pwd_handle.
    repeat first [ apply all_fates_verbose | apply all_fates_sys | apply Hnext
                 | match goal with
                   | |- all_fates _ (if ?b then _ else _) => destruct b
                   | |- all_fates _ (Ev _ _) => simpl
                   end ].
  - unfold cd_handle.
    repeat first [ apply all_fates_verbose | apply all_fates_sys | apply Hnext
                 | match goal with
                   | |- all_fates _ (if ?b then _ else _) => destruct b
                   | |- all_fates _ (match ?b with Some _ => _ | None => _ end) => destruct b
                   | |- all_fates _ (Ev _ _) => simpl
                   end ].
  - apply exec_dispatch_stuck_free, Hnext.
Qed.

Lemma driver_loop_unfold w input stdin st :
  ∃ toks, tokenization delim input toks ∧
    driver_loop w (input :: stdin) st =
    Ev (Printf "tinysh> ") (turn w toks (length toks) st (driver_loop w stdin)).
Proof.
  destruct (tokenizer_spec input delim (String.length input)) as (toks & Hrun & Hspec).
  exists toks. split; [assumption|]. simpl. rewrite Hrun.
  pose proof (from_handed_back toks) as Hback.
  destruct (handed_back toks) as [cmds num_cmds] eqn:E. simpl in Hback. rewrite Hback.
  replace num_cmds with (length toks); [reflexivity|].
  destruct toks; injection E as <- <-; reflexivity.
Qed.

Lemma driver_loop_stuck_free w stdin : ∀ st, stuck_free (driver_loop w stdin st).
Proof.
  induction stdin as [|input stdin IH]; intros st.
  - simpl. apply all_fates_verbose. simpl. discriminate.
  - destruct (driver_loop_unfold w input stdin st) as (toks & _ & ->).
    simpl. apply turn_stuck_free, IH.
Qed.

(** ** The tokenization of a line is unique *)

Lemma chars_all_cons P c s : chars_all P (String c s) ↔ P c ∧ chars_all P s.
Proof. unfold chars_all. simpl. apply Forall_cons. Qed.

Lemma prefix_unique (P : ascii → Prop) a : ∀ a' b b',
  chars_all P a → chars_all P a' → stops P b → stops P b' →
  a +:+ b = a' +:+ b' → a = a' ∧ b = b'.
Proof.
  induction a as [|c a IH]; intros [|c' a'] b b' Ha Ha' Hb Hb' Heq.
  - split; [reflexivity | exact Heq].
  - exfalso. apply chars_all_cons in Ha' as [Hc _].
    change (b = String c' (a' +:+ b')) in Heq. subst b. exact (Hb Hc).
  - exfalso. apply chars_all_cons in Ha as [Hc _].
    change (String c (a +:+ b) = b') in Heq. subst b'. exact (Hb' Hc).
  - rewrite !string_app_cons in Heq. injection Heq as <- Heq.
    apply chars_all_cons in Ha as [_ Ha]. apply chars_all_cons in Ha' as [_ Ha'].
    destruct (IH a' b b' Ha Ha' Hb Hb' Heq) as [-> ->]. auto.
Qed.

Lemma stops_token delim tok rest :
  tok ≠ EmptyString → chars_all (λ c, ¬ delimiter delim c) tok →
  stops (delimiter delim) (tok +:+ rest).
Proof.
  destruct tok as [|c tok]; [congruence|]. intros _ H.
  apply chars_all_cons in H as [H _]. exact H.
Qed.

Lemma stops_rest delim rest :
  rest = EmptyString ∨ (∃ c rest', rest = String c rest' ∧ delimiter delim c) →
  stops (λ c, ¬ delimiter delim c) rest.
Proof. intros [-> | (c & rest' & -> & Hc)]; simpl; tauto. Qed.

Lemma tokenization_functional delim s toks :
  tokenization delim s toks → ∀ toks', tokenization delim s toks' → toks = toks'.
Proof.
  induction 1 as [gap Hgap | gap tok rest toks Hgap Hne Htok Hrest H IH];
    intros toks' H'.
  - symmetry. eapply tokenization_nil_length; eassumption.
  - inversion H' as [gap' Hgap' Heq | gap' tok' rest' toks1 Hgap' Hne' Htok' Hrest' H1 Heq];
      subst.
    + assert (Hnil : tok :: toks = []); [|discriminate].
      eapply tokenization_nil_length; [|exact Hgap'].
      now constructor.
    + destruct (prefix_unique (delimiter delim) gap' gap
                  (tok' +:+ rest') (tok +:+ rest)) as [-> Heq1];
        auto using stops_token.
      destruct (prefix_unique (λ c, ¬ delimiter delim c) tok' tok rest' rest)
        as [-> ->]; auto using stops_rest.
      f_equal. now apply IH.
Qed.

Lemma delimiter_space : delimiter delim " "%char.
Proof. left. reflexivity. Qed.

Lemma tokenization_example :
  tokenization delim "  ls  -la " ["ls"; "-la"].
Proof.
  apply (tokenization_token delim "  " "ls" "  -la " ["-la"]).
  - repeat constructor.
  - discriminate.
  - repeat constructor; intros [H|[H|[H|[]]]]; discriminate H.
  - right. exists " "%char, " -la ". split; [reflexivity | apply delimiter_space].
  - apply (tokenization_token delim "  " "-la" " " []).
    + repeat constructor.
    + discriminate.
    + repeat constructor; intros [H|[H|[H|[]]]]; discriminate H.
    + right. exists " "%char, "". split; [reflexivity | apply delimiter_space].
    + constructor. repeat constructor.
Qed.

(** C3: for every line the tokenizer returns, and hands back exactly the
    maximal substrings free of delimiters, in order (none left out: the
    tokenization of a line is unique); ["  ls  -la "] gives ["ls"; "-la"];
    a line of delimiters only gives NULL and the count 0, and the driver
    then prints the next prompt without forking. *)
Theorem tokenizer_maximal_substrings :
  (∀ input tok_num, ∃ toks, tokenizer input delim tok_num = Ok (handed_back toks)) ∧
  (∀ input tok_num toks,
     tokenization delim input toks →
     tokenizer input delim tok_num = Ok (handed_back toks)) ∧
  (∀ tok_num,
     tokenizer "  ls  -la " delim tok_num = Ok (Some [Some "ls"; Some "-la"; None], 2)) ∧
  (∀ input tok_num,
     chars_all (delimiter delim) input →
     tokenizer input delim tok_num = Ok (None, 0)) ∧
  (∀ w input stdin st,
     chars_all (delimiter delim) input →
     driver_loop w (input :: stdin) st =
       Ev (Printf "tinysh> ") (driver_loop w stdin st)).
Proof.
  assert (Hspec : ∀ input tok_num toks,
            tokenization delim input toks →
            tokenizer input delim tok_num = Ok (handed_back toks)).
  { intros input tok_num toks H.
    destruct (tokenizer_spec input delim tok_num) as (toks' & -> & H').
    now rewrite (tokenization_functional _ _ _ H _ H'). }
  refine (conj _ (conj Hspec (conj _ (conj _ _)))).
  - intros input tok_num.
    destruct (tokenizer_spec input delim tok_num) as (toks & H & _). eauto.
  - intros tok_num. apply (Hspec _ _ _ tokenization_example).
  - intros input tok_num H. apply (Hspec input tok_num []). now constructor.
  - intros w input stdin st H.
    destruct (driver_loop_unfold w input stdin st) as (toks & Htoks & ->).
    now rewrite (tokenization_nil_length _ _ _ Htoks H).
Qed.

Lemma tokenizer_maximal_substrings_witness :
  chars_all (delimiter delim) (" " +:+ LF) ∧
  driver_loop calm [" " +:+ LF; "ls" +:+ LF] brief =
    Ev (Printf "tinysh> ") (driver_loop calm ["ls" +:+ LF] brief).
Proof.
  assert (H : chars_all (delimiter delim) (" " +:+ LF)).
  { constructor; [left; reflexivity|].
    constructor; [right; right; left; reflexivity | constructor]. }
  split; [exact H|].
  exact (proj2 (proj2 (proj2 (proj2 tokenizer_maximal_substrings)))
           calm (" " +:+ LF) ["ls" +:+ LF] brief H).
Defined.

(** ** Dispatcher *)

Lemma sys_succeeds w c ok failed :
  succeeds w c = true → sys w c ok failed = Ev (Sys c true) ok.
Proof. intros H. unfold sys. now rewrite H. Qed.

Lemma sys_fails w c ok failed :
  succeeds w c = false → sys w c ok failed = Ev (Sys c false) failed.
Proof. intros H. unfold sys. now rewrite H. Qed.

(** The earlier dispatcher and what it calls never ask how a process
    ended. *)
Lemma legacy_exec_path_loop_ending w ie ce cmd dirs : ∀ i st,
  legacy.exec_path_loop (ending w ie ce) cmd dirs i st =
  legacy.exec_path_loop w cmd dirs i st.
Proof.
  induction dirs as [|dir dirs IH]; intros i st; simpl; [reflexivity|].
  destruct (_ || _); [reflexivity|].
  destruct (cmd !! 0); [|reflexivity].
  unfold drop_saved_stdout. simpl.
  destruct (verbose_flag st && stdout_flag st);
    destruct (execvp w _ cmd) as [|r errno]; try reflexivity;
    destruct (r =? -1)%Z; try reflexivity; now rewrite IH.
Qed.

Lemma legacy_exec_ending w ie ce cmd st :
  legacy.exec (ending w ie ce) cmd st = legacy.exec w cmd st.
Proof.
  unfold legacy.exec. destruct (negb (path_flag st)); [reflexivity|].
  apply legacy_exec_path_loop_ending.
Qed.

Lemma legacy_redirect_ending w ie ce over head tail st :
  legacy.redirect (ending w ie ce) over head tail st = legacy.redirect w over head tail st.
Proof.
  unfold legacy.redirect. cbn beta. rewrite !legacy_exec_ending. reflexivity.
Qed.

Lemma legacy_pipe_handle_with_ending w ie ce sc sc' head tail st :
  (∀ type st', sc tail (-1)%Z type st' = sc' tail (-1)%Z type st') →
  legacy.pipe_handle_with (ending w ie ce) sc head tail st =
  legacy.pipe_handle_with w sc' head tail st.
Proof.
  intros Hsc. unfold legacy.pipe_handle_with. cbn beta.
  rewrite !legacy_exec_ending, Hsc. reflexivity.
Qed.

Lemma legacy_special_command_ending w ie ce fuel : ∀ cmd num_cmd type st k,
  legacy.special_command (ending w ie ce) fuel cmd num_cmd type st k =
  legacy.special_command w fuel cmd num_cmd type st k.
Proof.
  induction fuel as [|fuel IH]; intros cmd num_cmd type st k; [reflexivity|].
  simpl. destruct (splitter cmd (Z.to_nat num_cmd)) as [[head tail]| |]; try reflexivity.
  destruct type as [|[[q|q|]|[q|q|]|]|p]; try reflexivity.
  - apply legacy_pipe_handle_with_ending. intros type st'. apply IH.
  - apply legacy_redirect_ending.
  - apply legacy_redirect_ending.
Qed.

Lemma legacy_exec_dispatch_ending w ie ce cmd num_cmd st k :
  legacy.exec_dispatch (ending w ie ce) cmd num_cmd st k =
  legacy.exec_dispatch w cmd num_cmd st k.
Proof.
  unfold legacy.exec_dispatch. cbn zeta.
  rewrite legacy_special_command_ending, legacy_exec_ending. reflexivity.
Qed.

(** C9 as the code has it.  In the later [tinysh.c], when the fork and the
    wait succeed, the dispatcher forks one child, waits for it, and maps its
    termination state: it returns EXIT_SUCCESS exactly for a normal exit with
    status zero; for a child killed by SIGINT or SIGQUIT it prints that the
    process was killed by the user and returns -1; for every other termination
    it returns -1 without that message.  The earlier [exec_dispatch] returns
    nothing: its parent waits for the child and goes on in the same way however
    the child ended, and nothing it does depends on how a process ends. *)
Theorem exec_dispatch_reports_termination w cmd num_cmd st :
  succeeds w sys_fork = true → succeeds w sys_wait = true →
  (∀ k, ∃ child status creating waiting verdict,
     termination w child = Some status ∧
     exec_dispatch w cmd num_cmd st k =
       Ev (Sys sys_fork true)
          (Forked child
             (verbose st creating (verbose st waiting
                (Ev (Sys sys_wait true) verdict)))) ∧
     (status = Exited 0 → verdict = k EXIT_SUCCESS st) ∧
     (status = Signaled SIGINT ∨ status = Signaled SIGQUIT →
        verdict =
          Ev (Printf ("Process executing a command was killed by the user." +:+ LF))
             (k (-1)%Z st)) ∧
     (status ≠ Exited 0 → status ≠ Signaled SIGINT → status ≠ Signaled SIGQUIT →
        verdict = k (-1)%Z st)) ∧
  (∀ num k,
     (∃ child creating waiting,
        legacy.exec_dispatch w cmd num st k =
          Ev (Sys sys_fork true)
             (Forked child
                (verbose st creating (verbose st waiting
                   (Ev (Sys sys_wait true) (k st)))))) ∧
     (∀ image_end' crash_end',
        legacy.exec_dispatch (ending w image_end' crash_end') cmd num st k =
        legacy.exec_dispatch w cmd num st k)).
Proof.
  intros Hfork Hwait. split.
  - intros k.
    pose proof (exec_dispatch_stuck_free w cmd num_cmd st (λ _ _, Done (Exits 0))) as Hfree.
    revert Hfree. unfold exec_dispatch. rewrite !(sys_succeeds w sys_fork) by assumption.
    set (child := verbose st _ _). intros Hfree.
    assert (Hchild : stuck_free child).
    { apply Hfree. intros; simpl; discriminate. }
    apply all_fates_fate_of in Hchild. clear Hfree.
    destruct (termination w child) as [status|] eqn:Hterm.
    + rewrite sys_succeeds by assumption.
      eexists child, status, _, _, _. split; [exact Hterm|]. split; [reflexivity|].
      split; [|split].
      * intros ->. reflexivity.
      * intros [-> | ->]; reflexivity.
      * intros H0 Hint Hquit. unfold EXIT_SUCCESS, SIGINT, SIGQUIT in *.
        destruct status as [code|sig]; simpl.
        -- destruct (Z.eqb_spec code 0) as [->|]; [congruence | reflexivity].
        -- destruct (Z.eqb_spec sig 2) as [->|]; [congruence|].
           destruct (Z.eqb_spec sig 3) as [->|]; [congruence | reflexivity].
    + unfold termination in Hterm. destruct (fate_of child); congruence.
  - intros num k. split.
    + unfold legacy.exec_dispatch.
      rewrite (sys_succeeds w sys_fork), (sys_succeeds w sys_wait) by assumption.
      eexists _, _, _. reflexivity.
    + intros ie ce. apply legacy_exec_dispatch_ending.
Qed.

Lemma exec_dispatch_reports_termination_witness :
  succeeds (killing SIGINT) sys_fork = true ∧
  succeeds (killing SIGINT) sys_wait = true ∧
  (∃ child status creating waiting verdict,
    termination (killing SIGINT) child = Some status ∧
    exec_dispatch (killing SIGINT) ["sleep"; "9"] 2 brief halt =
      Ev (Sys sys_fork true)
         (Forked child
            (verbose brief creating (verbose brief waiting
               (Ev (Sys sys_wait true) verdict)))) ∧
    (status = Exited 0 → verdict = halt EXIT_SUCCESS brief) ∧
    (status = Signaled SIGINT ∨ status = Signaled SIGQUIT →
       verdict =
         Ev (Printf ("Process executing a command was killed by the user." +:+ LF))
            (halt (-1)%Z brief)) ∧
    (status ≠ Exited 0 → status ≠ Signaled SIGINT → status ≠ Signaled SIGQUIT →
       verdict = halt (-1)%Z brief)) ∧
  legacy.exec_dispatch (ending (killing SIGINT) (λ _ _, Exited 0) (Signaled 11))
      ["sleep"; "9"] 2 brief (λ st, Done (Returns 0%Z st)) =
    legacy.exec_dispatch (killing SIGINT)
      ["sleep"; "9"] 2 brief (λ st, Done (Returns 0%Z st)).
Proof.
  split; [reflexivity|]. split; [reflexivity|].
  pose proof (exec_dispatch_reports_termination (killing SIGINT) ["sleep"; "9"] 2 brief
                eq_refl eq_refl) as [Hlater Hearlier].
  split; [exact (Hlater halt)|].
  exact (proj2 (Hearlier 2%Z (λ st, Done (Returns 0%Z st)))
           (λ _ _, Exited 0) (Signaled 11)).
Defined.

(** C9 as stated fails on the earlier [tinysh.c]: a program killed by
    SIGINT and a program that exits with 0 leave the shell's process doing the
    same, event for event; no result is kept and nothing is printed about the
    signal. *)
Lemma legacy_exec_dispatch_ignores_termination :
  termination (killing SIGINT) (legacy.exec (killing SIGINT) ["sleep"; "9"] brief)
    = Some (Signaled SIGINT) ∧
  termination calm (legacy.exec calm ["sleep"; "9"] brief) = Some (Exited 0) ∧
  (∀ k, legacy.exec_dispatch (killing SIGINT) ["sleep"; "9"] 2 brief k =
        legacy.exec_dispatch calm ["sleep"; "9"] 2 brief k) ∧
  (∀ k, legacy.exec_dispatch (killing SIGINT) ["sleep"; "9"] 2 brief k =
        Ev (Sys sys_fork true)
          (Forked
             (Ev (Execvp (Some "sleep") ["sleep"; "9"] Replaced)
                 (Done (Image (Some "sleep") ["sleep"; "9"])))
             (Ev (Sys sys_wait true) (k brief)))) ∧
  omap output_of
    (events (legacy.driver (killing SIGINT) 3 ("sleep 9" +:+ LF +:+ "exit" +:+ LF) brief)) =
    ["Using the path defined by your environment." +:+ LF; "tinysh> "; "tinysh> ";
     "Exiting now.  Thanks for using tinysh!" +:+ LF].
Proof. repeat split; reflexivity. Qed.

Example exec_dispatch_killed :
  exec_dispatch (killing SIGINT) ["sleep"; "9"] 2 brief halt =
  Ev (Sys sys_fork true)
    (Forked
       (Ev (Execvp (Some "sleep") ["sleep"; "9"] Replaced)
           (Done (Image (Some "sleep") ["sleep"; "9"])))
       (Ev (Sys sys_wait true)
          (Ev (Printf ("Process executing a command was killed by the user." +:+ LF))
              (Done (Returns (-1) brief))))).
Proof. reflexivity. Qed.

Example exec_dispatch_failed :
  exec_dispatch barren ["nosuch"] 1 brief halt =
  Ev (Sys sys_fork true)
    (Forked
       (Ev (Execvp (Some "nosuch") ["nosuch"] (Returned (-1) ENOENT))
           (Done (Exits EXIT_FAILURE)))
       (Ev (Sys sys_wait true) (Done (Returns (-1) brief)))).
Proof. reflexivity. Qed.

Example exec_dispatch_succeeded :
  exec_dispatch calm ["ls"] 1 brief halt =
  Ev (Sys sys_fork true)
    (Forked
       (Ev (Execvp (Some "ls") ["ls"] Replaced) (Done (Image (Some "ls") ["ls"])))
       (Ev (Sys sys_wait true) (Done (Returns EXIT_SUCCESS brief)))).
Proof. reflexivity. Qed.

(** ** Launcher *)

Lemma drop_saved_stdout_keeps w st k :
  ∃ st', path st' = path st ∧ path_flag st' = path_flag st ∧
         verbose_flag st' = verbose_flag st ∧
         (drop_saved_stdout w st k = k st' ∨
          ∃ ok, drop_saved_stdout w st k = Ev (Sys (sys_close saved_stdout) ok) (k st')).
Proof.
  unfold drop_saved_stdout. destruct (verbose_flag st && stdout_flag st).
  - exists (set_stdout_flag st false). repeat split. right. eauto.
  - exists st. repeat split. now left.
Qed.

(** C7: in configured-path mode the launcher forms its candidate from the
    first directory of the PathList and argv[0] and attempts the image
    replacement; when that attempt fails, whatever the error (a "not found"
    included), it reports the failure and returns -1: no later directory is
    tried. *)
Theorem exec_configured_path_stops_at_first_error w st dir dirs cmd0 args :
  path_flag st = true → path st = dir :: dirs →
  (execvp w (Some (dir +:+ cmd0)) (cmd0 :: args) = Replaced →
     launches (exec w (cmd0 :: args) st halt) = [(Some (dir +:+ cmd0), cmd0 :: args)] ∧
     fate_of (exec w (cmd0 :: args) st halt) = Image (Some (dir +:+ cmd0)) (cmd0 :: args)) ∧
  (∀ errno,
     execvp w (Some (dir +:+ cmd0)) (cmd0 :: args) = Returned (-1) errno →
     launches (exec w (cmd0 :: args) st halt) = [(Some (dir +:+ cmd0), cmd0 :: args)] ∧
     omap stderr_of (events (exec w (cmd0 :: args) st halt)) = ["Error executing program."] ∧
     ∃ st', fate_of (exec w (cmd0 :: args) st halt) = Returns (-1) st').
Proof.
  intros Hflag Hpath. unfold exec. rewrite Hflag. simpl.
  split; [intros Hrun | intros errno Hrun];
    destruct (verbose_flag st) eqn:Hv, (stdout_flag st) eqn:Ho;
    repeat (unfold drop_saved_stdout, libc.strcat; simpl;
            rewrite ?Hpath, ?Hv, ?Ho, ?Hrun; simpl); eauto.
Qed.

Lemma exec_configured_path_stops_at_first_error_witness :
  path_flag (configured ["/opt/bin/"; "/bin/"]) = true ∧
  path (configured ["/opt/bin/"; "/bin/"]) = "/opt/bin/" :: ["/bin/"] ∧
  execvp barren (Some ("/opt/bin/" +:+ "ls")) ["ls"; "-l"] = Returned (-1) ENOENT ∧
  launches (exec barren ["ls"; "-l"] (configured ["/opt/bin/"; "/bin/"]) halt)
    = [(Some "/opt/bin/ls", ["ls"; "-l"])].
Proof.
  split; [reflexivity|]. split; [reflexivity|]. split; [reflexivity|].
  exact (proj1 (proj2 (exec_configured_path_stops_at_first_error barren
                         (configured ["/opt/bin/"; "/bin/"]) "/opt/bin/" ["/bin/"]
                         "ls" ["-l"] eq_refl eq_refl) ENOENT eq_refl)).
Defined.

(** ** A program that is not found *)

Lemma turn_dispatches w cmd0 args num_cmds st again :
  ¬ builtin cmd0 →
  turn w (cmd0 :: args) num_cmds st again =
    verbose st LF
      (exec_dispatch w (cmd0 :: args) num_cmds st
         (λ status st', summary st' status (again st'))).
Proof.
  intros H. unfold turn, libc.strcmp, builtin in *.
  repeat match goal with
         | |- context [String.eqb cmd0 ?s] => destruct (String.eqb_spec cmd0 s); [tauto|]
         end.
  reflexivity.
Qed.

(** C8 as the code has it: in environment mode a program that is not found
    (execvp fails with ENOENT) makes the child exit with EXIT_FAILURE without
    any raw system error; the child prints that the name "is not a valid
    command or program" in verbose mode only, and nothing otherwise; any other
    errno is reported with perror.  The dispatcher returns -1 and the driver
    goes on to its summary and the next prompt. *)
Theorem missing_program_report w st prog args num_cmds again errno :
  path_flag st = false → is_special_feature (prog :: args) = 0%Z →
  ¬ builtin prog →
  succeeds w sys_fork = true → succeeds w sys_wait = true →
  execvp w (Some prog) (prog :: args) = Returned (-1) errno →
  ∃ child creating waiting,
    turn w (prog :: args) num_cmds st again =
      verbose st LF
        (Ev (Sys sys_fork true)
           (Forked child
              (verbose st creating (verbose st waiting
                 (Ev (Sys sys_wait true) (summary st (-1) (again st))))))) ∧
    fate_of child = Exits EXIT_FAILURE ∧
    omap stderr_of (events child) =
      (if (errno =? ENOENT)%Z then [] else ["Error executing program."]) ∧
    (verbose_flag st = false → omap stdout_of (events child) = []) ∧
    (verbose_flag st = true →
     last (omap stdout_of (events child)) =
       Some (prog +:+ " is not a valid command or program." +:+ LF +:+ LF)).
Proof.
  intros Hflag Hplain Hbuiltin Hfork Hwait Hrun.
  rewrite turn_dispatches by assumption.
  unfold exec_dispatch. rewrite (sys_succeeds w sys_fork) by assumption.
  rewrite Hplain. simpl (0 <? 0)%Z. cbv iota.
  unfold exec. rewrite Hflag. simpl negb. cbv iota.
  unfold drop_saved_stdout. simpl (_ !! 0). rewrite Hrun. simpl (_ =? _)%Z. cbv iota.
  unfold termination.
  destruct (verbose_flag st) eqn:Hv, (stdout_flag st) eqn:Ho,
           (errno =? ENOENT)%Z eqn:He;
    unfold verbose, set_stdout_flag; simpl; rewrite ?Hv; simpl;
    rewrite (sys_succeeds w sys_wait) by assumption;
    eexists _, ("Creating a child process to run the command: " +:+ prog +:+ LF),
      ("Parent:" +:+ LF +:+ "  Waiting for child process to terminate." +:+ LF);
    (split; [reflexivity|]); simpl; rewrite ?He;
    repeat split; try reflexivity; try discriminate.
Qed.

Lemma missing_program_report_witness :
  path_flag chatty = false ∧ is_special_feature ["nosuch"] = 0%Z ∧
  ¬ builtin "nosuch" ∧
  succeeds barren sys_fork = true ∧ succeeds barren sys_wait = true ∧
  execvp barren (Some "nosuch") ["nosuch"] = Returned (-1) ENOENT ∧
  ∃ child creating waiting,
    turn barren ["nosuch"] 1 chatty (driver_loop barren []) =
      verbose chatty LF
        (Ev (Sys sys_fork true)
           (Forked child
              (verbose chatty creating (verbose chatty waiting
                 (Ev (Sys sys_wait true)
                    (summary chatty (-1) (driver_loop barren [] chatty))))))) ∧
    fate_of child = Exits EXIT_FAILURE ∧
    omap stderr_of (events child) =
      (if (ENOENT =? ENOENT)%Z then [] else ["Error executing program."]) ∧
    (verbose_flag chatty = false → omap stdout_of (events child) = []) ∧
    (verbose_flag chatty = true →
     last (omap stdout_of (events child)) =
       Some ("nosuch" +:+ " is not a valid command or program." +:+ LF +:+ LF)).
Proof.
  assert (Hb : ¬ builtin "nosuch").
  { intros [H|[H|[H|[H|H]]]]; discriminate H. }
  split; [reflexivity|]. split; [reflexivity|]. split; [exact Hb|].
  split; [reflexivity|]. split; [reflexivity|]. split; [reflexivity|].
  exact (missing_program_report barren chatty "nosuch" [] 1 (driver_loop barren [])
           ENOENT eq_refl eq_refl Hb eq_refl eq_refl eq_refl).
Defined.

(** C8 as stated fails: in brief mode the shell writes nothing about a
    program that is not found; its whole output is two prompts and the
    farewell. *)
Lemma missing_program_prints_nothing_in_brief_mode :
  omap output_of (events (driver_loop barren ["nosuch" +:+ LF] brief)) =
    ["tinysh> "; "tinysh> "; "Exiting now.  Thanks for using tinysh!" +:+ LF] ∧
  launches (driver_loop barren ["nosuch" +:+ LF] brief) = [(Some "nosuch", ["nosuch"])].
Proof. split; reflexivity. Qed.

(** ** Redirection handlers

    What the handlers of both variants do with their tail is stated at the
    end of the file, after the lemmas on the programs a handler launches. *)


(** ** Vectors handed to the launcher *)

(** C10 fails on the code: for the line [| b] the splitter returns an empty
    head, and the pipe handler's child calls the launcher with it:
    [execvp (NULL, {NULL})]. *)
Theorem operator_first_line_launches_empty_vector :
  tokenizer ("| b" +:+ LF) delim 4 = Ok (handed_back ["|"; "b"]) ∧
  (∃ head tail, splitter ["|"; "b"] 2 = Ok (head, tail) ∧
                argv_of head = [] ∧ argv_of tail = ["b"]) ∧
  launches (driver_loop calm ["| b" +:+ LF] brief) = [(None, []); (Some "b", ["b"])].
Proof.
  split; [reflexivity|]. split; [|reflexivity].
  eexists _, _. split; [reflexivity|]. split; reflexivity.
Qed.

(** ** Counting processes and pipes *)

Lemma forkless_ev e r : is_pipe e = false → forkless r → forkless (Ev e r).
Proof. unfold forkless. simpl. intros ->. tauto. Qed.

Lemma forkless_verbose st s r : forkless r → forkless (verbose st s r).
Proof. unfold verbose. destruct (verbose_flag st); [now apply forkless_ev | auto]. Qed.

Lemma forkless_drop_saved_stdout w st k :
  (∀ st', forkless (k st')) → forkless (drop_saved_stdout w st k).
Proof.
  intros Hk. unfold drop_saved_stdout.
  destruct (verbose_flag st && stdout_flag st); [apply forkless_ev|]; auto.
Qed.

Lemma forkless_exec_path_loop w cmd dirs : ∀ i st k,
  (∀ r st', forkless (k r st')) → forkless (exec_path_loop w cmd dirs i st k).
Proof.
  induction dirs as [|dir dirs IH]; intros i st k Hk; simpl.
  - now apply forkless_ev.
  - destruct (cmd !! 0); [|split; reflexivity].
    apply forkless_drop_saved_stdout. intros st'.
    destruct (execvp w _ cmd) as [|r errno]; apply forkless_ev; try reflexivity;
      [split; reflexivity|].
    destruct (r =? -1)%Z; [apply forkless_ev; [reflexivity | apply Hk] | apply IH, Hk].
Qed.

Lemma forkless_exec w cmd st k :
  (∀ r st', forkless (k r st')) → forkless (exec w cmd st k).
Proof.
  intros Hk. unfold exec. destruct (path_flag st); simpl;
    apply forkless_drop_saved_stdout; intros st'.
  - now apply forkless_exec_path_loop.
  - destruct (execvp w _ cmd) as [|r errno]; apply forkless_ev; try reflexivity;
      [split; reflexivity|].
    destruct (r =? -1)%Z; [|apply Hk].
    destruct (errno =? ENOENT)%Z;
      [|apply forkless_ev; [reflexivity|]]; apply forkless_verbose, Hk.
Qed.

Lemma handler_forks_plain cmd :
  Forall (λ t, ¬ operator t) cmd → handler_forks cmd = 0 ∧ handler_pipes cmd = 0.
Proof.
  induction 1 as [|t cmd Ht _ IH]; [split; reflexivity|]. simpl.
  assert (Hpipe : libc.strcmp t "|" = false).
  { unfold libc.strcmp. destruct (String.eqb_spec t "|"); [|reflexivity].
    exfalso. apply Ht. unfold operator. tauto. }
  apply is_operator_false in Ht. now rewrite Hpipe, Ht.
Qed.

Lemma handler_forks_skip pre rest :
  Forall (λ t, ¬ operator t) pre →
  handler_forks (pre ++ rest) = handler_forks rest ∧
  handler_pipes (pre ++ rest) = handler_pipes rest.
Proof.
  induction 1 as [|t pre Ht _ IH]; [split; reflexivity|]. simpl.
  assert (Hpipe : libc.strcmp t "|" = false).
  { unfold libc.strcmp. destruct (String.eqb_spec t "|"); [|reflexivity].
    exfalso. apply Ht. unfold operator. tauto. }
  apply is_operator_false in Ht. now rewrite Hpipe, Ht.
Qed.

Section AllSucceed.

Variable w : world.
Hypothesis calls_succeed : ∀ c, succeeds w c = true.

Lemma sys_ok c ok failed : sys w c ok failed = Ev (Sys c true) ok.
Proof. apply sys_succeeds, calls_succeed. Qed.

(** a redirection handler forks one child and creates no pipe *)
Lemma redirect_counts flag how head tail st k :
  (∀ r st', forkless (k r st')) →
  forks (redirect w flag how head tail st k) = 1 ∧
  pipes (redirect w flag how head tail st k) = 0.
Proof.
  intros Hk. unfold redirect. rewrite !sys_ok.
  assert (Hexec := λ st0, forkless_exec w head st0 (λ _ st1, k (-1)%Z st1)
                            (λ _ st1, Hk (-1)%Z st1)).
  pose proof (Hk 0%Z st) as [Hk1 Hk2].
  unfold verbose.
  destruct (verbose_flag st) eqn:Hv, (stdout_flag st) eqn:Ho; simpl;
    rewrite ?sys_ok; simpl; rewrite ?Hv; simpl;
    match goal with
    | |- context [exec w head ?s ?k'] =>
      destruct (Hexec s) as [-> ->]
    end; rewrite ?Hk1, ?Hk2; split; reflexivity.
Qed.

(** the pipe handler forks one child and creates one pipe, and goes on
    with the tail in the same process *)
Lemma pipe_handle_with_counts special_command head tail st k :
  (∀ r st', forkless (k r st')) →
  let rest :=
    if (0 <? is_special_feature tail)%Z
    then special_command tail 0 (is_special_feature tail) st
           (λ r st, if (r =? -1)%Z then k (-1)%Z st else k 0%Z st)
    else exec w tail st (λ _ st, k (-1)%Z st) in
  forks (pipe_handle_with w special_command head tail st k) = S (forks rest) ∧
  pipes (pipe_handle_with w special_command head tail st k) = S (pipes rest) ∧
  (faultless (pipe_handle_with w special_command head tail st k) → faultless rest).
Proof.
  intros Hk rest. unfold pipe_handle_with. rewrite !sys_ok.
  assert (Hexec := λ st0, forkless_exec w head st0 (λ _ st1, k (-1)%Z st1)
                            (λ _ st1, Hk (-1)%Z st1)).
  assert (Hrest : (if (0 <? is_special_feature tail)%Z
           then verbose st ("    Tail command consists of special feature." +:+ LF)
                  (special_command tail 0 (is_special_feature tail) st
                     (λ r st, if (r =? -1)%Z then k (-1)%Z st else k 0%Z st))
           else verbose st ("    Executing the tail command:  " +:+
                            show (tail !! 0) +:+ LF +:+ LF)
                  (verbose st ("Program Output:" +:+ LF +:+ LF)
                     (exec w tail st (λ _ st, k (-1)%Z st))))
          = (if verbose_flag st then
               if (0 <? is_special_feature tail)%Z
               then Ev (Printf ("    Tail command consists of special feature." +:+ LF)) rest
               else Ev (Printf ("    Executing the tail command:  " +:+
                                show (tail !! 0) +:+ LF +:+ LF))
                      (Ev (Printf ("Program Output:" +:+ LF +:+ LF)) rest)
             else rest)).
  { subst rest. unfold verbose.
    destruct (verbose_flag st), (0 <? is_special_feature tail)%Z; reflexivity. }
  cbv zeta. rewrite Hrest. clear Hrest.
  unfold verbose, faultless.
  destruct (verbose_flag st) eqn:Hv, (stdout_flag st) eqn:Ho; simpl;
    rewrite ?sys_ok; simpl; rewrite ?Hv; simpl;
    match goal with
    | |- context [exec w head ?s ?k'] =>
      destruct (Hexec s) as [-> ->]
    end;
    destruct (0 <? is_special_feature tail)%Z; simpl;
    (split; [lia|]; split; [lia|]; tauto).
Qed.

End AllSucceed.

Lemma is_special_feature_zero cmd :
  is_special_feature cmd = 0%Z → Forall (λ t, ¬ operator t) cmd.
Proof.
  induction cmd as [|t cmd IH]; [constructor|]. simpl. unfold libc.strcmp, operator.
  destruct (String.eqb_spec t ">>"); [discriminate|].
  destruct (String.eqb_spec t ">"); [discriminate|].
  destruct (String.eqb_spec t "|"); [discriminate|].
  intros H. constructor; [tauto | auto].
Qed.

Lemma counts_verbose st s r :
  forks (verbose st s r) = forks r ∧ pipes (verbose st s r) = pipes r ∧
  (faultless (verbose st s r) ↔ faultless r).
Proof. unfold verbose. destruct (verbose_flag st); simpl; tauto. Qed.

Section Counting.

Variable w : world.
Hypothesis calls_succeed : ∀ c, succeeds w c = true.

(** The handlers fork [handler_forks cmd] children and create
    [handler_pipes cmd] pipes, unless the splitter overruns a block. *)
Lemma special_command_counts fuel : ∀ cmd num_cmd st k,
  length cmd < fuel → (∀ r st', forkless (k r st')) →
  (0 < is_special_feature cmd)%Z →
  faultless (special_command w fuel cmd num_cmd (is_special_feature cmd) st k) →
  forks (special_command w fuel cmd num_cmd (is_special_feature cmd) st k)
    = handler_forks cmd ∧
  pipes (special_command w fuel cmd num_cmd (is_special_feature cmd) st k)
    = handler_pipes cmd.
Proof.
  induction fuel as [|fuel IH]; intros cmd num_cmd st k Hfuel Hk Hop; [lia|].
  destruct (first_operator cmd) as [Hplain | (pre & op & post & -> & Hpre & Hop')].
  { rewrite is_special_feature_plain in Hop by assumption. lia. }
  destruct (handler_forks_skip pre (op :: post) Hpre) as [-> ->].
  rewrite is_special_feature_skip by assumption.
  simpl special_command.
  destruct (splitter_sound pre op post num_cmd Hpre Hop')
    as [-> | (head & tail & -> & -> & ->)].
  { intros Hfault. exfalso. now apply Hfault. }
  destruct Hop' as [-> | [-> | ->]]; simpl.
  - unfold append_handle. intros _.
    destruct (counts_verbose st
      ("  Appending the output of " +:+ show (pre !! 0) +:+
       " onto the end of " +:+ show (post !! 0) +:+ LF)
      (redirect w O_APPEND "append" pre post st k)) as (-> & -> & _).
    now apply redirect_counts.
  - unfold overwrite_handle. intros _.
    destruct (counts_verbose st
      ("  Overwriting the output of " +:+ show (pre !! 0) +:+
       " onto " +:+ show (post !! 0) +:+ LF)
      (redirect w O_TRUNC "overwrite" pre post st k)) as (-> & -> & _).
    now apply redirect_counts.
  - destruct (pipe_handle_with_counts w calls_succeed (special_command w fuel)
                pre post st k Hk) as (-> & -> & Hfault).
    intros Hrun. apply Hfault in Hrun. clear Hfault.
    destruct (0 <? is_special_feature post)%Z eqn:E.
    + apply Z.ltb_lt in E.
      rewrite length_app in Hfuel. simpl in Hfuel.
      assert (Hk' : ∀ (r : Z) (st' : shell),
                forkless (if (r =? -1)%Z then k (-1)%Z st' else k 0%Z st'))
        by (intros r st'; destruct (r =? -1)%Z; apply Hk).
      destruct (IH post 0 st (λ r st, if (r =? -1)%Z then k (-1)%Z st else k 0%Z st))
        as [-> ->]; auto; try lia.
    + apply Z.ltb_ge in E. pose proof (is_special_feature_range post).
      destruct (handler_forks_plain post) as [-> ->].
      { apply is_special_feature_zero. lia. }
      destruct (forkless_exec w post st (λ _ st, k (-1)%Z st)) as [-> ->]; auto.
Qed.

Lemma exec_dispatch_counts cmd num_cmd st k :
  (∀ r st', forkless (k r st')) →
  faultless (exec_dispatch w cmd num_cmd st k) →
  forks (exec_dispatch w cmd num_cmd st k) = S (handler_forks cmd) ∧
  pipes (exec_dispatch w cmd num_cmd st k) = handler_pipes cmd.
Proof.
  intros Hk.
  pose proof (exec_dispatch_stuck_free w cmd num_cmd st (λ _ _, Done (Exits 0))) as Hfree.
  revert Hfree. unfold exec_dispatch. rewrite !sys_ok by assumption.
  set (leave := λ (status : Z) (_ : shell),
         Done (Exits (if (status =? -1)%Z then EXIT_FAILURE else EXIT_SUCCESS))).
  set (child := verbose st _ _). intros Hfree.
  assert (Hchild : stuck_free child).
  { apply Hfree. intros; simpl; discriminate. }
  apply all_fates_fate_of in Hchild. clear Hfree.
  assert (Hleave : ∀ r st', forkless (leave r st')) by (intros; split; reflexivity).
  assert (Hparent : ∀ r, forks (verbose st
            ("Creating a child process to run the command: " +:+ show (cmd !! 0) +:+ LF)
            (verbose st ("Parent:" +:+ LF +:+
                         "  Waiting for child process to terminate." +:+ LF) r))
            = forks r ∧
          pipes (verbose st
            ("Creating a child process to run the command: " +:+ show (cmd !! 0) +:+ LF)
            (verbose st ("Parent:" +:+ LF +:+
                         "  Waiting for child process to terminate." +:+ LF) r))
            = pipes r).
  { intros r. unfold verbose. destruct (verbose_flag st); simpl; auto. }
  destruct (termination w child) as [status|] eqn:Hterm;
    [|unfold termination in Hterm; destruct (fate_of child); congruence].
  rewrite sys_ok by assumption.
  simpl. intros [Hfault _].
  match goal with
  | |- S (_ + forks (verbose _ _ (verbose _ _ ?r))) = _ ∧ _ =>
    destruct (Hparent r) as [-> ->];
    assert (Hr : forkless r)
  end.
  { apply forkless_ev; [reflexivity|].
    repeat match goal with |- forkless (if ?b then _ else _) => destruct b end;
      try (apply forkless_ev; [reflexivity|]); apply Hk. }
  destruct Hr as [-> ->]. rewrite !Nat.add_0_r.
  cut (forks child = handler_forks cmd ∧ pipes child = handler_pipes cmd);
    [intros [-> ->]; auto|].
  subst child.
  match goal with
  | |- forks (verbose ?s ?m ?r) = _ ∧ _ =>
    destruct (counts_verbose s m r) as (-> & -> & Hiff); apply Hiff in Hfault
  end.
  clear Hiff. revert Hfault.
  destruct (0 <? is_special_feature cmd)%Z eqn:E.
  - apply Z.ltb_lt in E. intros Hfault.
    apply special_command_counts; auto.
  - intros _. apply Z.ltb_ge in E. pose proof (is_special_feature_range cmd).
    destruct (handler_forks_plain cmd) as [-> ->].
    { apply is_special_feature_zero. lia. }
    repeat match goal with
           | |- context [verbose ?s ?m ?r] =>
             destruct (counts_verbose s m r) as (-> & -> & _)
           end.
    now apply forkless_exec.
Qed.

End Counting.

Lemma handler_forks_pipe rest :
  handler_forks ("|" :: rest) = S (handler_forks rest) ∧
  handler_pipes ("|" :: rest) = S (handler_pipes rest).
Proof. split; reflexivity. Qed.

Lemma handler_forks_chain stages :
  stages ≠ [] → Forall (Forall (λ t, ¬ operator t)) stages →
  handler_forks (chain stages) = length stages - 1 ∧
  handler_pipes (chain stages) = length stages - 1.
Proof.
  intros Hne Hplain. induction Hplain as [|s stages Hs Hstages IH]; [congruence|].
  destruct stages as [|s' stages].
  - simpl. now apply handler_forks_plain.
  - change (chain (s :: s' :: stages)) with (s ++ "|" :: chain (s' :: stages)).
    destruct (handler_forks_skip s ("|" :: chain (s' :: stages)) Hs) as [-> ->].
    destruct (handler_forks_pipe (chain (s' :: stages))) as [-> ->].
    destruct IH as [-> ->]; [discriminate|]. simpl length. lia.
Qed.

(** ** Chains that stay inside the splitter's blocks *)

Lemma is_special_feature_chain s s' stages :
  Forall (λ t, ¬ operator t) s →
  is_special_feature (chain (s :: s' :: stages)) = 3%Z.
Proof.
  intros Hs. change (chain (s :: s' :: stages)) with (s ++ "|" :: chain (s' :: stages)).
  now rewrite is_special_feature_skip.
Qed.

Lemma special_command_pipe w fuel cmd num_cmd st k head tail :
  splitter cmd num_cmd = Ok (head, tail) →
  special_command w (S fuel) cmd num_cmd 3 st k =
    pipe_handle_with w (special_command w fuel) (argv_of head) (argv_of tail) st k.
Proof. intros H. simpl. now rewrite H. Qed.

(** In environment mode nothing faults in the handlers of a chain of pipes
    when every stage after the first has fewer than three tokens. *)
Lemma special_command_faultless_chain w fuel : ∀ s stages num_cmd st k,
  path_flag st = false →
  Forall (Forall (λ t, ¬ operator t)) (s :: stages) → stages ≠ [] →
  Forall (λ t, length t < 3) stages →
  num_cmd = length (chain (s :: stages)) ∨ (num_cmd = 0 ∧ length s < 3) →
  length (chain (s :: stages)) < fuel →
  (∀ r st', faultless (k r st')) →
  faultless (special_command w fuel (chain (s :: stages)) num_cmd 3 st k).
Proof.
  unfold faultless.
  induction fuel as [|fuel IH];
    intros s stages num_cmd st k Henv Hplain Hne Hshort Hcount Hfuel Hk; [lia|].
  destruct stages as [|s' stages]; [congruence|].
  apply Forall_cons in Hplain as [Hs Hplain].
  apply Forall_cons in Hshort as [Hs' Hshort].
  revert Hfuel Hcount.
  change (chain (s :: s' :: stages)) with (s ++ "|" :: chain (s' :: stages)).
  intros Hfuel Hcount.
  assert (Hop : operator "|") by (unfold operator; tauto).
  assert (Hsplit : ∃ head tail,
            splitter (s ++ "|" :: chain (s' :: stages)) num_cmd = Ok (head, tail) ∧
            argv_of head = s ∧ argv_of tail = chain (s' :: stages)).
  { destruct Hcount as [-> | [-> Hlen]]; [now apply splitter_counted|].
    destruct (splitter_sound s "|" (chain (s' :: stages)) 0 Hs Hop) as [Hbad|]; [|assumption].
    apply splitter_uncounted in Hbad; [lia | assumption | assumption]. }
  destruct Hsplit as (head & tail & Hrun & Hhead & Htail).
  rewrite (special_command_pipe _ _ _ _ _ _ _ _ Hrun), Hhead, Htail.
  apply all_fates_pipe_handle_with; try discriminate; auto.
  intros Hspecial k' Hk'.
  destruct stages as [|s'' stages].
  - exfalso. simpl in Hspecial.
    apply Forall_cons in Hplain as [Hplain _].
    rewrite is_special_feature_plain in Hspecial by assumption. lia.
  - rewrite is_special_feature_chain by (apply Forall_cons in Hplain; tauto).
    rewrite length_app, length_cons in Hfuel.
    apply IH; auto. lia.
Qed.

Lemma exec_dispatch_faultless_chain w stages st :
  path_flag st = false →
  stages ≠ [] → Forall (Forall (λ t, ¬ operator t)) stages →
  Forall (λ t, length t < 3) (tail stages) →
  faultless (exec_dispatch w (chain stages) (length (chain stages)) st halt).
Proof.
  intros Henv Hne Hplain Hshort.
  unfold faultless, exec_dispatch.
  set (leave := λ (status : Z) (_ : shell),
         Done (Exits (if (status =? -1)%Z then EXIT_FAILURE else EXIT_SUCCESS))).
  set (child := verbose st _ _).
  assert (Hhalt : ∀ r st', all_fates (λ f, f ≠ Fault) (halt r st'))
    by (intros; simpl; discriminate).
  apply all_fates_sys; [|simpl; apply Hhalt]. split.
  - subst child. apply all_fates_verbose.
    destruct stages as [|s [|s' stages]]; [congruence | |].
    + apply Forall_cons in Hplain as [Hs _]. simpl chain.
      rewrite is_special_feature_plain by assumption. simpl.
      do 2 apply all_fates_verbose.
      apply all_fates_exec; try discriminate; auto.
    + rewrite is_special_feature_chain by (apply Forall_cons in Hplain; tauto).
      simpl (0 <? 3)%Z. cbv iota.
      apply special_command_faultless_chain; auto.
      intros; simpl; discriminate.
  - do 2 apply all_fates_verbose.
    destruct (termination w child) as [status|]; [|simpl; discriminate].
    apply all_fates_sys; simpl; [|apply Hhalt].
    destruct (WIFSIGNALED status && _); simpl; discriminate.
Qed.

(** ** Pipelines *)

(** C1 as the code has it.  When every system call succeeds: the pipe
    handler creates one pipe and forks one child for the head; its parent
    waits for that child, duplicates the read end onto standard input, closes
    both ends, and then goes on in the same process, into [special_command]
    if the tail has an operator and into the launcher if not (first part, the
    text of the handler in brief mode; second part, its own pipe and child
    counted in either mode).  A command of N stages joined by pipe operators
    only is run by N processes (the dispatcher's child included) and N - 1
    pipes, in every run that meets no undefined behaviour (third part), and
    so in environment mode whenever every stage after the first has fewer
    than three tokens (fourth part).  In general the handlers fork one child
    per pipe operator up to the first redirection operator and one more for
    that redirection (fifth part).  Runs in which the splitter overruns a
    block are left out. *)
Theorem pipeline_one_process_per_stage w st :
  (∀ c, succeeds w c = true) →
  (verbose_flag st = false → ∀ special_command head tail k,
     pipe_handle_with w special_command head tail st k =
     Ev (Sys sys_pipe true)
       (Ev (Sys sys_fork true)
          (Forked
             (Ev (Sys (sys_close (pipefd READ_END)) true)
             (Ev (Sys (sys_dup2 (pipefd WRITE_END) STDOUT_FILENO) true)
             (Ev (Sys (sys_close (pipefd WRITE_END)) true)
                (exec w head st (λ _ st, k (-1)%Z st)))))
             (Ev (Sys sys_waitpid true)
             (Ev (Sys (sys_dup2 (pipefd READ_END) STDIN_FILENO) true)
             (Ev (Sys (sys_close (pipefd READ_END)) true)
             (Ev (Sys (sys_close (pipefd WRITE_END)) true)
                (if (0 <? is_special_feature tail)%Z
                 then special_command tail 0 (is_special_feature tail) st
                        (λ r st, if (r =? -1)%Z then k (-1)%Z st else k 0%Z st)
                 else exec w tail st (λ _ st, k (-1)%Z st))))))))) ∧
  (∀ special_command head tail k,
     (∀ r st', forkless (k r st')) →
     forks (pipe_handle_with w special_command head tail st k) =
       S (forks (if (0 <? is_special_feature tail)%Z
                 then special_command tail 0 (is_special_feature tail) st
                        (λ r st, if (r =? -1)%Z then k (-1)%Z st else k 0%Z st)
                 else exec w tail st (λ _ st, k (-1)%Z st))) ∧
     pipes (pipe_handle_with w special_command head tail st k) =
       S (pipes (if (0 <? is_special_feature tail)%Z
                 then special_command tail 0 (is_special_feature tail) st
                        (λ r st, if (r =? -1)%Z then k (-1)%Z st else k 0%Z st)
                 else exec w tail st (λ _ st, k (-1)%Z st)))) ∧
  (∀ stages,
     stages ≠ [] → Forall (Forall (λ t, ¬ operator t)) stages →
     faultless (exec_dispatch w (chain stages) (length (chain stages)) st halt) →
     forks (exec_dispatch w (chain stages) (length (chain stages)) st halt)
       = length stages ∧
     pipes (exec_dispatch w (chain stages) (length (chain stages)) st halt)
       = length stages - 1) ∧
  (∀ stages,
     path_flag st = false →
     stages ≠ [] → Forall (Forall (λ t, ¬ operator t)) stages →
     Forall (λ t, length t < 3) (tail stages) →
     forks (exec_dispatch w (chain stages) (length (chain stages)) st halt)
       = length stages ∧
     pipes (exec_dispatch w (chain stages) (length (chain stages)) st halt)
       = length stages - 1) ∧
  (∀ cmd,
     faultless (exec_dispatch w cmd (length cmd) st halt) →
     forks (exec_dispatch w cmd (length cmd) st halt) = S (handler_forks cmd) ∧
     pipes (exec_dispatch w cmd (length cmd) st halt) = handler_pipes cmd).
Proof.
  intros Hok.
  assert (Hhalt : ∀ r st', forkless (halt r st')) by (intros; split; reflexivity).
  assert (Hchain : ∀ stages,
            stages ≠ [] → Forall (Forall (λ t, ¬ operator t)) stages →
            faultless (exec_dispatch w (chain stages) (length (chain stages)) st halt) →
            forks (exec_dispatch w (chain stages) (length (chain stages)) st halt)
              = length stages ∧
            pipes (exec_dispatch w (chain stages) (length (chain stages)) st halt)
              = length stages - 1).
  { intros stages Hne Hplain Hfault.
    destruct (exec_dispatch_counts w Hok (chain stages) (length (chain stages))
                st halt Hhalt Hfault) as [-> ->].
    destruct (handler_forks_chain stages Hne Hplain) as [-> ->].
    destruct stages; [congruence | simpl; lia]. }
  split; [|split; [|split; [exact Hchain | split]]].
  - intros Hv special_command head tail k.
    unfold pipe_handle_with, verbose. rewrite Hv, !(sys_ok w Hok). simpl.
    rewrite ?(sys_ok w Hok). reflexivity.
  - intros special_command head tail k Hk.
    destruct (pipe_handle_with_counts w Hok special_command head tail st k Hk)
      as (Hforks & Hpipes & _).
    split; assumption.
  - intros stages Henv Hne Hplain Hshort.
    apply Hchain; auto. now apply exec_dispatch_faultless_chain.
  - intros cmd Hfault. now apply exec_dispatch_counts.
Qed.

Lemma pipeline_one_process_per_stage_witness :
  (∀ c, succeeds calm c = true) ∧
  [["a"]; ["b"; "-x"]; ["c"]] ≠ [] ∧
  Forall (Forall (λ t, ¬ operator t)) [["a"]; ["b"; "-x"]; ["c"]] ∧
  faultless (exec_dispatch calm ["a"; "|"; "b"; "-x"; "|"; "c"] 6 brief halt) ∧
  forks (exec_dispatch calm ["a"; "|"; "b"; "-x"; "|"; "c"] 6 brief halt) = 3 ∧
  pipes (exec_dispatch calm ["a"; "|"; "b"; "-x"; "|"; "c"] 6 brief halt) = 2.
Proof.
  assert (Hok : ∀ c, succeeds calm c = true) by reflexivity.
  assert (Hne : [["a"]; ["b"; "-x"]; ["c"]] ≠ @nil (list string)) by discriminate.
  assert (Hplain : Forall (Forall (λ t, ¬ operator t)) [["a"]; ["b"; "-x"]; ["c"]]).
  { repeat constructor; intros [H|[H|H]]; discriminate H. }
  assert (Hfault : faultless
            (exec_dispatch calm (chain [["a"]; ["b"; "-x"]; ["c"]])
               (length (chain [["a"]; ["b"; "-x"]; ["c"]])) brief halt)).
  { vm_compute. repeat split; discriminate. }
  split; [exact Hok|]. split; [exact Hne|]. split; [exact Hplain|].
  split; [exact Hfault|].
  exact (proj1 (proj2 (proj2 (pipeline_one_process_per_stage calm brief Hok)))
           [["a"]; ["b"; "-x"]; ["c"]] Hne Hplain Hfault).
Defined.

(** C1 as stated fails: [a | b > f] has two stages and one pipe, but its
    tail goes to the overwrite handler, which forks a child of its own for
    [b]: three processes are forked, and the process that waited for [a]
    never becomes [b]: it exits once the third has ended. *)
Lemma redirected_tail_is_forked :
  stages_of ["a"; "|"; "b"; ">"; "f"] = 2 ∧
  forks (exec_dispatch calm ["a"; "|"; "b"; ">"; "f"] 5 brief halt) = 3 ∧
  pipes (exec_dispatch calm ["a"; "|"; "b"; ">"; "f"] 5 brief halt) = 1 ∧
  exec_dispatch calm ["a"; "|"; "b"; ">"; "f"] 5 brief halt =
    Ev (Sys sys_fork true)
      (Forked
        (Ev (Sys sys_pipe true)
        (Ev (Sys sys_fork true)
          (Forked
            (Ev (Sys (sys_close (pipefd READ_END)) true)
            (Ev (Sys (sys_dup2 (pipefd WRITE_END) STDOUT_FILENO) true)
            (Ev (Sys (sys_close (pipefd WRITE_END)) true)
            (Ev (Execvp (Some "a") ["a"] Replaced) (Done (Image (Some "a") ["a"]))))))
            (Ev (Sys sys_waitpid true)
            (Ev (Sys (sys_dup2 (pipefd READ_END) STDIN_FILENO) true)
            (Ev (Sys (sys_close (pipefd READ_END)) true)
            (Ev (Sys (sys_close (pipefd WRITE_END)) true)
            (Ev (Sys sys_fork true)
              (Forked
                (Ev (Sys (sys_open (Some "f") O_TRUNC mode_0666) true)
                (Ev (Sys (sys_dup2 (fd (Some "f")) STDOUT_FILENO) true)
                (Ev (Sys (sys_close (fd (Some "f"))) true)
                (Ev (Execvp (Some "b") ["b"] Replaced) (Done (Image (Some "b") ["b"]))))))
                (Ev (Sys sys_waitpid true) (Done (Exits EXIT_SUCCESS))))))))))))
        (Ev (Sys sys_wait true) (Done (Returns EXIT_SUCCESS brief)))).
Proof. repeat split; reflexivity. Qed.

(** ** The PathList *)

Lemma fate_of_verbose st s r : fate_of (verbose st s r) = fate_of r.
Proof. unfold verbose. now destruct (verbose_flag st). Qed.

Lemma fate_of_summary st status r : fate_of (summary st status r) = fate_of r.
Proof. unfold summary. now destruct (verbose_flag st). Qed.

Lemma fate_of_sys w c ok failed :
  fate_of (sys w c ok failed) = fate_of (if succeeds w c then ok else failed).
Proof. unfold sys. now destruct (succeeds w c). Qed.

(** In the calling process the dispatcher returns, with the variables as
    they were. *)
Lemma exec_dispatch_returns w cmd num_cmd st k :
  ∃ r, fate_of (exec_dispatch w cmd num_cmd st k) = fate_of (k r st).
Proof.
  destruct (succeeds w sys_fork) eqn:Hfork.
  - pose proof (exec_dispatch_stuck_free w cmd num_cmd st (λ _ _, Done (Exits 0))) as Hfree.
    revert Hfree. unfold exec_dispatch. rewrite !(sys_succeeds w sys_fork) by assumption.
    set (child := verbose st _ _). intros Hfree.
    assert (Hchild : stuck_free child).
    { apply Hfree. intros; simpl; discriminate. }
    apply all_fates_fate_of in Hchild. clear Hfree.
    simpl. rewrite !fate_of_verbose.
    destruct (termination w child) as [status|] eqn:Hterm;
      [|unfold termination in Hterm; destruct (fate_of child); congruence].
    rewrite fate_of_sys. destruct (succeeds w sys_wait); [|simpl; eauto].
    simpl. destruct (WIFSIGNALED status && _); simpl; eauto.
  - unfold exec_dispatch. rewrite sys_fails by assumption. simpl. eauto.
Qed.

Lemma pwd_handle_returns w cmd num_cmd st k :
  ∃ r, fate_of (pwd_handle w cmd num_cmd st k) = fate_of (k r st).
Proof.
  unfold pwd_handle. rewrite fate_of_verbose.
  destruct (negb _ && _); simpl; [eauto|].
  rewrite fate_of_sys. destruct (succeeds w sys_getcwd); simpl; [|eauto].
  rewrite !fate_of_verbose. simpl. eauto.
Qed.

Lemma cd_handle_returns w cmd num_cmd st k :
  ∃ r, fate_of (cd_handle w cmd num_cmd st k) = fate_of (k r st).
Proof.
  unfold cd_handle. rewrite fate_of_verbose.
  destruct (num_cmd =? 1); [|destruct (num_cmd =? 2)].
  - destruct (HOME w) as [home|]; simpl; [|eauto].
    rewrite fate_of_verbose, fate_of_sys.
    destruct (succeeds w _); simpl; [|eauto]. rewrite fate_of_verbose. eauto.
  - rewrite fate_of_sys. destruct (succeeds w _); simpl; [|eauto].
    destruct (verbose_flag st); [|eauto].
    rewrite fate_of_sys. destruct (succeeds w _); simpl; eauto.
  - simpl. eauto.
Qed.

Lemma turn_keeps_path w cmds num_cmds st again :
  fate_of (turn w cmds num_cmds st again) = Returns 0 st ∨
  ∃ st', path st' = path st ∧ path_flag st' = path_flag st ∧
         fate_of (turn w cmds num_cmds st again) = fate_of (again st').
Proof.
  unfold turn. destruct cmds as [|cmd0 cmds]; [right; exists st; auto|].
  rewrite fate_of_verbose.
  destruct (libc.strcmp cmd0 "exit"); [left; reflexivity|]. right.
  destruct (libc.strcmp cmd0 "verbose").
  { exists (set_verbose_flag st true). rewrite fate_of_summary. auto. }
  destruct (libc.strcmp cmd0 "brief").
  { exists (set_verbose_flag st false). rewrite fate_of_summary. auto. }
  exists st. split; [reflexivity|]. split; [reflexivity|].
  destruct (libc.strcmp cmd0 "pwd"); [|destruct (libc.strcmp cmd0 "cd")].
  - destruct (pwd_handle_returns w (cmd0 :: cmds) num_cmds st
                (λ status st, summary st status (again st))) as [r ->].
    apply fate_of_summary.
  - destruct (cd_handle_returns w (cmd0 :: cmds) num_cmds st
                (λ status st, summary st status (again st))) as [r ->].
    apply fate_of_summary.
  - destruct (exec_dispatch_returns w (cmd0 :: cmds) num_cmds st
                (λ status st, summary st status (again st))) as [r ->].
    apply fate_of_summary.
Qed.

Lemma driver_loop_keeps_path w stdin : ∀ st,
  ∃ st', fate_of (driver_loop w stdin st) = Returns 0 st' ∧
         path st' = path st ∧ path_flag st' = path_flag st.
Proof.
  induction stdin as [|input stdin IH]; intros st.
  - exists st. simpl. rewrite fate_of_verbose. auto.
  - destruct (driver_loop_unfold w input stdin st) as (toks & _ & ->).
    simpl. destruct (turn_keeps_path w toks (length toks) st (driver_loop w stdin))
      as [-> | (st1 & Hpath & Hflag & ->)]; [eauto|].
    destruct (IH st1) as (st' & -> & Hpath' & Hflag').
    exists st'. split; [reflexivity|]. split; congruence.
Qed.

(** C6 as the code has it: the interactive process never modifies its
    PathList: the driver returns with the list it started with.  The launcher,
    which runs in forked children only, leaves the list alone in environment
    mode, and in configured-path mode appends argv[0] in place to the first
    directory string of its process's copy, the other strings unchanged. *)
Theorem path_list_changes_only_in_launcher w :
  (∀ stdin st, ∃ st',
     fate_of (driver w stdin st) = Returns 0 st' ∧ path st' = path st) ∧
  (∀ st cmd r st',
     path_flag st = false →
     fate_of (exec w cmd st halt) = Returns r st' → path st' = path st) ∧
  (∀ st dir dirs cmd0 args errno,
     path_flag st = true → path st = dir :: dirs →
     execvp w (Some (dir +:+ cmd0)) (cmd0 :: args) = Returned (-1) errno →
     ∃ st', fate_of (exec w (cmd0 :: args) st halt) = Returns (-1) st' ∧
            path st' = (dir +:+ cmd0) :: dirs).
Proof.
  split; [|split].
  - intros stdin st. destruct (driver_loop_keeps_path w stdin st) as (st' & H & Hp & _).
    exists st'. split; [exact H | exact Hp].
  - intros st cmd r st' Hflag. unfold exec, drop_saved_stdout. rewrite Hflag. simpl.
    destruct (verbose_flag st && stdout_flag st); simpl;
      (destruct (execvp w (cmd !! 0) cmd) as [|r0 errno]; simpl; [discriminate|];
       destruct (r0 =? -1)%Z; [destruct (errno =? ENOENT)%Z|]; simpl;
       rewrite ?fate_of_verbose; simpl; intros [= <- <-]; reflexivity).
  - intros st dir dirs cmd0 args errno Hflag Hpath Hrun.
    unfold exec. rewrite Hflag. simpl.
    destruct (verbose_flag st) eqn:Hv, (stdout_flag st) eqn:Ho;
      repeat (unfold drop_saved_stdout, libc.strcat; simpl;
              rewrite ?Hpath, ?Hv, ?Ho, ?Hrun; simpl);
      eexists; (split; [reflexivity|]); simpl; now rewrite Hpath.
Qed.

Lemma path_list_changes_only_in_launcher_witness :
  path_flag (configured ["/bin/"; "/usr/bin/"]) = true ∧
  path (configured ["/bin/"; "/usr/bin/"]) = "/bin/" :: ["/usr/bin/"] ∧
  execvp barren (Some ("/bin/" +:+ "ls")) ["ls"] = Returned (-1) ENOENT ∧
  ∃ st', fate_of (exec barren ["ls"] (configured ["/bin/"; "/usr/bin/"]) halt)
           = Returns (-1) st' ∧
         path st' = ("/bin/" +:+ "ls") :: ["/usr/bin/"].
Proof.
  split; [reflexivity|]. split; [reflexivity|]. split; [reflexivity|].
  exact (proj2 (proj2 (path_list_changes_only_in_launcher barren))
           (configured ["/bin/"; "/usr/bin/"]) "/bin/" ["/usr/bin/"] "ls" [] ENOENT
           eq_refl eq_refl eq_refl).
Defined.

(** C6 as stated fails: a launcher invocation in configured-path mode
    leaves ["/bin/ls"] where the PathList had ["/bin/"]. *)
Lemma launcher_modifies_path_list :
  fate_of (exec barren ["ls"] (configured ["/bin/"; "/usr/bin/"]) halt)
    = Returns (-1) (configured ["/bin/ls"; "/usr/bin/"]) ∧
  path (configured ["/bin/ls"; "/usr/bin/"]) ≠ path (configured ["/bin/"; "/usr/bin/"]).
Proof. split; [reflexivity | discriminate]. Qed.

(** ** The splitter's blocks *)

(** C2 fails on the code.  The example of the specification is split as it
    says, but [head] and [tail] share one capacity variable: once it has grown
    for [head], the stores into [tail] are no longer checked against the size
    of the tail block.  With the count 0 that the pipe handler passes, seven
    tokens around a pipe overrun it; the line [p | a b c | w x y] reaches that
    call. *)
Theorem splitter_overruns_tail_block :
  (∃ head tail, splitter ["a"; "|"; "b"; "c"] 4 = Ok (head, tail) ∧
                argv_of head = ["a"] ∧ argv_of tail = ["b"; "c"]) ∧
  splitter ["a"; "b"; "c"; "|"; "w"; "x"; "y"] 0 = Undefined ∧
  tokenizer ("p | a b c | w x y" +:+ LF) delim 18
    = Ok (handed_back ["p"; "|"; "a"; "b"; "c"; "|"; "w"; "x"; "y"]) ∧
  ¬ faultless (driver_loop calm ["p | a b c | w x y" +:+ LF] brief).
Proof.
  split; [|split; [|split]].
  - eexists _, _. split; [reflexivity|]. split; reflexivity.
  - reflexivity.
  - reflexivity.
  - vm_compute. intros H. decompose [and] H. congruence.
Qed.

(** ** The earlier variant *)

(** When the tail has an operator the earlier overwrite handler opens
    [tail[2]] as a second destination; it starts no handler for the tail
    either. *)
Example legacy_overwrite_handle_does_not_recurse :
  legacy.overwrite_handle calm ["a"] ["f"; "|"; "b"] brief =
    Ev (Sys sys_pipe true)
    (Ev (Sys sys_fork true)
      (Forked
        (Ev (Sys (sys_open (Some "f") O_TRUNC mode_0666) true)
        (Ev (Sys (sys_dup2 (fd (Some "f")) STDOUT_FILENO) true)
        (Ev (Sys (sys_close (pipefd 0)) true)
        (Ev (Sys (sys_dup2 (pipefd 1) STDOUT_FILENO) true)
        (Ev (Sys (sys_open (Some "b") O_TRUNC mode_0666) true)
        (Ev (Sys (sys_dup2 (fd (Some "b")) STDOUT_FILENO) true)
        (Ev (Execvp (Some "a") ["a"] Replaced) (Done (Image (Some "a") ["a"])))))))))
        (Ev (Sys sys_waitpid true) (Done (Exits EXIT_FAILURE))))) ∧
  launches (legacy.append_handle calm ["a"] ["f"; "|"; "b"] brief) = [(Some "a", ["a"])].
Proof. split; reflexivity. Qed.

(** The earlier launcher stops at the first error too, with [exit]. *)
Lemma legacy_exec_stops_at_first_error w st dir dirs cmd0 args errno :
  path_flag st = true → path st = dir :: dirs → dir ≠ EmptyString →
  execvp w (Some (dir +:+ cmd0)) (cmd0 :: args) = Returned (-1) errno →
  launches (legacy.exec w (cmd0 :: args) st) = [(Some (dir +:+ cmd0), cmd0 :: args)] ∧
  fate_of (legacy.exec w (cmd0 :: args) st) = Exits EXIT_FAILURE.
Proof.
  intros Hflag Hpath Hdir Hrun. unfold legacy.exec. rewrite Hflag, Hpath. simpl.
  unfold libc.strcmp. destruct (String.eqb_spec dir ""); [contradiction|].
  unfold drop_saved_stdout, libc.strcat. rewrite Hrun.
  destruct (verbose_flag _ && stdout_flag _); split; reflexivity.
Qed.

(** * Further properties of the code *)

(** ** More on the tokenizer *)

Lemma handed_back_inj toks toks' : handed_back toks = handed_back toks' → toks = toks'.
Proof.
  intros H. rewrite <- (from_handed_back toks), <- (from_handed_back toks').
  now rewrite H.
Qed.

Lemma tokenizer_tokenization input delim tok_num toks :
  tokenizer input delim tok_num = Ok (handed_back toks) ↔ tokenization delim input toks.
Proof.
  destruct (tokenizer_spec input delim tok_num) as (toks' & Hrun & Hspec). split.
  - rewrite Hrun. intros [= H]. apply handed_back_inj in H. now subst.
  - intros H. now rewrite (tokenization_functional _ _ _ H _ Hspec).
Qed.

Lemma tokenization_after_gap delim gap s toks :
  chars_all (delimiter delim) gap → tokenization delim s toks →
  tokenization delim (gap +:+ s) toks.
Proof.
  induction gap as [|c gap IH]; intros Hgap H; [exact H|].
  apply chars_all_cons in Hgap as [Hc Hgap]. rewrite string_app_cons.
  apply tokenization_after_delimiter; auto.
Qed.

Lemma tokenization_app delim a b d ta tb :
  delimiter delim d → tokenization delim a ta → tokenization delim b tb →
  tokenization delim (a +:+ String d b) (ta ++ tb).
Proof.
  intros Hd Ha Hb. induction Ha as [gap Hgap | gap tok rest toks Hgap Hne Htok Hrest Ha IH].
  - simpl. apply tokenization_after_gap; [assumption|].
    now apply tokenization_after_delimiter.
  - rewrite !string_app_assoc. simpl. constructor; auto.
    right. destruct Hrest as [-> | (c & rest' & -> & Hc)].
    + exists d, b. auto.
    + exists c, (rest' +:+ String d b). auto.
Qed.

Lemma tokenization_single delim tok :
  token delim tok → tokenization delim tok [tok].
Proof.
  intros [Hne Htok].
  rewrite <- (string_app_nil_r tok) at 1.
  apply (tokenization_token delim EmptyString tok EmptyString []); auto.
  - constructor.
  - constructor. constructor.
Qed.

Lemma tokenization_concat delim d toks :
  delimiter delim d → Forall (token delim) toks →
  tokenization delim (String.concat (String d EmptyString) toks) toks.
Proof.
  intros Hd H. induction H as [|tok toks Htok Htoks IH].
  - constructor. constructor.
  - destruct toks as [|tok' toks].
    + simpl. now apply tokenization_single.
    + change (String.concat (String d "") (tok :: tok' :: toks))
        with (tok +:+ String d EmptyString +:+ String.concat (String d "") (tok' :: toks)).
      rewrite string_app_cons. simpl (EmptyString +:+ _).
      apply (tokenization_app delim tok _ d [tok]); auto.
      now apply tokenization_single.
Qed.

Lemma strip_app delim a b : strip delim (a +:+ b) = strip delim a +:+ strip delim b.
Proof.
  induction a as [|c a IH]; [reflexivity|].
  rewrite string_app_cons. simpl. destruct (libc.strchr delim c); [exact IH|].
  rewrite string_app_cons. now f_equal.
Qed.

Lemma strip_gap delim gap : chars_all (delimiter delim) gap → strip delim gap = EmptyString.
Proof.
  induction gap as [|c gap IH]; [reflexivity|]. intros H.
  apply chars_all_cons in H as [Hc H]. simpl.
  apply strchr_delimiter in Hc. rewrite Hc. auto.
Qed.

Lemma strip_token delim tok :
  chars_all (λ c, ¬ delimiter delim c) tok → strip delim tok = tok.
Proof.
  induction tok as [|c tok IH]; [reflexivity|]. intros H.
  apply chars_all_cons in H as [Hc H]. simpl.
  apply strchr_not_delimiter in Hc. rewrite Hc. f_equal. auto.
Qed.

Lemma concat_nil_cons tok toks :
  String.concat EmptyString (tok :: toks) = tok +:+ String.concat EmptyString toks.
Proof.
  destruct toks as [|tok' toks]; [simpl; now rewrite string_app_nil_r | reflexivity].
Qed.

Lemma tokenization_tokens delim s toks :
  tokenization delim s toks →
  Forall (token delim) toks ∧ String.concat EmptyString toks = strip delim s.
Proof.
  induction 1 as [gap Hgap | gap tok rest toks Hgap Hne Htok Hrest H [IH1 IH2]].
  - split; [constructor|]. now rewrite strip_gap.
  - split; [constructor; [split|]; assumption|].
    rewrite concat_nil_cons, !strip_app, strip_gap, strip_token, IH2 by assumption.
    reflexivity.
Qed.

(** The capacity hint [tok_num] decides how the block grows, not what the
    tokenizer hands back. *)
Theorem tokenizer_ignores_capacity_hint input delim tok_num tok_num' :
  tokenizer input delim tok_num = tokenizer input delim tok_num'.
Proof.
  destruct (tokenizer_spec input delim tok_num) as (toks & -> & H).
  symmetry. now apply tokenizer_tokenization.
Qed.

(** Tokens are never empty and hold no delimiter; put end to end they are
    the line with its delimiters taken out: no character is lost, added or
    moved. *)
Theorem tokenizer_keeps_the_characters input delim tok_num :
  ∃ toks, tokenizer input delim tok_num = Ok (handed_back toks) ∧
          Forall (token delim) toks ∧
          String.concat EmptyString toks = strip delim input.
Proof.
  destruct (tokenizer_spec input delim tok_num) as (toks & Hrun & H).
  exists toks. split; [assumption|]. eapply tokenization_tokens; eassumption.
Qed.

(** The tokens of two lines put together with a delimiter between them are
    the tokens of the first followed by those of the second. *)
Theorem tokenizer_of_joined_lines a b d delim tok_num ta tb :
  delimiter delim d →
  tokenizer a delim tok_num = Ok (handed_back ta) →
  tokenizer b delim tok_num = Ok (handed_back tb) →
  tokenizer (a +:+ String d b) delim tok_num = Ok (handed_back (ta ++ tb)).
Proof.
  intros Hd Ha Hb. apply tokenizer_tokenization in Ha, Hb.
  apply tokenizer_tokenization. now apply tokenization_app.
Qed.

Lemma tokenizer_of_joined_lines_witness :
  delimiter delim " "%char ∧
  tokenizer "ls -l" delim 5 = Ok (handed_back ["ls"; "-l"]) ∧
  tokenizer ("| wc" +:+ LF) delim 5 = Ok (handed_back ["|"; "wc"]) ∧
  tokenizer ("ls -l" +:+ String " " ("| wc" +:+ LF)) delim 5
    = Ok (handed_back (["ls"; "-l"] ++ ["|"; "wc"])).
Proof.
  assert (Ha : tokenizer "ls -l" delim 5 = Ok (handed_back ["ls"; "-l"])) by reflexivity.
  assert (Hb : tokenizer ("| wc" +:+ LF) delim 5 = Ok (handed_back ["|"; "wc"]))
    by reflexivity.
  split; [exact delimiter_space|]. split; [exact Ha|]. split; [exact Hb|].
  exact (tokenizer_of_joined_lines "ls -l" ("| wc" +:+ LF) " " delim 5
           ["ls"; "-l"] ["|"; "wc"] delimiter_space Ha Hb).
Defined.

(** Writing tokens out with one delimiter between them and tokenizing the
    line gives the tokens back; so tokenizing what the tokenizer handed back,
    written out like that, changes nothing. *)
Theorem tokenizer_of_written_tokens delim d tok_num :
  delimiter delim d →
  (∀ toks, Forall (token delim) toks →
     tokenizer (String.concat (String d EmptyString) toks) delim tok_num
       = Ok (handed_back toks)) ∧
  (∀ input toks,
     tokenizer input delim tok_num = Ok (handed_back toks) →
     tokenizer (String.concat (String d EmptyString) toks) delim tok_num
       = Ok (handed_back toks)).
Proof.
  intros Hd.
  assert (H : ∀ toks, Forall (token delim) toks →
            tokenizer (String.concat (String d EmptyString) toks) delim tok_num
              = Ok (handed_back toks)).
  { intros toks Htoks. apply tokenizer_tokenization. now apply tokenization_concat. }
  split; [exact H|]. intros input toks Hrun. apply H.
  apply tokenizer_tokenization in Hrun. now apply tokenization_tokens in Hrun.
Qed.

Lemma tokenizer_of_written_tokens_witness :
  delimiter delim " "%char ∧
  tokenizer ("  cat   a.txt" +:+ LF) delim 0 = Ok (handed_back ["cat"; "a.txt"]) ∧
  tokenizer (String.concat " " ["cat"; "a.txt"]) delim 0
    = Ok (handed_back ["cat"; "a.txt"]).
Proof.
  assert (Hrun : tokenizer ("  cat   a.txt" +:+ LF) delim 0
                 = Ok (handed_back ["cat"; "a.txt"])) by reflexivity.
  split; [exact delimiter_space|]. split; [exact Hrun|].
  exact (proj2 (tokenizer_of_written_tokens delim " " 0 delimiter_space)
           ("  cat   a.txt" +:+ LF) ["cat"; "a.txt"] Hrun).
Defined.

(** ** More on the splitter *)

(** With the token count the dispatcher passes, the splitter stays inside
    its blocks whatever the command: [head] is the vector before the first
    operator and [tail] the vector after it. *)
Theorem splitter_with_token_count pre op post :
  Forall (λ t, ¬ operator t) pre → operator op →
  ∃ head tail,
    splitter (pre ++ op :: post) (length (pre ++ op :: post)) = Ok (head, tail) ∧
    argv_of head = pre ∧ argv_of tail = post.
Proof. apply splitter_counted. Qed.

Lemma splitter_with_token_count_witness :
  Forall (λ t, ¬ operator t) ["a"; "b"; "c"; "d"] ∧ operator ">>" ∧
  ∃ head tail,
    splitter (["a"; "b"; "c"; "d"] ++ ">>" :: ["w"; "|"; "x"; "y"; "z"])
      (length (["a"; "b"; "c"; "d"] ++ ">>" :: ["w"; "|"; "x"; "y"; "z"]))
      = Ok (head, tail) ∧
    argv_of head = ["a"; "b"; "c"; "d"] ∧ argv_of tail = ["w"; "|"; "x"; "y"; "z"].
Proof.
  assert (Hpre : Forall (λ t, ¬ operator t) ["a"; "b"; "c"; "d"]).
  { repeat constructor; intros [H|[H|H]]; discriminate H. }
  assert (Hop : operator ">>") by (left; reflexivity).
  split; [exact Hpre|]. split; [exact Hop|].
  exact (splitter_with_token_count ["a"; "b"; "c"; "d"] ">>"
           ["w"; "|"; "x"; "y"; "z"] Hpre Hop).
Defined.

(** With the count 0 that the pipe handler passes for a tail, the splitter
    writes outside the tail block exactly when both sides of the first
    operator have three tokens or more; in every other case it splits there. *)
Theorem splitter_without_token_count pre op post :
  Forall (λ t, ¬ operator t) pre → operator op →
  (splitter (pre ++ op :: post) 0 = Undefined ↔ 3 ≤ length pre ∧ 3 ≤ length post) ∧
  (length pre < 3 ∨ length post < 3 →
   ∃ head tail, splitter (pre ++ op :: post) 0 = Ok (head, tail) ∧
                argv_of head = pre ∧ argv_of tail = post).
Proof.
  intros Hpre Hop. split; [now apply splitter_uncounted|]. intros Hshort.
  destruct (splitter_sound pre op post 0 Hpre Hop) as [Hbad|]; [|assumption].
  apply splitter_uncounted in Hbad; [lia | assumption | assumption].
Qed.

Lemma splitter_without_token_count_witness :
  Forall (λ t, ¬ operator t) ["a"; "b"] ∧ operator "|" ∧
  ∃ head tail, splitter (["a"; "b"] ++ "|" :: ["w"; "x"; "y"; "z"]) 0 = Ok (head, tail) ∧
               argv_of head = ["a"; "b"] ∧ argv_of tail = ["w"; "x"; "y"; "z"].
Proof.
  assert (Hpre : Forall (λ t, ¬ operator t) ["a"; "b"]).
  { repeat constructor; intros [H|[H|H]]; discriminate H. }
  assert (Hop : operator "|") by (right; right; reflexivity).
  split; [exact Hpre|]. split; [exact Hop|].
  refine (proj2 (splitter_without_token_count ["a"; "b"] "|" ["w"; "x"; "y"; "z"]
                   Hpre Hop) _).
  left. simpl. lia.
Defined.

Lemma splitter_ok cmd num_cmd head tail :
  splitter cmd num_cmd = Ok (head, tail) →
  ∃ op, operator op ∧ Forall (λ t, ¬ operator t) (argv_of head) ∧
        cmd = argv_of head ++ op :: argv_of tail.
Proof.
  destruct (first_operator cmd) as [Hplain | (pre & op & post & -> & Hpre & Hop)].
  - unfold splitter. rewrite head_loop_plain by assumption. discriminate.
  - destruct (splitter_sound pre op post num_cmd Hpre Hop)
      as [-> | (head' & tail' & -> & Hhead & Htail)]; [discriminate|].
    intros [= <- <-]. exists op. rewrite Hhead, Htail. auto.
Qed.

(** What the splitter returns puts the command back together: the head,
    free of operators, then an operator, then the tail.  In particular it
    returns nothing for a command without an operator: its first loop then
    runs into the terminating NULL. *)
Theorem splitter_result_reassembles cmd num_cmd head tail :
  splitter cmd num_cmd = Ok (head, tail) →
  ∃ op, operator op ∧ Forall (λ t, ¬ operator t) (argv_of head) ∧
        cmd = argv_of head ++ op :: argv_of tail.
Proof. apply splitter_ok. Qed.

Lemma splitter_result_reassembles_witness :
  splitter ["ls"; "-l"; ">"; "out"] 4 = Ok ([Some "ls"; Some "-l"; None], [Some "out"; None; None]) ∧
  ∃ op, operator op ∧
        Forall (λ t, ¬ operator t) (argv_of [Some "ls"; Some "-l"; None]) ∧
        ["ls"; "-l"; ">"; "out"] =
          argv_of [Some "ls"; Some "-l"; None] ++ op :: argv_of [Some "out"; None; None].
Proof.
  assert (H : splitter ["ls"; "-l"; ">"; "out"] 4
              = Ok ([Some "ls"; Some "-l"; None], [Some "out"; None; None]))
    by reflexivity.
  split; [exact H|].
  exact (splitter_result_reassembles ["ls"; "-l"; ">"; "out"] 4 _ _ H).
Defined.

(** ** Children *)

(** With enough fuel, what holds of [Fault], of every replaced image and of
    every fate of the continuation holds of every fate of the handlers. *)
Lemma special_command_all_fates w (P : fate → Prop) fuel :
  (∀ file argv, P (Image file argv)) → P Fault →
  ∀ cmd num_cmd type st k,
    length cmd < fuel → (∀ r st', all_fates P (k r st')) →
    all_fates P (special_command w fuel cmd num_cmd type st k).
Proof.
  intros Himage Hfault.
  induction fuel as [|fuel IH]; intros cmd num_cmd type st k Hfuel Hk; [lia|].
  assert (Hsafe : P Fault ∨ path_flag st = false) by now left.
  simpl. destruct (splitter cmd num_cmd) as [[head tail]| |] eqn:E.
  - apply splitter_shorter in E.
    assert (Hpipe : all_fates P
              (pipe_handle_with w (special_command w fuel) (argv_of head)
                 (argv_of tail) st k)).
    { apply all_fates_pipe_handle_with; try assumption.
      intros _ k' Hk'. apply IH; [lia | assumption]. }
    assert (Hover : all_fates P
              (overwrite_handle w (argv_of head) (argv_of tail) st k))
      by now apply all_fates_overwrite_handle.
    assert (Happ : all_fates P
              (append_handle w (argv_of head) (argv_of tail) st k))
      by now apply all_fates_append_handle.
    destruct type as [|[[q|q|]|[q|q|]|]|p]; simpl; auto.
  - exact Hfault.
  - pose proof (first_operator cmd) as [Hplain | (pre & op & post & -> & Hpre & Hop)].
    + unfold splitter in E. rewrite head_loop_plain in E by assumption. discriminate.
    + destruct (splitter_sound pre op post num_cmd Hpre Hop)
        as [H | (? & ? & H & _)]; rewrite H in E; discriminate.
Qed.

Lemma children_leave_sys w c ok failed :
  children_leave ok → children_leave failed → children_leave (sys w c ok failed).
Proof. unfold sys. destruct (succeeds w c); simpl; tauto. Qed.

Lemma children_leave_verbose st s r : children_leave r → children_leave (verbose st s r).
Proof. unfold verbose. destruct (verbose_flag st); simpl; tauto. Qed.

Lemma children_leave_summary st status r :
  children_leave r → children_leave (summary st status r).
Proof. unfold summary. destruct (verbose_flag st); simpl; tauto. Qed.

Lemma children_leave_exec_dispatch w cmd num_cmd st k :
  (∀ r st', children_leave (k r st')) →
  children_leave (exec_dispatch w cmd num_cmd st k).
Proof.
  intros Hk. unfold exec_dispatch.
  apply children_leave_sys; [|simpl; apply Hk]. split.
  - apply all_fates_verbose.
    destruct (0 <? is_special_feature cmd)%Z.
    + apply special_command_all_fates; simpl; auto.
    + do 2 apply all_fates_verbose.
      apply all_fates_exec; simpl; auto.
  - do 2 apply children_leave_verbose.
    destruct (termination w _) as [status|]; [|exact I].
    apply children_leave_sys; simpl; [|apply Hk].
    destruct (WIFSIGNALED status && _); simpl; apply Hk.
Qed.

Lemma children_leave_pwd_handle w cmd num_cmd st k :
  (∀ r st', children_leave (k r st')) →
  children_leave (pwd_handle w cmd num_cmd st k).
Proof.
  intros Hk. unfold pwd_handle. apply children_leave_verbose.
  destruct (negb _ && _); simpl; [apply Hk|].
  apply children_leave_sys; simpl; [|apply Hk].
  do 2 apply children_leave_verbose. simpl. apply Hk.
Qed.

Lemma children_leave_cd_handle w cmd num_cmd st k :
  (∀ r st', children_leave (k r st')) →
  children_leave (cd_handle w cmd num_cmd st k).
Proof.
  intros Hk. unfold cd_handle. apply children_leave_verbose.
  destruct (num_cmd =? 1); [|destruct (num_cmd =? 2)].
  - destruct (HOME w) as [home|]; simpl; [|apply Hk].
    apply children_leave_verbose, children_leave_sys; simpl; [|apply Hk].
    apply children_leave_verbose, Hk.
  - apply children_leave_sys; simpl; [|apply Hk].
    destruct (verbose_flag st); [|apply Hk].
    apply children_leave_sys; simpl; apply Hk.
  - simpl. apply Hk.
Qed.

Lemma children_leave_turn w cmds num_cmds st again :
  (∀ st', children_leave (again st')) →
  children_leave (turn w cmds num_cmds st again).
Proof.
  intros Hagain. unfold turn. destruct cmds as [|cmd0 cmds]; [apply Hagain|].
  assert (Hnext : ∀ r st', children_leave (summary st' r (again st')))
    by (intros; apply children_leave_summary, Hagain).
  apply children_leave_verbose.
  destruct (libc.strcmp cmd0 "exit"); [exact I|].
  destruct (libc.strcmp cmd0 "verbose"); [apply Hnext|].
  destruct (libc.strcmp cmd0 "brief"); [apply Hnext|].
  destruct (libc.strcmp cmd0 "pwd"); [now apply children_leave_pwd_handle|].
  destruct (libc.strcmp cmd0 "cd"); [now apply children_leave_cd_handle|].
  now apply children_leave_exec_dispatch.
Qed.

(** Whatever is typed and whatever the operating system answers, no forked
    process comes back to the prompt: each child of the shell, and each
    process a child forks, ends in [_Exit], in a replaced image or in
    undefined behaviour. *)
Theorem children_never_reach_the_prompt w stdin st :
  children_leave (driver w stdin st).
Proof.
  unfold driver. simpl. revert st.
  induction stdin as [|input stdin IH]; intros st.
  - simpl. apply children_leave_verbose. exact I.
  - destruct (driver_loop_unfold w input stdin st) as (toks & _ & ->).
    simpl. now apply children_leave_turn.
Qed.

(** ** Built-in commands *)

Lemma forkless_sys w c ok failed :
  c ≠ sys_pipe → forkless ok → forkless failed → forkless (sys w c ok failed).
Proof.
  intros Hc Hok Hfailed. unfold sys.
  destruct (succeeds w c); apply forkless_ev; auto; destruct c; simpl; congruence.
Qed.

Lemma forkless_pwd_handle w cmd num_cmd st k :
  (∀ r st', forkless (k r st')) → forkless (pwd_handle w cmd num_cmd st k).
Proof.
  intros Hk. unfold pwd_handle. apply forkless_verbose.
  destruct (negb _ && _); [apply forkless_ev; auto|].
  apply forkless_sys; [discriminate | | apply forkless_ev; auto].
  do 2 apply forkless_verbose. apply forkless_ev; auto.
Qed.

Lemma forkless_cd_handle w cmd num_cmd st k :
  (∀ r st', forkless (k r st')) → forkless (cd_handle w cmd num_cmd st k).
Proof.
  intros Hk. unfold cd_handle. apply forkless_verbose.
  destruct (num_cmd =? 1); [|destruct (num_cmd =? 2)].
  - destruct (HOME w) as [home|]; apply forkless_ev; auto.
    + apply forkless_verbose, forkless_sys; [discriminate | | apply forkless_ev; auto].
      apply forkless_verbose, Hk.
    + apply forkless_ev; auto.
  - apply forkless_sys; [discriminate | | apply forkless_ev; auto].
    destruct (verbose_flag st); [|apply Hk].
    apply forkless_sys; [discriminate | |]; apply forkless_ev; auto.
  - apply forkless_ev; auto.
Qed.

Lemma forkless_summary st status r : forkless r → forkless (summary st status r).
Proof.
  unfold summary. destruct (verbose_flag st); [|auto].
  intros H. do 2 (apply forkless_ev; [reflexivity|]). exact H.
Qed.

Lemma forks_verbose st s r : forks (verbose st s r) = forks r.
Proof. unfold verbose. now destruct (verbose_flag st). Qed.

(** The commands [exit], [verbose], [brief], [pwd] and [cd] are carried out
    by the shell's own process: a turn of the loop whose first token is one of
    them forks nothing and creates no pipe.  Every other first token makes the
    turn fork, whenever [fork] succeeds. *)
Theorem builtins_run_in_the_shell_process w cmd0 args num_cmds st :
  (builtin cmd0 → forkless (turn w (cmd0 :: args) num_cmds st (halt 0%Z))) ∧
  (¬ builtin cmd0 → succeeds w sys_fork = true →
   0 < forks (turn w (cmd0 :: args) num_cmds st (halt 0%Z))).
Proof.
  assert (Hhalt : ∀ st', forkless (halt 0%Z st')) by (intros; split; reflexivity).
  assert (Hnext : ∀ (r : Z) st', forkless (summary st' r (halt 0%Z st')))
    by (intros; apply forkless_summary, Hhalt).
  split.
  - intros Hb. unfold turn. apply forkless_verbose.
    destruct (libc.strcmp cmd0 "exit") eqn:Hexit;
      [apply forkless_ev; [reflexivity | split; reflexivity]|].
    destruct (libc.strcmp cmd0 "verbose") eqn:Hverbose; [apply Hnext|].
    destruct (libc.strcmp cmd0 "brief") eqn:Hbrief; [apply Hnext|].
    destruct (libc.strcmp cmd0 "pwd") eqn:Hpwd; [now apply forkless_pwd_handle|].
    destruct (libc.strcmp cmd0 "cd") eqn:Hcd; [now apply forkless_cd_handle|].
    exfalso. unfold libc.strcmp in *.
    destruct Hb as [-> | [-> | [-> | [-> | ->]]]]; discriminate.
  - intros Hb Hfork. rewrite turn_dispatches by assumption.
    rewrite forks_verbose. unfold exec_dispatch.
    rewrite sys_succeeds by assumption. simpl. lia.
Qed.

Lemma builtins_run_in_the_shell_process_witness :
  builtin "cd" ∧ forkless (turn calm ["cd"; "/tmp"] 2 chatty (halt 0%Z)).
Proof.
  assert (Hb : builtin "cd") by (right; right; right; right; reflexivity).
  split; [exact Hb|].
  exact (proj1 (builtins_run_in_the_shell_process calm "cd" ["/tmp"] 2 chatty) Hb).
Defined.

(** [cd] returns 0 or -1 and leaves the shell's variables alone.  It returns
    0 exactly when it was given no argument, HOME is set and the change to it
    succeeds, or it was given one argument and the change to it succeeds (and,
    in verbose mode, the directory can then be read back).  It calls [chdir]
    on nothing but HOME or its argument; with more arguments it calls nothing. *)
Theorem cd_handle_status w cmd num_cmd st :
  ∃ r, fate_of (cd_handle w cmd num_cmd st halt) = Returns r st ∧
       (r = 0%Z ∨ r = (-1)%Z) ∧
       (r = 0%Z ↔
          (num_cmd = 1 ∧ ∃ home, HOME w = Some home ∧
                                 succeeds w (sys_chdir (Some home)) = true) ∨
          (num_cmd = 2 ∧ succeeds w (sys_chdir (cmd !! 1)) = true ∧
           (verbose_flag st = true → succeeds w sys_getcwd = true))) ∧
       (∀ c ok, In (Sys c ok) (events (cd_handle w cmd num_cmd st halt)) →
          (num_cmd = 1 ∧ (c = sys_getenv "HOME" ∨ c = sys_chdir (HOME w))) ∨
          (num_cmd = 2 ∧ (c = sys_chdir (cmd !! 1) ∨ c = sys_getcwd))).
Proof.
  unfold cd_handle, verbose, sys.
  destruct (Nat.eqb_spec num_cmd 1) as [->|H1]; [|destruct (Nat.eqb_spec num_cmd 2) as [->|H2]].
  - simpl. destruct (HOME w) as [home|] eqn:Hhome.
    + destruct (succeeds w (sys_chdir (Some home))) eqn:Hcd;
        destruct (verbose_flag st) eqn:Hv; simpl;
        eexists; (split; [reflexivity|]); (split; [auto|]);
        (split; [split; [intros; try discriminate; left; eauto |
                         intros [(_ & home' & [= <-] & H) | (H & _)];
                           [congruence | discriminate]]|]);
        intros c ok; simpl; intros HIn; left; (split; [reflexivity|]);
        intuition congruence.
    + destruct (verbose_flag st) eqn:Hv; simpl;
        eexists; (split; [reflexivity|]); (split; [auto|]);
        (split; [split; [discriminate |
                         intros [(_ & home' & H & _) | (H & _)]; discriminate]|]);
        intros c ok; simpl; intros HIn; left; (split; [reflexivity|]);
        intuition congruence.
  - simpl. destruct (succeeds w (sys_chdir (cmd !! 1))) eqn:Hcd;
      destruct (verbose_flag st) eqn:Hv; simpl;
      try destruct (succeeds w sys_getcwd) eqn:Hcwd; simpl;
      eexists; (split; [reflexivity|]); (split; [auto|]);
      (split; [split; [intros; try discriminate; right; auto |
                       intros [(H & _) | (_ & H & H')];
                         [discriminate | try discriminate;
                                         try (specialize (H' eq_refl)); congruence]]|]);
      intros c ok; simpl; intros HIn; right; (split; [reflexivity|]);
      intuition congruence.
  - destruct (verbose_flag st); simpl;
      eexists; (split; [reflexivity|]); (split; [auto|]);
      (split; [split; [discriminate | intros [(H & _) | (H & _)]; contradiction]|]);
      intros c ok; simpl; intuition congruence.
Qed.

(** [pwd] makes no system call but [getcwd]: it opens no file and
    duplicates no descriptor, so a redirection or pipe written after it is
    not carried out.  With an operator among its arguments it is accepted all
    the same: it prints the directory on its own standard output and returns
    0.  With other arguments it prints an error, returns -1 and does not look
    the directory up. *)
Theorem pwd_handle_ignores_operators w cmd num_cmd st :
  (∀ c ok, In (Sys c ok) (events (pwd_handle w cmd num_cmd st halt)) → c = sys_getcwd) ∧
  (num_cmd = 1 ∨ is_special_feature cmd ≠ 0%Z →
   succeeds w sys_getcwd = true →
   fate_of (pwd_handle w cmd num_cmd st halt) = Returns 0 st ∧
   last (omap stdout_of (events (pwd_handle w cmd num_cmd st halt)))
     = Some (getcwd w +:+ LF)) ∧
  (num_cmd ≠ 1 → is_special_feature cmd = 0%Z →
   fate_of (pwd_handle w cmd num_cmd st halt) = Returns (-1) st ∧
   events (pwd_handle w cmd num_cmd st halt) =
     (if verbose_flag st
      then [Printf ("Getting current working directory..." +:+ LF)] else []) ++
     [Printf ("Error:  pwd should not have any arguments." +:+ LF)]).
Proof.
  unfold pwd_handle, verbose, sys. split; [|split].
  - intros c ok.
    destruct (negb (num_cmd =? 1) && (is_special_feature cmd =? 0)%Z),
      (verbose_flag st), (succeeds w sys_getcwd); simpl; intuition congruence.
  - intros Hok Hcwd. rewrite Hcwd.
    replace (negb (num_cmd =? 1) && (is_special_feature cmd =? 0)%Z) with false.
    + destruct (verbose_flag st); split; reflexivity.
    + symmetry. apply andb_false_iff. destruct Hok as [-> | H]; [now left | right].
      now apply Z.eqb_neq.
  - intros Hn Hplain.
    apply Nat.eqb_neq in Hn. rewrite Hn, Hplain. simpl.
    destruct (verbose_flag st); split; reflexivity.
Qed.

Lemma pwd_handle_ignores_operators_witness :
  (2 = 1 ∨ is_special_feature ["pwd"; ">"; "out"] ≠ 0%Z) ∧
  succeeds calm sys_getcwd = true ∧
  fate_of (pwd_handle calm ["pwd"; ">"; "out"] 3 brief halt) = Returns 0 brief ∧
  last (omap stdout_of (events (pwd_handle calm ["pwd"; ">"; "out"] 3 brief halt)))
    = Some (getcwd calm +:+ LF).
Proof.
  assert (H : 2 = 1 ∨ is_special_feature ["pwd"; ">"; "out"] ≠ 0%Z)
    by (right; discriminate).
  split; [exact H|]. split; [reflexivity|].
  refine (proj1 (proj2 (pwd_handle_ignores_operators calm ["pwd"; ">"; "out"] 3 brief))
            _ eq_refl).
  right. discriminate.
Defined.

(** A line whose first token is [exit] ends the shell, whatever follows
    the token on the line and whatever lines stand after it in the input:
    they are not read. *)
Theorem driver_stops_at_exit w line args stdin st :
  tokenizer line delim (String.length line) = Ok (handed_back ("exit" :: args)) →
  driver_loop w (line :: stdin) st =
    Ev (Printf "tinysh> ") (verbose st LF (farewell st)).
Proof.
  intros Hrun. cbn [driver_loop]. rewrite Hrun.
  cbn [handed_back from_option]. rewrite argv_of_block_of. reflexivity.
Qed.

Lemma driver_stops_at_exit_witness :
  tokenizer ("exit | wc" +:+ LF) delim (String.length ("exit | wc" +:+ LF))
    = Ok (handed_back ("exit" :: ["|"; "wc"])) ∧
  driver_loop calm (("exit | wc" +:+ LF) :: ["ls" +:+ LF]) chatty =
    Ev (Printf "tinysh> ") (verbose chatty LF (farewell chatty)).
Proof.
  split; [reflexivity|].
  exact (driver_stops_at_exit calm ("exit | wc" +:+ LF) ["|"; "wc"] ["ls" +:+ LF]
           chatty eq_refl).
Defined.

(** ** What the dispatcher reports for redirections and pipelines *)



Lemma fate_of_redirect w flag how head tail st k :
  succeeds w sys_fork = true → succeeds w sys_waitpid = true →
  fate_of (redirect w flag how head tail st k) = fate_of (k 0%Z st).
Proof.
  intros Hfork Hwait. unfold redirect.
  rewrite (sys_succeeds w sys_fork) by assumption. cbn [fate_of].
  rewrite fate_of_verbose, (sys_succeeds w sys_waitpid) by assumption.
  cbn [fate_of]. now rewrite fate_of_verbose.
Qed.

(** A command whose first operator is a redirection is reported as
    successful whenever the forks and the waits succeed: in the calling
    process the dispatcher returns EXIT_SUCCESS whether or not the file could
    be opened and whether or not the program was found or ended well. *)
Theorem redirection_is_reported_successful w pre op post st k :
  Forall (λ t, ¬ operator t) pre → op = ">" ∨ op = ">>" →
  succeeds w sys_fork = true → succeeds w sys_waitpid = true →
  succeeds w sys_wait = true →
  fate_of (exec_dispatch w (pre ++ op :: post) (length (pre ++ op :: post)) st k)
    = fate_of (k EXIT_SUCCESS st).
Proof.
  intros Hpre Hop Hfork Hwaitpid Hwait.
  assert (Hop' : operator op) by (unfold operator; tauto).
  destruct (splitter_counted pre op post Hpre Hop') as (head & tail & Hsplit & Hhead & Htail).
  unfold exec_dispatch. rewrite (sys_succeeds w sys_fork) by assumption.
  cbn [fate_of]. rewrite !fate_of_verbose.
  match goal with
  | |- fate_of (match termination w ?c with _ => _ end) = _ =>
    assert (Hchild : fate_of c = Exits EXIT_SUCCESS)
  end.
  { rewrite fate_of_verbose, is_special_feature_skip by assumption.
    destruct Hop as [-> | ->]; simpl is_special_feature; cbn [Z.ltb Z.compare];
      cbn [special_command]; rewrite Hsplit; cbv iota beta;
      unfold overwrite_handle, append_handle;
      rewrite fate_of_verbose, fate_of_redirect by assumption; reflexivity. }
  unfold termination. rewrite Hchild.
  rewrite (sys_succeeds w sys_wait) by assumption. reflexivity.
Qed.

Lemma redirection_is_reported_successful_witness :
  Forall (λ t, ¬ operator t) ["nosuch"] ∧ (">" = ">" ∨ ">" = ">>") ∧
  succeeds barren sys_fork = true ∧ succeeds barren sys_waitpid = true ∧
  succeeds barren sys_wait = true ∧
  fate_of (exec_dispatch barren (["nosuch"] ++ ">" :: ["out"])
             (length (["nosuch"] ++ ">" :: ["out"])) brief halt)
    = fate_of (halt EXIT_SUCCESS brief).
Proof.
  assert (Hpre : Forall (λ t, ¬ operator t) ["nosuch"]).
  { repeat constructor; intros [H|[H|H]]; discriminate H. }
  assert (Hop : ">" = ">" ∨ ">" = ">>") by (left; reflexivity).
  split; [exact Hpre|]. split; [exact Hop|].
  split; [reflexivity|]. split; [reflexivity|]. split; [reflexivity|].
  exact (redirection_is_reported_successful barren ["nosuch"] ">" ["out"] brief halt
           Hpre Hop eq_refl eq_refl eq_refl).
Defined.





(** ** The vectors handed to programs *)

Lemma all_events_Forall Q r : all_events Q r ↔ Forall Q (events r).
Proof.
  induction r as [f | e r IH | c IHc p IHp]; simpl.
  - split; [constructor | trivial].
  - rewrite Forall_cons. tauto.
  - rewrite Forall_app. tauto.
Qed.

Lemma all_events_launches R r :
  all_events (on_launch R) r → Forall (λ l, R l.1 l.2) (launches r).
Proof.
  rewrite all_events_Forall. unfold launches.
  induction 1 as [|e es He _ IH]; [constructor|].
  destruct e; simpl; try exact IH. constructor; [exact He | exact IH].
Qed.

Section Launches.

Variable w : world.
Variable R : cptr → list string → Prop.
Variable pf : bool.                        (* the mode: [path_flag] *)

Lemma all_events_sys c ok failed :
  all_events (on_launch R) ok → all_events (on_launch R) failed →
  all_events (on_launch R) (sys w c ok failed).
Proof. unfold sys. destruct (succeeds w c); simpl; tauto. Qed.

Lemma all_events_verbose st s r :
  all_events (on_launch R) r → all_events (on_launch R) (verbose st s r).
Proof. unfold verbose. destruct (verbose_flag st); simpl; tauto. Qed.

Lemma all_events_close_noting d r :
  all_events (on_launch R) r → all_events (on_launch R) (close_noting w d r).
Proof. intros H. apply all_events_sys; simpl; tauto. Qed.

Lemma all_events_drop_saved_stdout st k :
  (∀ st', path_flag st' = path_flag st → all_events (on_launch R) (k st')) →
  all_events (on_launch R) (drop_saved_stdout w st k).
Proof.
  intros H. unfold drop_saved_stdout.
  destruct (verbose_flag st && stdout_flag st); simpl; [split; [exact I|]|]; now apply H.
Qed.

(** The launcher hands [cmd] itself to [execvp], under the name [cmd[0]] in
    environment mode. *)
Lemma all_events_exec_path_loop cmd dirs : ∀ i st k,
  path_flag st = pf →
  (∀ file, R file cmd) →
  (∀ r st', path_flag st' = pf → all_events (on_launch R) (k r st')) →
  all_events (on_launch R) (exec_path_loop w cmd dirs i st k).
Proof.
  induction dirs as [|dir dirs IH]; intros i st k Hpf HR Hk; simpl.
  - split; [exact I | now apply Hk].
  - destruct (cmd !! 0); [|exact I].
    apply all_events_drop_saved_stdout. simpl. intros st' Hst'.
    destruct (execvp w _ cmd) as [|r errno]; simpl; [split; [apply HR | exact I]|].
    split; [apply HR|].
    destruct (r =? -1)%Z; simpl;
      [split; [exact I|]; apply Hk; simpl in Hst'; congruence
      | apply IH; [simpl in Hst'; congruence | assumption | assumption]].
Qed.

Lemma all_events_exec cmd st k :
  path_flag st = pf →
  (∀ file, (pf = false → file = cmd !! 0) → R file cmd) →
  (∀ r st', path_flag st' = pf → all_events (on_launch R) (k r st')) →
  all_events (on_launch R) (exec w cmd st k).
Proof.
  intros Hpf HR Hk. unfold exec. destruct (path_flag st) eqn:Hflag; simpl.
  - apply all_events_drop_saved_stdout. intros st' Hst'.
    apply all_events_exec_path_loop; [congruence | | assumption].
    intros file. apply HR. congruence.
  - apply all_events_drop_saved_stdout. intros st' Hst'.
    assert (Hlaunch : R (cmd !! 0) cmd) by now apply HR.
    assert (Hret : all_events (on_launch R) (k (-1)%Z st')) by (apply Hk; congruence).
    destruct (execvp w _ cmd) as [|r errno]; simpl; [tauto|].
    split; [exact Hlaunch|].
    destruct (r =? -1)%Z; [|exact Hret].
    destruct (errno =? ENOENT)%Z; simpl; [|split; [exact I|]];
      now apply all_events_verbose.
Qed.

(** one step through the text of a handler *)
Ltac launched :=
  repeat first
    [ apply all_events_sys
    | apply all_events_verbose
    | apply all_events_close_noting
    | apply all_events_exec; [assumption | assumption | intros ? ? ?]
    | match goal with
      | H : ∀ r st, _ → all_events _ (_ r st) |- all_events _ (_ _ _) =>
        apply H; simpl; assumption
      | |- all_events _ (Forked _ _) => split
      | |- all_events _ (Ev _ _) => split; [exact I|]
      | |- all_events _ (if ?b then _ else _) => destruct b
      | |- all_events _ ((if ?b then _ else _) _) => destruct b
      | |- all_events _ (id _) => unfold id
      end
    | progress cbn beta ].

Lemma all_events_redirect flag how head tail st k :
  path_flag st = pf →
  (∀ file, (pf = false → file = head !! 0) → R file head) →
  (∀ r st', path_flag st' = pf → all_events (on_launch R) (k r st')) →
  all_events (on_launch R) (redirect w flag how head tail st k).
Proof. intros Hpf HR Hk. unfold redirect. launched. Qed.

Lemma all_events_pipe_handle_with special_command head tail st k :
  path_flag st = pf →
  (∀ file, (pf = false → file = head !! 0) → R file head) →
  ((is_special_feature tail ≤ 0)%Z →
   ∀ file, (pf = false → file = tail !! 0) → R file tail) →
  ((0 < is_special_feature tail)%Z →
   ∀ k', (∀ r st', path_flag st' = pf → all_events (on_launch R) (k' r st')) →
         all_events (on_launch R)
           (special_command tail 0 (is_special_feature tail) st k')) →
  (∀ r st', path_flag st' = pf → all_events (on_launch R) (k r st')) →
  all_events (on_launch R) (pipe_handle_with w special_command head tail st k).
Proof.
  intros Hpf HR HRtail Hsc Hk. unfold pipe_handle_with.
  destruct (Z.ltb_spec 0 (is_special_feature tail)) as [Hop|Hplain].
  - launched. apply Hsc; [assumption|]. intros r st' Hst'. launched.
  - specialize (HRtail Hplain). launched.
Qed.

End Launches.

Lemma segment_of_head head op tail : segment_of (head ++ op :: tail) head.
Proof. exists [], (op :: tail). reflexivity. Qed.

Lemma segment_of_tail head op tail v :
  segment_of tail v → segment_of (head ++ op :: tail) v.
Proof.
  intros (a & b & ->). exists (head ++ op :: a), b.
  now rewrite <- !app_assoc.
Qed.

Lemma segment_of_refl cmd : segment_of cmd cmd.
Proof. exists [], []. now rewrite app_nil_r. Qed.

Lemma all_events_special_command w R pf fuel : ∀ cmd num_cmd type st k,
  path_flag st = pf →
  (∀ v file, segment_of cmd v → Forall (λ t, ¬ operator t) v →
             (pf = false → file = v !! 0) → R file v) →
  (∀ r st', path_flag st' = pf → all_events (on_launch R) (k r st')) →
  all_events (on_launch R) (special_command w fuel cmd num_cmd type st k).
Proof.
  induction fuel as [|fuel IH]; intros cmd num_cmd type st k Hpf HR Hk; [exact I|].
  simpl. destruct (splitter cmd num_cmd) as [[head tail]| |] eqn:E; try exact I.
  apply splitter_ok in E as (op & Hop & Hhead & ->).
  assert (HRhead : ∀ file, (pf = false → file = argv_of head !! 0) →
                           R file (argv_of head)).
  { intros file Hfile. apply HR; auto using segment_of_head. }
  assert (Hpipe : all_events (on_launch R)
            (pipe_handle_with w (special_command w fuel) (argv_of head)
               (argv_of tail) st k)).
  { apply (all_events_pipe_handle_with w R pf); try assumption.
    - intros Hplain file Hfile. apply HR; auto.
      + apply segment_of_tail, segment_of_refl.
      + apply is_special_feature_zero.
        pose proof (is_special_feature_range (argv_of tail)). lia.
    - intros _ k' Hk'. apply IH; try assumption.
      intros v file Hv. apply HR. now apply segment_of_tail. }
  assert (Hover : all_events (on_launch R)
            (overwrite_handle w (argv_of head) (argv_of tail) st k))
    by (apply all_events_verbose; now apply (all_events_redirect w R pf)).
  assert (Happ : all_events (on_launch R)
            (append_handle w (argv_of head) (argv_of tail) st k))
    by (apply all_events_verbose; now apply (all_events_redirect w R pf)).
  destruct type as [|[[q|q|]|[q|q|]|]|p]; simpl; auto; split; try exact I;
    now apply Hk.
Qed.

(** Whatever the command, each vector the dispatcher's processes hand to
    [execvp] is a run of consecutive tokens of the command with no operator
    in it: no operator and nothing from the other side of one reaches a
    program.  In environment mode the program is looked up under the first
    token of that vector. *)
Theorem programs_get_operator_free_segments w cmd num_cmd st :
  Forall (λ l, segment_of cmd l.2 ∧ Forall (λ t, ¬ operator t) l.2 ∧
               (path_flag st = false → l.1 = l.2 !! 0))
    (launches (exec_dispatch w cmd num_cmd st halt)).
Proof.
  set (R := λ (file : option string) (v : list string),
         segment_of cmd v ∧ Forall (λ t, ¬ operator t) v ∧
         (path_flag st = false → file = v !! 0)).
  apply (all_events_launches R). unfold exec_dispatch.
  apply all_events_sys; [|simpl; tauto]. split.
  - apply all_events_verbose.
    destruct (0 <? is_special_feature cmd)%Z eqn:E.
    + apply (all_events_special_command w R (path_flag st)); [reflexivity | |].
      * intros v file Hseg Hplain Hfile. now split.
      * intros r st' _. exact I.
    + do 2 apply all_events_verbose.
      apply (all_events_exec w R (path_flag st)); [reflexivity | |].
      * intros file Hfile. split; [apply segment_of_refl|]. split; [|assumption].
        apply is_special_feature_zero. apply Z.ltb_ge in E.
        pose proof (is_special_feature_range cmd). lia.
      * intros r st' _. exact I.
  - do 2 apply all_events_verbose.
    destruct (termination w _) as [status|]; [|exact I].
    apply all_events_sys; simpl; [|tauto].
    destruct (WIFSIGNALED status && _); simpl; tauto.
Qed.

(** ** What the launcher comes back with *)

Lemma fate_of_drop_saved_stdout w st k :
  ∃ st', path st' = path st ∧ path_flag st' = path_flag st ∧
         verbose_flag st' = verbose_flag st ∧
         fate_of (drop_saved_stdout w st k) = fate_of (k st').
Proof.
  unfold drop_saved_stdout. destruct (verbose_flag st && stdout_flag st).
  - exists (set_stdout_flag st false). repeat split.
  - exists st. repeat split.
Qed.

Lemma fate_of_exec_path_loop w cmd dirs : ∀ i st,
  match fate_of (exec_path_loop w cmd dirs i st halt) with
  | Returns r st' =>
    r = (-1)%Z ∧ path_flag st' = path_flag st ∧ verbose_flag st' = verbose_flag st
  | Image file argv => argv = cmd ∧ execvp w file cmd = Replaced
  | Fault => cmd = []
  | Exits _ | Stuck => False
  end.
Proof.
  induction dirs as [|dir dirs IH]; intros i st; simpl; [auto|].
  destruct cmd as [|cmd0 args] eqn:Hcmd; simpl; [reflexivity|]. rewrite <- Hcmd.
  destruct (fate_of_drop_saved_stdout w (set_path_entry st i (libc.strcat dir cmd0))
    (λ st0, match execvp w (Some (libc.strcat dir cmd0)) cmd with
            | Replaced =>
              Ev (Execvp (Some (libc.strcat dir cmd0)) cmd Replaced)
                 (Done (Image (Some (libc.strcat dir cmd0)) cmd))
            | Returned r errno =>
              Ev (Execvp (Some (libc.strcat dir cmd0)) cmd (Returned r errno))
                 (if (r =? -1)%Z
                  then Ev (Perror "Error executing program.") (halt (-1)%Z st0)
                  else exec_path_loop w cmd dirs (S i) st0 halt)
            end)) as (st' & _ & Hflag & Hv & ->).
  simpl in Hflag, Hv.
  destruct (execvp w _ cmd) as [|r errno] eqn:Hrun; simpl; [auto|].
  destruct (r =? -1)%Z; simpl; [auto|].
  specialize (IH (S i) st'). rewrite Hcmd in *.
  destruct (fate_of _); try rewrite Hflag, Hv in IH; exact IH.
Qed.

(** Given a vector that is not empty and, in configured mode, a PathList
    that is not empty, the launcher comes back with -1 and nothing else (with
    the mode flags as they were), or it does not come back because the process
    has become the program, which [execvp] was given the vector itself for.
    It never ends the process itself. *)
Theorem launcher_returns_only_failure w cmd0 args st :
  (path_flag st = true → path st ≠ []) →
  match fate_of (exec w (cmd0 :: args) st halt) with
  | Returns r st' =>
    r = (-1)%Z ∧ path_flag st' = path_flag st ∧ verbose_flag st' = verbose_flag st
  | Image file argv => argv = cmd0 :: args ∧ execvp w file (cmd0 :: args) = Replaced
  | Fault | Exits _ | Stuck => False
  end.
Proof.
  intros _. unfold exec. destruct (path_flag st) eqn:Hflag; simpl.
  - destruct (fate_of_drop_saved_stdout w st
                (λ st0, exec_path_loop w (cmd0 :: args) (path st0) 0 st0 halt))
      as (st' & _ & Hflag' & Hv & ->).
    pose proof (fate_of_exec_path_loop w (cmd0 :: args) (path st') 0 st') as H.
    destruct (fate_of _); try exact H.
    + discriminate H.
    + destruct H as (Hr & Hf & Hv'). split; [exact Hr|]. split; congruence.
  - unfold drop_saved_stdout.
    destruct (verbose_flag st && stdout_flag st); cbn [fate_of];
      (destruct (execvp w _ (cmd0 :: args)) as [|r errno] eqn:Hrun; cbn [fate_of]; [auto|];
       destruct (r =? -1)%Z; [destruct (errno =? ENOENT)%Z|]; cbn [fate_of];
       rewrite ?fate_of_verbose; simpl; auto).
Qed.

Lemma launcher_returns_only_failure_witness :
  (path_flag (configured ["/bin/"]) = true → path (configured ["/bin/"]) ≠ []) ∧
  match fate_of (exec barren ("ls" :: ["-l"]) (configured ["/bin/"]) halt) with
  | Returns r st' =>
    r = (-1)%Z ∧ path_flag st' = path_flag (configured ["/bin/"]) ∧
    verbose_flag st' = verbose_flag (configured ["/bin/"])
  | Image file argv => argv = "ls" :: ["-l"] ∧ execvp barren file ("ls" :: ["-l"]) = Replaced
  | Fault | Exits _ | Stuck => False
  end.
Proof.
  assert (H : path_flag (configured ["/bin/"]) = true → path (configured ["/bin/"]) ≠ [])
    by (intros _; discriminate).
  split; [exact H|].
  exact (launcher_returns_only_failure barren "ls" ["-l"] (configured ["/bin/"]) H).
Defined.

(** ** Verbose mode and the programs launched *)

Lemma launches_ev e r : launch_of e = None → launches (Ev e r) = launches r.
Proof. intros H. unfold launches. simpl. now rewrite H. Qed.

Lemma launches_execvp file argv res r :
  launches (Ev (Execvp file argv res) r) = (file, argv) :: launches r.
Proof. reflexivity. Qed.

Lemma launches_forked c p : launches (Forked c p) = launches c ++ launches p.
Proof. unfold launches. simpl. apply omap_app. Qed.

Lemma launches_sys w c ok failed :
  launches (sys w c ok failed) = if succeeds w c then launches ok else launches failed.
Proof. unfold sys. destruct (succeeds w c); now apply launches_ev. Qed.

Lemma launches_verbose st s r : launches (verbose st s r) = launches r.
Proof. unfold verbose. destruct (verbose_flag st); [now apply launches_ev | reflexivity]. Qed.

Lemma launches_summary st status r : launches (summary st status r) = launches r.
Proof.
  unfold summary. destruct (verbose_flag st); [|reflexivity].
  now rewrite !launches_ev.
Qed.

Lemma launches_close_noting w d r : launches (close_noting w d r) = launches r.
Proof.
  unfold close_noting. rewrite launches_sys.
  destruct (succeeds w _); [reflexivity | now apply launches_ev].
Qed.

Lemma launches_drop_saved_stdout w st k :
  ∃ st', same_paths st' st ∧ launches (drop_saved_stdout w st k) = launches (k st').
Proof.
  unfold drop_saved_stdout. destruct (verbose_flag st && stdout_flag st).
  - exists (set_stdout_flag st false). split; [split; reflexivity|]. now apply launches_ev.
  - exists st. split; [split; reflexivity | reflexivity].
Qed.

Lemma same_paths_sym st st' : same_paths st st' → same_paths st' st.
Proof. unfold same_paths. intuition congruence. Qed.

Lemma same_paths_trans st st' st'' :
  same_paths st st' → same_paths st' st'' → same_paths st st''.
Proof. unfold same_paths. intuition congruence. Qed.

Lemma same_paths_stdout st st' b :
  same_paths st st' → same_paths (set_stdout_flag st b) st'.
Proof. unfold same_paths. simpl. tauto. Qed.

Lemma same_paths_verbose st st' b b' :
  same_paths st st' → same_paths (set_verbose_flag st b) (set_verbose_flag st' b').
Proof. unfold same_paths. simpl. tauto. Qed.

Lemma same_paths_entry st st' i s :
  same_paths st st' → same_paths (set_path_entry st i s) (set_path_entry st' i s).
Proof. unfold same_paths. simpl. intros [-> ->]. tauto. Qed.

Lemma alike_fails k k' :
  alike k k' → alike (λ _ st, k (-1)%Z st) (λ _ st, k' (-1)%Z st).
Proof. intros H r r' st st' Hst. now apply H. Qed.

Lemma alike_status k k' :
  alike k k' →
  alike (λ r st, if (r =? -1)%Z then k (-1)%Z st else k 0%Z st)
        (λ r st, if (r =? -1)%Z then k' (-1)%Z st else k' 0%Z st).
Proof.
  intros H r r' st st' Hst. destruct (r =? -1)%Z, (r' =? -1)%Z; now apply H.
Qed.

Section SameLaunches.

Variable w : world.
Hypothesis dup_succeeds : succeeds w (sys_dup STDOUT_FILENO) = true.

Lemma same_launches_exec_path_loop cmd dirs : ∀ i st st' k k',
  same_paths st st' → alike k k' →
  launches (exec_path_loop w cmd dirs i st k) =
  launches (exec_path_loop w cmd dirs i st' k').
Proof.
  induction dirs as [|dir dirs IH]; intros i st st' k k' Hst Hk; simpl.
  - rewrite !launches_ev by reflexivity. now apply Hk.
  - destruct (cmd !! 0) as [cmd0|]; [|reflexivity].
    match goal with
    | |- launches (drop_saved_stdout w ?s ?f) = launches (drop_saved_stdout w ?s' ?f') =>
      destruct (launches_drop_saved_stdout w s f) as (st1 & Hst1 & ->);
      destruct (launches_drop_saved_stdout w s' f') as (st1' & Hst1' & ->)
    end.
    assert (H1 : same_paths st1 st1').
    { eapply same_paths_trans; [exact Hst1|].
      eapply same_paths_trans; [|apply same_paths_sym; exact Hst1'].
      now apply same_paths_entry. }
    destruct (execvp w _ cmd) as [|r errno]; [reflexivity|].
    rewrite !launches_execvp. f_equal.
    destruct (r =? -1)%Z; [rewrite !launches_ev by reflexivity; now apply Hk|].
    now apply IH.
Qed.

Lemma same_launches_exec cmd st st' k k' :
  same_paths st st' → alike k k' →
  launches (exec w cmd st k) = launches (exec w cmd st' k').
Proof.
  intros Hst Hk. unfold exec. destruct Hst as [Hpath Hflag]. rewrite <- Hflag.
  assert (Hst : same_paths st st') by now split.
  destruct (negb (path_flag st));
    match goal with
    | |- launches (drop_saved_stdout w ?s ?f) = launches (drop_saved_stdout w ?s' ?f') =>
      destruct (launches_drop_saved_stdout w s f) as (st1 & Hst1 & ->);
      destruct (launches_drop_saved_stdout w s' f') as (st1' & Hst1' & ->)
    end;
    assert (H1 : same_paths st1 st1')
      by (eapply same_paths_trans; [exact Hst1|];
          eapply same_paths_trans; [exact Hst | apply same_paths_sym; exact Hst1']).
  - destruct (execvp w _ cmd) as [|r errno]; [reflexivity|].
    rewrite !launches_execvp. f_equal.
    destruct (r =? -1)%Z; [|now apply Hk].
    destruct (errno =? ENOENT)%Z; rewrite ?launches_ev by reflexivity;
      rewrite !launches_verbose; now apply Hk.
  - destruct H1 as [Hp1 Hf1]. rewrite <- Hp1.
    apply same_launches_exec_path_loop; [now split | assumption].
Qed.

(** both sides step through the same text *)
Ltac same_launches :=
  repeat first
    [ rewrite launches_sys
    | rewrite launches_verbose
    | rewrite launches_close_noting
    | rewrite launches_forked
    | rewrite launches_ev by reflexivity
    | rewrite dup_succeeds
    | progress cbn beta
    | progress unfold id
    | match goal with
      | |- context [if verbose_flag ?s && negb (stdout_flag ?s) then _ else _] =>
        destruct (verbose_flag s && negb (stdout_flag s))
      | |- context [if verbose_flag ?s then _ else _] => destruct (verbose_flag s)
      end ];
  repeat match goal with
         | |- (if ?b then _ else _) = (if ?b then _ else _) => destruct b
         | |- _ ++ _ = _ ++ _ => f_equal
         | |- launches (exec w _ _ _) = launches (exec w _ _ _) =>
           apply same_launches_exec;
             [auto using same_paths_stdout, same_paths_sym | now apply alike_fails]
         | H : alike ?k ?k' |- launches (?k _ _) = launches (?k' _ _) => now apply H
         end.

Lemma same_launches_redirect flag how head tail st st' k k' :
  same_paths st st' → alike k k' →
  launches (redirect w flag how head tail st k) =
  launches (redirect w flag how head tail st' k').
Proof. intros Hst Hk. unfold redirect. same_launches. Qed.

Lemma same_launches_pipe_handle_with special_command head tail st st' k k' :
  same_paths st st' → alike k k' →
  (∀ k1 k1', alike k1 k1' →
     launches (special_command tail 0 (is_special_feature tail) st k1) =
     launches (special_command tail 0 (is_special_feature tail) st' k1')) →
  launches (pipe_handle_with w special_command head tail st k) =
  launches (pipe_handle_with w special_command head tail st' k').
Proof.
  intros Hst Hk Hsc. unfold pipe_handle_with.
  destruct (0 <? is_special_feature tail)%Z; same_launches.
  all: apply Hsc; now apply alike_status.
Qed.

Lemma same_launches_special_command fuel : ∀ cmd num_cmd type st st' k k',
  same_paths st st' → alike k k' →
  launches (special_command w fuel cmd num_cmd type st k) =
  launches (special_command w fuel cmd num_cmd type st' k').
Proof.
  induction fuel as [|fuel IH]; intros cmd num_cmd type st st' k k' Hst Hk;
    [reflexivity|].
  simpl. destruct (splitter cmd num_cmd) as [[head tail]| |]; try reflexivity.
  destruct type as [|[[q|q|]|[q|q|]|]|p];
    try (rewrite !launches_ev by reflexivity; now apply Hk).
  - apply same_launches_pipe_handle_with; auto.
  - unfold overwrite_handle. rewrite !launches_verbose.
    now apply same_launches_redirect.
  - unfold append_handle. rewrite !launches_verbose.
    now apply same_launches_redirect.
Qed.

End SameLaunches.

(** what the dispatcher's child does once it is forked *)
Lemma launches_exec_dispatch w cmd num_cmd st k :
  (∀ r r', launches (k r st) = launches (k r' st)) →
  launches (exec_dispatch w cmd num_cmd st k) =
  if succeeds w sys_fork
  then launches
         (if (0 <? is_special_feature cmd)%Z
          then special_command w (S (length cmd)) cmd num_cmd
                 (is_special_feature cmd) st
                 (λ status _, Done (Exits (if (status =? -1)%Z
                                           then EXIT_FAILURE else EXIT_SUCCESS)))
          else exec w cmd st
                 (λ status _, Done (Exits (if (status =? -1)%Z
                                           then EXIT_FAILURE else EXIT_SUCCESS))))
       ++ launches (k 0%Z st)
  else launches (k 0%Z st).
Proof.
  intros Hk. destruct (succeeds w sys_fork) eqn:Hfork.
  - pose proof (exec_dispatch_stuck_free w cmd num_cmd st (λ _ _, Done (Exits 0)))
      as Hfree.
    revert Hfree. unfold exec_dispatch.
    rewrite !(sys_succeeds w sys_fork) by assumption.
    set (child := verbose st _ _). intros Hfree.
    assert (Hchild : stuck_free child).
    { apply Hfree. intros; simpl; discriminate. }
    apply all_fates_fate_of in Hchild. clear Hfree.
    rewrite launches_ev by reflexivity.
    rewrite launches_forked, !launches_verbose. f_equal.
    + subst child. rewrite launches_verbose.
      destruct (0 <? is_special_feature cmd)%Z; now rewrite ?launches_verbose.
    + destruct (termination w child) as [status|] eqn:Hterm;
        [|unfold termination in Hterm; destruct (fate_of child); congruence].
      rewrite launches_sys. destruct (succeeds w sys_wait);
        [|rewrite launches_ev by reflexivity; apply Hk].
      destruct (WIFSIGNALED status && _); [rewrite launches_ev by reflexivity|];
        apply Hk.
  - unfold exec_dispatch. rewrite sys_fails by assumption.
    rewrite !launches_ev by reflexivity. apply Hk.
Qed.

Lemma launches_pwd_handle w cmd num_cmd st k :
  (∀ r r', launches (k r st) = launches (k r' st)) →
  launches (pwd_handle w cmd num_cmd st k) = launches (k 0%Z st).
Proof.
  intros Hk. unfold pwd_handle. rewrite launches_verbose.
  destruct (negb _ && _); [rewrite launches_ev by reflexivity; apply Hk|].
  rewrite launches_sys. destruct (succeeds w _).
  - rewrite !launches_verbose. now apply launches_ev.
  - rewrite launches_ev by reflexivity. apply Hk.
Qed.

Lemma launches_cd_handle w cmd num_cmd st k :
  (∀ r r', launches (k r st) = launches (k r' st)) →
  launches (cd_handle w cmd num_cmd st k) = launches (k 0%Z st).
Proof.
  intros Hk. unfold cd_handle. rewrite launches_verbose.
  destruct (num_cmd =? 1); [|destruct (num_cmd =? 2)].
  - destruct (HOME w) as [home|]; rewrite !launches_ev by reflexivity; [|apply Hk].
    rewrite launches_verbose, launches_sys.
    destruct (succeeds w _); [now rewrite launches_verbose|].
    rewrite launches_ev by reflexivity. apply Hk.
  - rewrite launches_sys.
    destruct (succeeds w _); [|rewrite launches_ev by reflexivity; apply Hk].
    destruct (verbose_flag st); [|reflexivity].
    rewrite launches_sys.
    destruct (succeeds w _); rewrite launches_ev by reflexivity; [reflexivity | apply Hk].
  - rewrite launches_ev by reflexivity. apply Hk.
Qed.

Lemma same_launches_turn w cmds num_cmds st st' again :
  succeeds w (sys_dup STDOUT_FILENO) = true →
  same_paths st st' →
  (∀ st1 st1', same_paths st1 st1' → launches (again st1) = launches (again st1')) →
  launches (turn w cmds num_cmds st again) = launches (turn w cmds num_cmds st' again).
Proof.
  intros Hdup Hst Hagain. unfold turn. destruct cmds as [|cmd0 cmds]; [now apply Hagain|].
  rewrite !launches_verbose.
  assert (Hnext : ∀ s (r r' : Z), launches (summary s r (again s)) =
                                  launches (summary s r' (again s)))
    by (intros; now rewrite !launches_summary).
  destruct (libc.strcmp cmd0 "exit"); [reflexivity|].
  destruct (libc.strcmp cmd0 "verbose");
    [rewrite !launches_summary; now apply Hagain, same_paths_verbose|].
  destruct (libc.strcmp cmd0 "brief");
    [rewrite !launches_summary; now apply Hagain, same_paths_verbose|].
  destruct (libc.strcmp cmd0 "pwd").
  { rewrite !launches_pwd_handle by (intros; apply Hnext).
    rewrite !launches_summary. now apply Hagain. }
  destruct (libc.strcmp cmd0 "cd").
  { rewrite !launches_cd_handle by (intros; apply Hnext).
    rewrite !launches_summary. now apply Hagain. }
  rewrite !launches_exec_dispatch by (intros; apply Hnext).
  rewrite !launches_summary, (Hagain st st' Hst).
  destruct (succeeds w sys_fork); [f_equal|reflexivity].
  assert (Hleave : alike
            (λ status _, Done (Exits (if (status =? -1)%Z
                                      then EXIT_FAILURE else EXIT_SUCCESS)))
            (λ status _, Done (Exits (if (status =? -1)%Z
                                      then EXIT_FAILURE else EXIT_SUCCESS))))
    by (intros r r' s s' _; reflexivity).
  destruct (0 <? is_special_feature (cmd0 :: cmds))%Z.
  - now apply same_launches_special_command.
  - now apply same_launches_exec.
Qed.

(** Verbose mode changes what is printed, not what is run: from two states
    of the variables with the same PathList and mode, whatever their verbose
    flags, the shell attempts the same programs with the same vectors in the
    same order, for any input, as long as standard output can be duplicated. *)
Theorem verbose_mode_launches_the_same_programs w stdin st st' :
  succeeds w (sys_dup STDOUT_FILENO) = true →
  path st = path st' → path_flag st = path_flag st' →
  launches (driver w stdin st) = launches (driver w stdin st').
Proof.
  intros Hdup Hpath Hflag. unfold driver. rewrite !launches_ev by reflexivity.
  assert (Hst : same_paths st st') by now split. clear Hpath Hflag.
  revert st st' Hst. induction stdin as [|input stdin IH]; intros st st' Hst.
  - simpl. rewrite !launches_ev by reflexivity. now rewrite !launches_verbose.
  - destruct (driver_loop_unfold w input stdin st) as (toks & Htoks & ->).
    destruct (driver_loop_unfold w input stdin st') as (toks' & Htoks' & ->).
    rewrite (tokenization_functional _ _ _ Htoks' _ Htoks).
    rewrite !launches_ev by reflexivity.
    now apply same_launches_turn.
Qed.

Lemma verbose_mode_launches_the_same_programs_witness :
  succeeds calm (sys_dup STDOUT_FILENO) = true ∧
  path chatty = path brief ∧ path_flag chatty = path_flag brief ∧
  launches (driver calm ["ls | wc" +:+ LF; "date > now" +:+ LF] chatty) =
  launches (driver calm ["ls | wc" +:+ LF; "date > now" +:+ LF] brief).
Proof.
  split; [reflexivity|]. split; [reflexivity|]. split; [reflexivity|].
  exact (verbose_mode_launches_the_same_programs calm
           ["ls | wc" +:+ LF; "date > now" +:+ LF] chatty brief
           eq_refl eq_refl eq_refl).
Defined.

(** ** The redirection handlers written as one *)

(** In brief mode [redirection_write_handle] does what [overwrite_handle]
    does for a non-zero [type] and what [append_handle] does for 0, event for
    event.  In verbose mode it cannot take their place: once the file is open
    its child writes into a string literal. *)
Theorem redirection_write_handle_replaces_the_handlers_in_brief_mode
    w head tail type st k :
  (verbose_flag st = false →
   redirection_write_handle w head tail type st k =
     if (type =? 0)%Z then append_handle w head tail st k
     else overwrite_handle w head tail st k) ∧
  (verbose_flag st = true → succeeds w sys_fork = true →
   succeeds w (sys_open (tail !! 0)
                 (if (type =? 0)%Z then O_APPEND else O_TRUNC) mode_0666) = true →
   ¬ faultless (redirection_write_handle w head tail type st k)).
Proof.
  split.
  - intros Hv.
    unfold redirection_write_handle, append_handle, overwrite_handle, redirect, verbose.
    rewrite Hv. destruct (type =? 0)%Z; reflexivity.
  - intros Hv Hfork Hopen.
    unfold redirection_write_handle, faultless, verbose. rewrite Hv.
    rewrite (sys_succeeds w sys_fork) by assumption.
    destruct (type =? 0)%Z; simpl;
      rewrite (sys_succeeds w (sys_open _ _ _)) by assumption;
      simpl; intros [H _]; now apply H.
Qed.

Lemma redirection_write_handle_replaces_the_handlers_in_brief_mode_witness :
  verbose_flag brief = false ∧
  redirection_write_handle calm ["ls"] ["out"] 1 brief halt =
    overwrite_handle calm ["ls"] ["out"] brief halt.
Proof.
  split; [reflexivity|].
  exact (proj1 (redirection_write_handle_replaces_the_handlers_in_brief_mode
                  calm ["ls"] ["out"] 1 brief halt) eq_refl).
Defined.

(** ** The programs a command runs *)

Lemma programs_of_plain cmd :
  Forall (λ t, ¬ operator t) cmd → programs_of cmd = [cmd].
Proof.
  induction 1 as [|t cmd Ht _ IH]; [reflexivity|]. simpl.
  assert (Hpipe : libc.strcmp t "|" = false).
  { unfold libc.strcmp. destruct (String.eqb_spec t "|"); [|reflexivity].
    exfalso. apply Ht. unfold operator. tauto. }
  apply is_operator_false in Ht. now rewrite Hpipe, Ht, IH.
Qed.

Lemma programs_of_pipe pre post :
  Forall (λ t, ¬ operator t) pre →
  programs_of (pre ++ "|" :: post) = pre :: programs_of post.
Proof.
  induction 1 as [|t pre Ht _ IH]; [reflexivity|]. simpl.
  assert (Hpipe : libc.strcmp t "|" = false).
  { unfold libc.strcmp. destruct (String.eqb_spec t "|"); [|reflexivity].
    exfalso. apply Ht. unfold operator. tauto. }
  apply is_operator_false in Ht. now rewrite Hpipe, Ht, IH.
Qed.

Lemma programs_of_redirection pre op post :
  Forall (λ t, ¬ operator t) pre → op = ">" ∨ op = ">>" →
  programs_of (pre ++ op :: post) = [pre].
Proof.
  intros Hpre Hop. induction Hpre as [|t pre Ht _ IH].
  - destruct Hop as [-> | ->]; reflexivity.
  - simpl.
    assert (Hpipe : libc.strcmp t "|" = false).
    { unfold libc.strcmp. destruct (String.eqb_spec t "|"); [|reflexivity].
      exfalso. apply Ht. unfold operator. tauto. }
    apply is_operator_false in Ht. now rewrite Hpipe, Ht, IH.
Qed.

Section Programs.

Variable w : world.
Hypothesis calls_succeed : ∀ c, succeeds w c = true.

Lemma launches_exec_environment cmd st k :
  path_flag st = false → (∀ r st', launches (k r st') = []) →
  launches (exec w cmd st k) = [(cmd !! 0, cmd)].
Proof.
  intros Henv Hk. unfold exec. rewrite Henv. cbn [negb].
  match goal with
  | |- launches (drop_saved_stdout w ?s ?f) = _ =>
    destruct (launches_drop_saved_stdout w s f) as (st' & _ & ->)
  end.
  destruct (execvp w _ cmd) as [|r errno]; [reflexivity|].
  rewrite launches_execvp. f_equal.
  destruct (r =? -1)%Z; [|apply Hk].
  destruct (errno =? ENOENT)%Z; rewrite ?launches_ev by reflexivity;
    rewrite launches_verbose; apply Hk.
Qed.

(** both handlers: the head is launched, by the child *)
Lemma launches_redirect flag how head tail st k :
  path_flag st = false → (∀ r st', launches (k r st') = []) →
  launches (redirect w flag how head tail st k) = [(head !! 0, head)].
Proof.
  intros Henv Hk. unfold redirect.
  assert (Hexec : ∀ st0, path_flag st0 = false →
            launches (exec w head st0 (λ _ st1, k (-1)%Z st1)) = [(head !! 0, head)]).
  { intros st0 H0. apply launches_exec_environment; auto. }
  repeat first
    [ rewrite launches_sys, calls_succeed
    | rewrite launches_verbose
    | rewrite launches_forked
    | rewrite launches_ev by reflexivity
    | rewrite Hexec by (simpl; assumption)
    | rewrite Hk
    | progress cbn beta
    | progress unfold id
    | match goal with
      | |- context [if verbose_flag ?s && negb (stdout_flag ?s) then _ else _] =>
        destruct (verbose_flag s && negb (stdout_flag s))
      | |- context [if verbose_flag ?s then _ else _] => destruct (verbose_flag s)
      end ]; reflexivity.
Qed.

(** the pipe handler: the head is launched, by the child, then what the
    parent goes on with *)
Lemma launches_pipe_handle_with special_command head tail st k :
  path_flag st = false → (∀ r st', launches (k r st') = []) →
  launches (pipe_handle_with w special_command head tail st k) =
  (head !! 0, head) ::
  launches (if (0 <? is_special_feature tail)%Z
            then special_command tail 0 (is_special_feature tail) st
                   (λ r st, if (r =? -1)%Z then k (-1)%Z st else k 0%Z st)
            else exec w tail st (λ _ st, k (-1)%Z st)).
Proof.
  intros Henv Hk. unfold pipe_handle_with.
  assert (Hexec : ∀ st0, path_flag st0 = false →
            launches (exec w head st0 (λ _ st1, k (-1)%Z st1)) = [(head !! 0, head)]).
  { intros st0 H0. apply launches_exec_environment; auto. }
  destruct (0 <? is_special_feature tail)%Z;
  repeat first
    [ rewrite launches_sys, calls_succeed
    | rewrite launches_verbose
    | rewrite launches_forked
    | rewrite launches_ev by reflexivity
    | rewrite Hexec by (simpl; assumption)
    | progress cbn beta
    | progress unfold id
    | match goal with
      | |- context [if verbose_flag ?s && negb (stdout_flag ?s) then _ else _] =>
        destruct (verbose_flag s && negb (stdout_flag s))
      | |- context [if verbose_flag ?s then _ else _] => destruct (verbose_flag s)
      end ]; reflexivity.
Qed.

Lemma faultless_pipe_handle_with special_command head tail st k :
  faultless (pipe_handle_with w special_command head tail st k) →
  faultless (if (0 <? is_special_feature tail)%Z
             then special_command tail 0 (is_special_feature tail) st
                    (λ r st, if (r =? -1)%Z then k (-1)%Z st else k 0%Z st)
             else exec w tail st (λ _ st, k (-1)%Z st)).
Proof.
  unfold pipe_handle_with, faultless, verbose.
  rewrite !(sys_ok w calls_succeed).
  destruct (verbose_flag st) eqn:Hv, (stdout_flag st) eqn:Ho; simpl;
    rewrite ?(sys_ok w calls_succeed); simpl; rewrite ?Hv; simpl;
    destruct (0 <? is_special_feature tail)%Z; simpl; tauto.
Qed.

Lemma launches_special_command fuel : ∀ cmd num_cmd st k,
  path_flag st = false → (∀ r st', launches (k r st') = []) →
  length cmd < fuel → (0 < is_special_feature cmd)%Z →
  faultless (special_command w fuel cmd num_cmd (is_special_feature cmd) st k) →
  launches (special_command w fuel cmd num_cmd (is_special_feature cmd) st k) =
  (λ prog, (prog !! 0, prog)) <$> programs_of cmd.
Proof.
  induction fuel as [|fuel IH]; intros cmd num_cmd st k Henv Hk Hfuel Hop; [lia|].
  destruct (first_operator cmd) as [Hplain | (pre & op & post & -> & Hpre & Hop')].
  { rewrite is_special_feature_plain in Hop by assumption. lia. }
  rewrite is_special_feature_skip by assumption.
  simpl special_command.
  destruct (splitter_sound pre op post num_cmd Hpre Hop')
    as [-> | (head & tail & -> & -> & ->)].
  { intros Hfault. exfalso. now apply Hfault. }
  destruct Hop' as [-> | [-> | ->]]; simpl.
  - intros _. unfold append_handle.
    rewrite launches_verbose, launches_redirect by assumption.
    rewrite programs_of_redirection by auto. reflexivity.
  - intros _. unfold overwrite_handle.
    rewrite launches_verbose, launches_redirect by assumption.
    rewrite programs_of_redirection by auto. reflexivity.
  - intros Hfault. apply faultless_pipe_handle_with in Hfault.
    rewrite launches_pipe_handle_with, programs_of_pipe by assumption.
    rewrite fmap_cons. f_equal.
    rewrite length_app in Hfuel. simpl in Hfuel.
    destruct (0 <? is_special_feature post)%Z eqn:E.
    + apply Z.ltb_lt in E. apply IH; auto; try lia.
      intros r st'. destruct (r =? -1)%Z; apply Hk.
    + apply Z.ltb_ge in E. pose proof (is_special_feature_range post).
      rewrite programs_of_plain by (apply is_special_feature_zero; lia).
      apply launches_exec_environment; auto.
Qed.

End Programs.

(** In environment mode, when every system call succeeds and the splitter
    stays inside its blocks, the dispatcher's processes call [execvp] once for
    each program of the command, in the order of the line, each with exactly
    its own tokens, whatever [execvp] answers; what stands after a redirection
    operator is handed to no program. *)
Theorem dispatcher_runs_the_programs_of_the_command w cmd st :
  (∀ c, succeeds w c = true) → path_flag st = false →
  faultless (exec_dispatch w cmd (length cmd) st halt) →
  launches (exec_dispatch w cmd (length cmd) st halt) =
    (λ prog, (prog !! 0, prog)) <$> programs_of cmd.
Proof.
  intros Hok Henv Hfault.
  assert (Hhalt : ∀ (r r' : Z), launches (halt r st) = launches (halt r' st))
    by reflexivity.
  rewrite launches_exec_dispatch by exact Hhalt. rewrite Hok.
  change (launches (halt 0%Z st)) with (@nil (option string * list string)).
  rewrite app_nil_r.
  assert (Hleave : ∀ (r : Z) (st' : shell),
            launches ((λ status _, Done (Exits (if (status =? -1)%Z
                                                then EXIT_FAILURE else EXIT_SUCCESS)))
                        r st') = []) by reflexivity.
  revert Hfault. unfold exec_dispatch, faultless. rewrite (sys_ok w Hok).
  cbn [all_fates]. intros [Hchild _].
  match type of Hchild with
  | all_fates _ (verbose ?s ?m ?r) =>
    apply (proj2 (proj2 (counts_verbose s m r))) in Hchild
  end.
  destruct (0 <? is_special_feature cmd)%Z eqn:E.
  - apply Z.ltb_lt in E.
    apply (launches_special_command w Hok); auto.
  - apply Z.ltb_ge in E. pose proof (is_special_feature_range cmd).
    rewrite programs_of_plain by (apply is_special_feature_zero; lia).
    apply launches_exec_environment; [assumption | intros; reflexivity].
Qed.

Lemma dispatcher_runs_the_programs_of_the_command_witness :
  (∀ c, succeeds barren c = true) ∧ path_flag chatty = false ∧
  faultless (exec_dispatch barren ["ls"; "-l"; "|"; "sort"; "|"; "head"; ">"; "out"; "x"]
               (length ["ls"; "-l"; "|"; "sort"; "|"; "head"; ">"; "out"; "x"])
               chatty halt) ∧
  launches (exec_dispatch barren ["ls"; "-l"; "|"; "sort"; "|"; "head"; ">"; "out"; "x"]
              (length ["ls"; "-l"; "|"; "sort"; "|"; "head"; ">"; "out"; "x"])
              chatty halt) =
    [(Some "ls", ["ls"; "-l"]); (Some "sort", ["sort"]); (Some "head", ["head"])].
Proof.
  assert (Hok : ∀ c, succeeds barren c = true) by reflexivity.
  assert (Hfault : faultless
            (exec_dispatch barren
               ["ls"; "-l"; "|"; "sort"; "|"; "head"; ">"; "out"; "x"]
               (length ["ls"; "-l"; "|"; "sort"; "|"; "head"; ">"; "out"; "x"])
               chatty halt)).
  { vm_compute. repeat split; discriminate. }
  split; [exact Hok|]. split; [reflexivity|]. split; [exact Hfault|].
  exact (dispatcher_runs_the_programs_of_the_command barren
           ["ls"; "-l"; "|"; "sort"; "|"; "head"; ">"; "out"; "x"] chatty
           Hok eq_refl Hfault).
Defined.

(** For a command whose first operator is [>] or [>>]: when the file
    named after it cannot be opened, the command is not run; no process of
    the dispatcher calls [execvp]. *)
Theorem nothing_runs_when_the_file_cannot_be_opened w pre op post st :
  Forall (λ t, ¬ operator t) pre → op = ">" ∨ op = ">>" →
  (∀ flag, succeeds w (sys_open (post !! 0) flag mode_0666) = false) →
  launches (exec_dispatch w (pre ++ op :: post) (length (pre ++ op :: post)) st halt) = [].
Proof.
  intros Hpre Hop Hopen.
  assert (Hop' : operator op) by (unfold operator; tauto).
  destruct (splitter_counted pre op post Hpre Hop') as (head & tail & Hsplit & Hhead & Htail).
  rewrite launches_exec_dispatch by reflexivity.
  change (launches (halt 0%Z st)) with (@nil (option string * list string)).
  destruct (succeeds w sys_fork); [|reflexivity]. rewrite app_nil_r.
  rewrite is_special_feature_skip by assumption.
  assert (Hredirect : ∀ flag how (k : cont),
            (∀ r st', launches (k r st') = []) →
            launches (redirect w flag how pre post st k) = []).
  { intros flag how k Hk. unfold redirect.
    rewrite launches_sys. destruct (succeeds w sys_fork);
      [|rewrite launches_ev by reflexivity; apply Hk].
    rewrite launches_forked, !launches_verbose, !launches_sys, Hopen.
    rewrite !launches_ev by reflexivity. rewrite Hk.
    destruct (succeeds w sys_waitpid);
      rewrite ?launches_verbose, ?launches_ev by reflexivity; rewrite ?Hk;
      reflexivity. }
  destruct Hop as [-> | ->]; simpl is_special_feature; cbn [Z.ltb Z.compare];
    cbn [special_command]; rewrite Hsplit, Hhead, Htail; cbv iota beta;
    unfold overwrite_handle, append_handle; rewrite launches_verbose;
    apply Hredirect; reflexivity.
Qed.

Lemma nothing_runs_when_the_file_cannot_be_opened_witness :
  Forall (λ t, ¬ operator t) ["ls"; "-l"] ∧ (">" = ">" ∨ ">" = ">>") ∧
  (∀ flag, succeeds unwritable (sys_open (["/no/such/dir/out"] !! 0) flag mode_0666)
           = false) ∧
  launches (exec_dispatch unwritable (["ls"; "-l"] ++ ">" :: ["/no/such/dir/out"])
              (length (["ls"; "-l"] ++ ">" :: ["/no/such/dir/out"])) brief halt) = [].
Proof.
  assert (Hpre : Forall (λ t, ¬ operator t) ["ls"; "-l"]).
  { repeat constructor; intros [H|[H|H]]; discriminate H. }
  assert (Hop : ">" = ">" ∨ ">" = ">>") by (left; reflexivity).
  assert (Hopen : ∀ flag, succeeds unwritable
                            (sys_open (["/no/such/dir/out"] !! 0) flag mode_0666) = false)
    by reflexivity.
  split; [exact Hpre|]. split; [exact Hop|]. split; [exact Hopen|].
  exact (nothing_runs_when_the_file_cannot_be_opened unwritable ["ls"; "-l"] ">"
           ["/no/such/dir/out"] brief Hpre Hop Hopen).
Defined.

(** ** Start-up *)

Lemma main_loop_keeps_the_path_list fopen progname opts : ∀ v evs v',
  no_long_path opts →
  (startup.path_flag v = true →
   ∃ file, startup.path_file v = Some file ∧ fopen file = None) →
  startup.main_loop fopen progname opts v = (evs, startup.Drive v') →
  startup.path_flag v' = true →
  ∃ file, startup.path_file v' = Some file ∧ fopen file = None.
Proof.
  induction opts as [|f opts IH]; intros v evs v' Hopts Hv Hrun.
  - injection Hrun as _ <-. exact Hv.
  - apply Forall_cons in Hopts as [Hf Hopts]. revert Hrun.
    cbn [startup.main_loop].
    assert (Hgo : ∀ v0 evs0,
              (startup.path_flag v0 = true →
               ∃ file, startup.path_file v0 = Some file ∧ fopen file = None) →
              startup.after evs0 (startup.main_loop fopen progname opts v0)
                = (evs, startup.Drive v') →
              startup.path_flag v' = true →
              ∃ file, startup.path_file v' = Some file ∧ fopen file = None).
    { intros v0 evs0 Hv0. unfold startup.after.
      destruct (startup.main_loop fopen progname opts v0) as [evs1 s1] eqn:Hrest.
      cbn. intros [= _ ->]. eapply IH; [exact Hopts | exact Hv0 | exact Hrest]. }
    destruct f as [[| |] [file|] | [|[|[|i]]] a | o];
      cbn -[startup.after]; try discriminate.
    + (* -p file *)
      unfold startup.set_path. destruct (fopen file) as [errno|] eqn:Hopen;
        cbn -[startup.after]; apply Hgo; cbn; [discriminate | eauto].
    + (* -v *) apply Hgo. exact Hv.
    + (* -v *) apply Hgo. exact Hv.
    + (* --path *) now contradiction (Hf a).
    + (* --verbose *) intros Hrest. eapply IH; [exact Hopts | | exact Hrest]. exact Hv.
Qed.

(** Started with short options (or [--verbose]), [main] calls [driver] in
    configured-path mode only after [set_path] has read a PathList from a file
    it could open.  The long option [--path file] breaks this: it sets the
    mode, but [set_path] is not called for it, so that [driver] is entered in
    configured-path mode with [path] still NULL, where [-p file] reads the
    file. *)
Theorem long_path_option_reads_no_file fopen progname :
  (∀ opts evs v,
     no_long_path opts →
     startup.main fopen progname opts = (evs, startup.Drive v) →
     startup.path_flag v = true →
     ∃ file, startup.path_file v = Some file ∧ fopen file = None) ∧
  (∀ file opts v,
     startup.main_loop fopen progname (startup.Long 0 (Some file) :: opts) v =
     startup.main_loop fopen progname opts (startup.with_path_flag v true)) ∧
  (∀ file,
     startup.main fopen progname [startup.Long 0 (Some file)] =
       ([], startup.Drive (startup.with_path_flag startup.initial true))) ∧
  (∀ file, fopen file = None →
     startup.main fopen progname [startup.Short startup.opt_p (Some file)] =
       ([Printf ("Obtaining path from the following file: " +:+ file)],
        startup.Drive (startup.with_path_file
                         (startup.with_path_flag startup.initial true) file))).
Proof.
  split; [|split; [|split]].
  - intros opts evs v Hopts Hrun.
    eapply main_loop_keeps_the_path_list; [exact Hopts | | exact Hrun].
    discriminate.
  - reflexivity.
  - reflexivity.
  - intros file Hopen. unfold startup.main. cbn. unfold startup.set_path.
    rewrite Hopen. reflexivity.
Qed.

Lemma long_path_option_reads_no_file_witness :
  no_long_path [startup.Short startup.opt_v None;
                startup.Short startup.opt_p (Some "paths")] ∧
  startup.main (λ _, None) "tinysh"
    [startup.Short startup.opt_v None; startup.Short startup.opt_p (Some "paths")] =
    ([Printf ("Running in verbose mode." +:+ LF);
      Printf "Obtaining path from the following file: paths"],
     startup.Drive {| startup.path_file := Some "paths"; startup.path_flag := true;
                      startup.verbose_flag := true; startup.stdout_flag := false |}) ∧
  startup.path_flag {| startup.path_file := Some "paths"; startup.path_flag := true;
                       startup.verbose_flag := true; startup.stdout_flag := false |} = true ∧
  ∃ file, startup.path_file
            {| startup.path_file := Some "paths"; startup.path_flag := true;
               startup.verbose_flag := true; startup.stdout_flag := false |} = Some file ∧
          (λ _ : string, @None Z) file = None.
Proof.
  assert (Hopts : no_long_path [startup.Short startup.opt_v None;
                                startup.Short startup.opt_p (Some "paths")])
    by (repeat constructor; discriminate).
  split; [exact Hopts|]. split; [reflexivity|]. split; [reflexivity|].
  exact (proj1 (long_path_option_reads_no_file (λ _, None) "tinysh") _ _ _
           Hopts eq_refl eq_refl).
Defined.

(** ** The earlier tokenizer *)

Lemma legacy_tokenizer_loop_spec delim fuel : ∀ context cmds tok_ind capacity acc,
  String.length context < fuel →
  length cmds = capacity → tok_ind < capacity →
  length acc = tok_ind → take tok_ind cmds = Some <$> acc →
  ∃ toks cmds',
    legacy.tokenizer_loop fuel context delim cmds tok_ind capacity
      = Ok (cmds', tok_ind + length toks) ∧
    tok_ind + length toks < length cmds' ∧
    take (tok_ind + length toks) cmds' = Some <$> (acc ++ toks) ∧
    tokenization delim context toks.
Proof.
  induction fuel as [|fuel IH]; intros context cmds tok_ind capacity acc
    Hfuel Hlen Hind Hacc Htake; [lia|].
  simpl. destruct (libc.strtok_r context delim) as [[tok|] context'] eqn:E.
  - apply strtok_r_some in E as (gap & Hgap & Hne & Htok & Hshort & Hshape).
    rewrite store_ok by lia. simpl.
    set (grown := if capacity - 1 <=? S tok_ind
                  then (realloc (<[tok_ind := Some tok]> cmds) (capacity * 2), capacity * 2)
                  else (<[tok_ind := Some tok]> cmds, capacity)).
    assert (Hg : length grown.1 = grown.2 ∧ S tok_ind < grown.2 ∧
                 take (S tok_ind) grown.1 = Some <$> (acc ++ [tok])).
    { assert (Hstored : take (S tok_ind) (<[tok_ind := Some tok]> cmds)
                        = Some <$> (acc ++ [tok])).
      { rewrite take_store_next by lia. rewrite Htake, fmap_app. reflexivity. }
      subst grown. destruct (Nat.leb_spec (capacity - 1) (S tok_ind)); simpl.
      - rewrite length_realloc. split; [reflexivity|]. split; [lia|].
        rewrite take_realloc by (rewrite ?length_insert; lia). assumption.
      - rewrite length_insert. split; [assumption|]. split; [lia | assumption]. }
    destruct grown as [cmds1 capacity1]. simpl in Hg.
    destruct Hg as (Hlen1 & Hlt & Htake1).
    destruct (IH context' cmds1 (S tok_ind) capacity1 (acc ++ [tok]))
      as (toks & cmds' & Hrun & Hfit & Hres & Hspec); try assumption; try lia.
    + rewrite length_app. simpl. lia.
    + exists (tok :: toks), cmds'. simpl.
      replace (tok_ind + S (length toks)) with (S tok_ind + length toks) by lia.
      split; [assumption|]. split; [assumption|].
      split; [now rewrite <- app_assoc in Hres|].
      destruct Hshape as [[-> ->] | (d & Hd & ->)].
      * inversion Hspec as [gap' Hgap' | ]; subst.
        -- rewrite <- (string_app_nil_r tok) at 1.
           constructor; auto.
        -- exfalso. destruct gap0; destruct tok0; try discriminate; congruence.
      * constructor; auto.
        -- right. eauto.
        -- now apply tokenization_after_delimiter.
  - exists [], cmds. rewrite Nat.add_0_r, app_nil_r.
    split; [reflexivity|]. split; [lia|]. split; [assumption|].
    constructor. eapply strtok_r_none; eassumption.
Qed.

Lemma legacy_tokenizer_spec input delim capacity :
  0 < capacity →
  ∃ toks cmds, legacy.tokenizer input delim capacity = Ok (cmds, length toks) ∧
               argv_of cmds = toks ∧ length toks < length cmds ∧
               tokenization delim input toks.
Proof.
  intros Hcap. unfold legacy.tokenizer.
  destruct (legacy_tokenizer_loop_spec delim (S (String.length input)) input
              (malloc capacity) 0 capacity [])
    as (toks & cmds' & Hrun & Hfit & Hres & Hspec); try (simpl; lia).
  { apply length_malloc. }
  { reflexivity. }
  simpl in *. rewrite Hrun. simpl. rewrite store_ok by lia. simpl.
  exists toks, (<[length toks := None]> cmds'). split; [reflexivity|].
  split; [|split; [rewrite length_insert; lia | assumption]].
  apply argv_of_terminated.
  - rewrite take_insert_ge by lia. assumption.
  - apply list_lookup_insert_eq. lia.
Qed.

(** With room for at least one pointer to start with (the earlier driver
    asks for half the line's length plus one), the earlier tokenizer stays
    inside its block and finds the tokens that the later one finds; it hands
    back a block even when there is none, where the later one returns NULL. *)
Theorem legacy_tokenizer_finds_the_same_tokens input delim capacity tok_num :
  0 < capacity →
  ∃ toks cmds,
    legacy.tokenizer input delim capacity = Ok (cmds, length toks) ∧
    argv_of cmds = toks ∧ cmds ≠ [] ∧
    tokenizer input delim tok_num = Ok (handed_back toks).
Proof.
  intros Hcap.
  destruct (legacy_tokenizer_spec input delim capacity Hcap)
    as (toks & cmds & Hrun & Hargv & Hfit & Hspec).
  exists toks, cmds. split; [assumption|]. split; [assumption|]. split.
  - intros ->. simpl in Hfit. lia.
  - now apply tokenizer_tokenization.
Qed.

Lemma legacy_tokenizer_finds_the_same_tokens_witness :
  0 < String.length "a  b" / 2 + 1 ∧
  ∃ toks cmds,
    legacy.tokenizer "a  b" delim (String.length "a  b" / 2 + 1) = Ok (cmds, length toks) ∧
    argv_of cmds = toks ∧ cmds ≠ [] ∧
    tokenizer "a  b" delim 4 = Ok (handed_back toks).
Proof.
  assert (H : 0 < String.length "a  b" / 2 + 1) by (simpl; lia).
  split; [exact H|].
  exact (legacy_tokenizer_finds_the_same_tokens "a  b" delim
           (String.length "a  b" / 2 + 1) 4 H).
Defined.

(** ** The earlier driver *)

Lemma fate_of_legacy_pwd_handle w cmd size st k :
  fate_of (legacy.pwd_handle w cmd size st k) = fate_of (k st).
Proof.
  unfold legacy.pwd_handle. rewrite fate_of_verbose.
  destruct (negb _ && _); [reflexivity|].
  rewrite fate_of_sys. destruct (succeeds w _); [|reflexivity].
  now rewrite !fate_of_verbose.
Qed.

Lemma fate_of_legacy_cd_handle w cmd size st k :
  fate_of (legacy.cd_handle w cmd size st k) = fate_of (k st).
Proof.
  unfold legacy.cd_handle. rewrite fate_of_verbose.
  destruct (size =? 1); [|destruct (size =? 2)].
  - destruct (HOME w); cbn [fate_of]; rewrite fate_of_verbose, fate_of_sys;
      destruct (succeeds w _); cbn [fate_of]; now rewrite fate_of_verbose.
  - cbn beta. rewrite fate_of_sys.
    destruct (succeeds w _); cbn [fate_of];
      (destruct (verbose_flag st); [|reflexivity]);
      rewrite fate_of_sys; now destruct (succeeds w _).
  - reflexivity.
Qed.

Lemma fate_of_legacy_exec_dispatch w cmd num_cmd st k :
  succeeds w sys_fork = true → succeeds w sys_wait = true →
  fate_of (legacy.exec_dispatch w cmd num_cmd st k) = fate_of (k st).
Proof.
  intros Hfork Hwait. unfold legacy.exec_dispatch.
  rewrite (sys_succeeds w sys_fork) by assumption. cbn [fate_of].
  rewrite !fate_of_verbose. now rewrite (sys_succeeds w sys_wait) by assumption.
Qed.

Lemma legacy_fgets_eof size : legacy.fgets size EmptyString = None.
Proof. reflexivity. Qed.

Lemma legacy_fgets_some size stdin :
  stdin ≠ EmptyString → ∃ line rest, legacy.fgets size stdin = Some (line, rest).
Proof.
  destruct stdin as [|c stdin]; [congruence|]. intros _. simpl.
  destruct (legacy.fgets_loop (size - 1) (String c stdin)) as [line rest]. eauto.
Qed.

(** A turn of the loop on a line that is not an [exit] line ends, in the
    shell's process, as the rest of the loop does. *)
Lemma legacy_turn_goes_on w fuel stdin stdin' input line toks st :
  succeeds w sys_fork = true → succeeds w sys_wait = true →
  match legacy.fgets legacy.MAX_INPUT stdin with
  | Some (line', rest) => (Some line', rest)
  | None => (input, stdin)
  end = (Some line, stdin') →
  tokenization delim line toks → head toks ≠ Some "exit" →
  fate_of (legacy.driver_loop w (S fuel) stdin input st) =
  fate_of (legacy.driver_loop w fuel stdin' (Some line) st).
Proof.
  intros Hfork Hwait Hread Htoks Hexit.
  cbn [legacy.driver_loop fate_of]. rewrite Hread.
  destruct (legacy_tokenizer_spec line delim (String.length line / 2 + 1))
    as (toks' & cmds & -> & Hargv & _ & Hspec); [lia|].
  rewrite (tokenization_functional _ _ _ Hspec _ Htoks) in Hargv.
  rewrite Hargv. destruct toks as [|cmd0 args]; [reflexivity|].
  rewrite fate_of_verbose. unfold libc.strcmp.
  destruct (String.eqb_spec cmd0 "exit") as [->|_]; [now contradiction Hexit|].
  destruct (String.eqb cmd0 "pwd");
    [now rewrite fate_of_legacy_pwd_handle, fate_of_verbose|].
  destruct (String.eqb cmd0 "cd");
    [now rewrite fate_of_legacy_cd_handle, fate_of_verbose|].
  now rewrite fate_of_legacy_exec_dispatch, fate_of_verbose by assumption.
Qed.

Lemma legacy_driver_loop_spins w st fuel : ∀ stdin input,
  succeeds w sys_fork = true → succeeds w sys_wait = true →
  never_exits stdin →
  match input with
  | None => stdin ≠ EmptyString
  | Some line => ∃ toks, tokenization delim line toks ∧ head toks ≠ Some "exit"
  end →
  fate_of (legacy.driver_loop w fuel stdin input st) = Stuck.
Proof.
  induction fuel as [|fuel IH]; intros stdin input Hfork Hwait Hnever Hinput;
    [reflexivity|].
  inversion Hnever as [Heof | stdin0 line rest toks Hread Htoks Hexit Hrest Heq];
    subst.
  - destruct input as [line|]; [|congruence].
    destruct Hinput as (toks & Htoks & Hexit).
    rewrite (legacy_turn_goes_on w fuel "" "" (Some line) line toks); auto.
    apply IH; eauto.
  - rewrite (legacy_turn_goes_on w fuel stdin rest input line toks); auto.
    + apply IH; eauto.
    + now rewrite Hread.
Qed.

(** The earlier driver never notices the end of its input.  With no input
    at all it takes the length of an array that was never written.  After a
    last line it goes on with that line still in the array: however many turns
    of the loop are allowed, the shell's process has not returned, as long as
    [fork] and [wait] succeed and no line's first token was [exit]. *)
Theorem legacy_driver_never_sees_end_of_input w st :
  (∀ fuel, fate_of (legacy.driver w (S fuel) EmptyString st) = Fault) ∧
  (∀ stdin, succeeds w sys_fork = true → succeeds w sys_wait = true →
     stdin ≠ EmptyString → never_exits stdin →
     ∀ fuel, fate_of (legacy.driver w fuel stdin st) = Stuck) ∧
  (∀ line cmd0 args fuel,
     tokenization delim line (cmd0 :: args) →
     cmd0 ≠ "exit" → cmd0 ≠ "pwd" → cmd0 ≠ "cd" →
     legacy.driver_loop w (S fuel) EmptyString (Some line) st =
       Ev (Printf "tinysh> ")
         (verbose st LF
            (legacy.exec_dispatch w (cmd0 :: args) (Z.of_nat (length (cmd0 :: args))) st
               (λ st, verbose st LF
                        (legacy.driver_loop w fuel EmptyString (Some line) st))))).
Proof.
  split; [|split].
  - intros fuel. unfold legacy.driver. cbn [fate_of]. now rewrite fate_of_verbose.
  - intros stdin Hfork Hwait Hne Hnever fuel. unfold legacy.driver. cbn [fate_of].
    rewrite fate_of_verbose. now apply legacy_driver_loop_spins.
  - intros line cmd0 args fuel Htoks Hexit Hpwd Hcd.
    cbn [legacy.driver_loop]. rewrite legacy_fgets_eof.
    destruct (legacy_tokenizer_spec line delim (String.length line / 2 + 1))
      as (toks' & cmds & -> & Hargv & _ & Hspec); [lia|].
    rewrite (tokenization_functional _ _ _ Hspec _ Htoks) in *.
    rewrite Hargv. unfold libc.strcmp.
    destruct (String.eqb_spec cmd0 "exit"); [contradiction|].
    destruct (String.eqb_spec cmd0 "pwd"); [contradiction|].
    destruct (String.eqb_spec cmd0 "cd"); [contradiction|]. reflexivity.
Qed.

Lemma legacy_driver_never_sees_end_of_input_witness :
  succeeds calm sys_fork = true ∧ succeeds calm sys_wait = true ∧
  "ls" +:+ LF ≠ EmptyString ∧ never_exits ("ls" +:+ LF) ∧
  fate_of (legacy.driver calm 1000 ("ls" +:+ LF) brief) = Stuck.
Proof.
  assert (Hne : "ls" +:+ LF ≠ EmptyString) by discriminate.
  assert (Hnever : never_exits ("ls" +:+ LF)).
  { apply (never_exits_line _ ("ls" +:+ LF) EmptyString ["ls"]);
      [reflexivity | | discriminate | constructor].
    apply (tokenizer_tokenization _ _ 0). reflexivity. }
  split; [reflexivity|]. split; [reflexivity|]. split; [exact Hne|].
  split; [exact Hnever|].
  exact (proj1 (proj2 (legacy_driver_never_sees_end_of_input calm brief))
           ("ls" +:+ LF) eq_refl eq_refl Hne Hnever 1000).
Defined.

(** ** The earlier [cd] *)

(** In verbose mode the earlier [cd] without an argument always ends by
    announcing the change to the home directory, whether [chdir] succeeded or
    not; and when HOME is not set it still calls [chdir], on the NULL that
    [getenv] returned. *)
Theorem legacy_cd_announces_a_change_it_may_not_have_made w cmd st k :
  verbose_flag st = true → (∀ st', events (k st') = []) →
  last (omap stdout_of (events (legacy.cd_handle w cmd 1 st k))) =
    Some ("Changed current directory to your home directory: " +:+
          show (HOME w) +:+ LF) ∧
  In (Sys (sys_chdir (HOME w)) (succeeds w (sys_chdir (HOME w))))
     (events (legacy.cd_handle w cmd 1 st k)).
Proof.
  intros Hv Hk. unfold legacy.cd_handle, verbose, sys. rewrite Hv. simpl.
  destruct (HOME w) as [home|]; simpl;
    destruct (succeeds w _); simpl; rewrite Hk; simpl; split; auto 10.
Qed.

Lemma legacy_cd_announces_a_change_it_may_not_have_made_witness :
  verbose_flag chatty = true ∧
  (∀ st', events ((λ st, Done (Returns 0 st)) st') = []) ∧
  last (omap stdout_of
          (events (legacy.cd_handle barren ["cd"] 1 chatty (λ st, Done (Returns 0 st))))) =
    Some ("Changed current directory to your home directory: " +:+
          show (HOME barren) +:+ LF).
Proof.
  assert (Hk : ∀ st', events ((λ st, Done (Returns 0 st)) st') = []) by reflexivity.
  split; [reflexivity|]. split; [exact Hk|].
  exact (proj1 (legacy_cd_announces_a_change_it_may_not_have_made barren ["cd"] chatty
                  (λ st, Done (Returns 0 st)) eq_refl Hk)).
Defined.

(** ** Children of the earlier shell *)

Lemma leaves_legacy_exec_path_loop w cmd dirs : ∀ i st,
  all_fates leaves (legacy.exec_path_loop w cmd dirs i st).
Proof.
  induction dirs as [|dir dirs IH]; intros i st; simpl; [exact I|].
  destruct (_ || _); [exact I|].
  destruct (cmd !! 0); [|exact I].
  apply all_fates_drop_saved_stdout. intros st' _.
  destruct (execvp w _ cmd) as [|r errno]; simpl; [exact I|].
  destruct (r =? -1)%Z; simpl; [exact I | apply IH].
Qed.

Lemma leaves_legacy_exec w cmd st : all_fates leaves (legacy.exec w cmd st).
Proof.
  unfold legacy.exec. destruct (negb (path_flag st)).
  - apply all_fates_drop_saved_stdout. intros st' _.
    destruct (execvp w _ cmd) as [|r errno]; simpl; [exact I|].
    destruct (r =? -1)%Z; exact I.
  - apply leaves_legacy_exec_path_loop.
Qed.

(** one step through the text of an earlier handler *)
Ltac leaving :=
  repeat first
    [ apply all_fates_sys
    | apply all_fates_verbose
    | apply leaves_legacy_exec
    | exact I
    | match goal with
      | |- all_fates _ (Forked _ _) => split
      | |- all_fates _ (Ev _ _) => change (all_fates ?P (Ev ?e ?r)) with (all_fates P r)
      | |- all_fates _ (if ?b then _ else _) => destruct b
      | |- all_fates _ ((if ?b then _ else _) _) => destruct b
      | |- all_fates _ (id _) => unfold id
      end
    | progress cbn beta ].

Lemma leaves_legacy_redirect w over head tail st :
  all_fates leaves (legacy.redirect w over head tail st).
Proof. unfold legacy.redirect. leaving. Qed.

Lemma leaves_legacy_pipe_handle_with w special_command head tail st :
  ((0 < is_special_feature tail)%Z →
   all_fates leaves (special_command tail (-1)%Z (is_special_feature tail) st)) →
  all_fates leaves (legacy.pipe_handle_with w special_command head tail st).
Proof.
  intros Hsc. unfold legacy.pipe_handle_with.
  destruct (Z.ltb_spec 0 (is_special_feature tail)) as [Hop|_]; leaving.
  now apply Hsc.
Qed.

Lemma leaves_legacy_special_command w fuel : ∀ cmd num_cmd type st k,
  length cmd < fuel → (1 ≤ type ≤ 3)%Z →
  all_fates leaves (legacy.special_command w fuel cmd num_cmd type st k).
Proof.
  induction fuel as [|fuel IH]; intros cmd num_cmd type st k Hfuel Htype; [lia|].
  simpl. destruct (splitter cmd (Z.to_nat num_cmd)) as [[head tail]| |] eqn:E.
  - apply splitter_shorter in E.
    destruct type as [|[[q|q|]|[q|q|]|]|p]; try lia.
    + apply leaves_legacy_pipe_handle_with. intros Hop. apply IH; [lia|].
      pose proof (is_special_feature_range (argv_of tail)). lia.
    + apply leaves_legacy_redirect.
    + apply leaves_legacy_redirect.
  - exact I.
  - pose proof (first_operator cmd) as [Hplain | (pre & op & post & -> & Hpre & Hop)].
    + unfold splitter in E. rewrite head_loop_plain in E by assumption. discriminate.
    + destruct (splitter_sound pre op post (Z.to_nat num_cmd) Hpre Hop)
        as [H | (? & ? & H & _)]; rewrite H in E; discriminate.
Qed.

Lemma children_leave_legacy_exec_dispatch w cmd num_cmd st k :
  children_leave (k st) → children_leave (legacy.exec_dispatch w cmd num_cmd st k).
Proof.
  intros Hk. unfold legacy.exec_dispatch.
  apply children_leave_sys; [|exact I]. split.
  - apply all_fates_verbose.
    destruct (Z.ltb_spec 0 (is_special_feature cmd)).
    + apply leaves_legacy_special_command; [lia|].
      pose proof (is_special_feature_range cmd). lia.
    + do 2 apply all_fates_verbose. apply leaves_legacy_exec.
  - do 2 apply children_leave_verbose.
    apply children_leave_sys; [exact Hk | exact I].
Qed.

Lemma children_leave_legacy_pwd_handle w cmd size st k :
  children_leave (k st) → children_leave (legacy.pwd_handle w cmd size st k).
Proof.
  intros Hk. unfold legacy.pwd_handle. apply children_leave_verbose.
  destruct (negb _ && _); [exact Hk|].
  apply children_leave_sys; [|exact Hk]. do 2 apply children_leave_verbose. exact Hk.
Qed.

Lemma children_leave_legacy_cd_handle w cmd size st k :
  children_leave (k st) → children_leave (legacy.cd_handle w cmd size st k).
Proof.
  intros Hk. unfold legacy.cd_handle. apply children_leave_verbose.
  destruct (size =? 1); [|destruct (size =? 2)].
  - destruct (HOME w); cbn [children_leave];
      apply children_leave_verbose, children_leave_sys; cbn [children_leave];
      now apply children_leave_verbose.
  - cbn beta. apply children_leave_sys; cbn [children_leave];
      (destruct (verbose_flag st); [|exact Hk]);
      apply children_leave_sys; exact Hk.
  - exact Hk.
Qed.

(** In the earlier shell too no forked process comes back to the prompt,
    whatever is typed and whatever the operating system answers: its handlers
    end every path in [exit] or in a replaced image. *)
Theorem legacy_children_never_reach_the_prompt w fuel stdin st :
  children_leave (legacy.driver w fuel stdin st).
Proof.
  unfold legacy.driver. cbn [children_leave]. apply children_leave_verbose.
  generalize (@None string) as input. revert stdin st.
  induction fuel as [|fuel IH]; intros stdin st input; [exact I|].
  cbn [legacy.driver_loop children_leave].
  destruct (match legacy.fgets legacy.MAX_INPUT stdin with
            | Some (line, rest) => (Some line, rest)
            | None => (input, stdin)
            end) as [[line|] stdin']; [|exact I].
  destruct (legacy.tokenizer line delim _) as [[cmds size]| |]; try exact I.
  destruct (argv_of cmds) as [|cmd0 args]; [apply IH|].
  apply children_leave_verbose.
  assert (Hnext : children_leave
            (verbose st LF (legacy.driver_loop w fuel stdin' (Some line) st)))
    by apply children_leave_verbose, IH.
  destruct (libc.strcmp cmd0 "exit"); [exact I|].
  destruct (libc.strcmp cmd0 "pwd"); [now apply children_leave_legacy_pwd_handle|].
  destruct (libc.strcmp cmd0 "cd"); [now apply children_leave_legacy_cd_handle|].
  now apply children_leave_legacy_exec_dispatch.
Qed.

(** ** The path file of the earlier shell *)

Lemma legacy_fgets_loop_line n l rest :
  chars_all (λ c, c ≠ "010"%char) l → String.length l < n →
  legacy.fgets_loop n (l +:+ LF +:+ rest) = (l +:+ LF, rest).
Proof.
  revert n. induction l as [|c l IH]; intros n Hl Hn.
  - destruct n; [simpl in Hn; lia|]. reflexivity.
  - destruct n; [simpl in Hn; lia|].
    unfold chars_all in Hl. simpl in Hl. inversion Hl as [|? ? Hc Hl']; subst.
    simpl.
    destruct (Ascii.eqb c "010") eqn:E; [apply Ascii.eqb_eq in E; contradiction|].
    specialize (IH n Hl' ltac:(simpl in Hn; lia)). simpl in IH. rewrite IH.
    reflexivity.
Qed.

Lemma legacy_fgets_line l rest :
  path_line l →
  legacy.fgets legacy.PATH_MAX (l +:+ LF +:+ rest) = Some (l +:+ LF, rest).
Proof.
  intros [Hl Hn]. unfold legacy.fgets.
  rewrite legacy_fgets_loop_line by (try assumption; lia).
  destruct l; reflexivity.
Qed.

Lemma legacy_set_path_loop_spec lines : ∀ fuel done rest,
  Forall path_line lines →
  length done + S (length rest) = legacy.INIT_NUM_PATHS →
  legacy.INIT_NUM_PATHS < fuel + length done →
  legacy.set_path_loop fuel (file_of lines) (done ++ legacy.Fresh :: rest)
      (length done) =
    if length done + length lines <? legacy.INIT_NUM_PATHS
    then Ok (done ++ ((λ l, legacy.Holds (l +:+ LF)) <$> lines) ++
             legacy.Fresh :: drop (length lines) rest)
    else Undefined.
Proof.
  induction lines as [|l lines IH]; intros fuel done rest Hlines Hlen Hfuel.
  - destruct fuel; [simpl in Hfuel; lia|].
    cbn [legacy.set_path_loop file_of].
    destruct (length done <? legacy.INIT_NUM_PATHS) eqn:E; [|apply Nat.ltb_ge in E; lia].
    cbn [legacy.fgets length fmap list_fmap app]. rewrite Nat.add_0_r, E.
    reflexivity.
  - inversion Hlines as [|? ? Hl Hlines']; subst.
    destruct fuel; [simpl in Hfuel; lia|].
    cbn [legacy.set_path_loop file_of].
    destruct (length done <? legacy.INIT_NUM_PATHS) eqn:E; [|apply Nat.ltb_ge in E; lia].
    rewrite legacy_fgets_line by assumption.
    unfold legacy.store_entry. rewrite length_app. cbn [length].
    destruct (length done <? length done + S (length rest)) eqn:E1;
      [|apply Nat.ltb_ge in E1; lia].
    cbn [mbind outcome_bind].
    replace (<[length done := legacy.Holds (l +:+ LF)]> (done ++ legacy.Fresh :: rest))
      with (done ++ legacy.Holds (l +:+ LF) :: rest).
    2:{ rewrite <- (Nat.add_0_r (length done)) at 1.
        rewrite insert_app_r. reflexivity. }
    rewrite length_app. cbn [length].
    destruct rest as [|r rest].
    + cbn [length] in *.
      destruct (S (length done) <? length done + 1) eqn:E2; [apply Nat.ltb_lt in E2; lia|].
      cbn [mbind outcome_bind].
      destruct (length done + S (length lines) <? legacy.INIT_NUM_PATHS) eqn:E3;
        [apply Nat.ltb_lt in E3; lia|reflexivity].
    + cbn [length] in *.
      destruct (S (length done) <? length done + S (S (length rest))) eqn:E2;
        [|apply Nat.ltb_ge in E2; lia].
      cbn [mbind outcome_bind].
      replace (<[S (length done) := legacy.Fresh]>
                 (done ++ legacy.Holds (l +:+ LF) :: r :: rest))
        with ((done ++ [legacy.Holds (l +:+ LF)]) ++ legacy.Fresh :: rest).
      2:{ rewrite <- app_assoc. cbn [app].
          replace (S (length done)) with (length done + 1) by lia.
          rewrite insert_app_r. reflexivity. }
      replace (S (length done)) with (length (done ++ [legacy.Holds (l +:+ LF)]))
        by (rewrite length_app; simpl; lia).
      rewrite IH; [|assumption|rewrite length_app; simpl; lia|rewrite length_app; simpl; lia].
      rewrite length_app. cbn [length].
      replace (length done + 1 + length lines) with (length done + S (length lines)) by lia.
      destruct (length done + S (length lines) <? legacy.INIT_NUM_PATHS); [|reflexivity].
      rewrite <- app_assoc. reflexivity.
Qed.

(** The earlier [set_path] reads at most 19 lines safely.  For a file of
    fewer than [INIT_NUM_PATHS] lines it leaves each line, with its newline,
    in an entry of [path], then a buffer that was never written, then the
    entries that were there; it returns 1 and leaves [path_flag] alone.  For
    a file of [INIT_NUM_PATHS] lines or more it stores a pointer at
    [path[INIT_NUM_PATHS]], outside the array.  When the file cannot be
    opened the array is not touched and [path_flag] is cleared. *)
Theorem legacy_set_path_fills_one_entry_too_many file lines flag path :
  Forall path_line lines → length path = legacy.INIT_NUM_PATHS →
  (legacy.set_path (inr (file_of lines)) file flag path).2 =
    (if length lines <? legacy.INIT_NUM_PATHS
     then Ok (1%Z, flag,
              ((λ l, legacy.Holds (l +:+ LF)) <$> lines) ++
              legacy.Fresh :: drop (S (length lines)) path)
     else Undefined) ∧
  ∀ errno, (legacy.set_path (inl errno) file flag path).2 = Ok (0%Z, false, path).
Proof.
  intros Hlines Hlen. split; [|reflexivity].
  destruct path as [|p rest]; [discriminate|].
  assert (Hloop := legacy_set_path_loop_spec lines (S legacy.INIT_NUM_PATHS) [] rest Hlines).
  cbn [length app Nat.add] in Hloop.
  unfold legacy.set_path, legacy.store_entry. cbn [snd length].
  change (0 <? S (length rest)) with true. cbn [mbind outcome_bind].
  change (<[0:=legacy.Fresh]> (p :: rest)) with (legacy.Fresh :: rest).
  rewrite Hloop by (simpl in Hlen; lia).
  destruct (length lines <? legacy.INIT_NUM_PATHS); reflexivity.
Qed.

Lemma legacy_set_path_fills_one_entry_too_many_witness :
  (legacy.set_path (inr (file_of ["/bin/"; "/usr/bin/"])) "paths" true
     (replicate legacy.INIT_NUM_PATHS legacy.Null)).2 =
    Ok (1%Z, true,
        [legacy.Holds ("/bin/" +:+ LF); legacy.Holds ("/usr/bin/" +:+ LF);
         legacy.Fresh] ++ replicate 17 legacy.Null) ∧
  (legacy.set_path (inr (file_of (replicate 20 "/bin/"))) "paths" true
     (replicate legacy.INIT_NUM_PATHS legacy.Null)).2 = Undefined.
Proof.
  assert (Hline : ∀ l, l = "/bin/" ∨ l = "/usr/bin/" → path_line l).
  { intros l [-> | ->]; (split; [repeat constructor; discriminate|]);
      apply Nat.leb_le; vm_compute; reflexivity. }
  split.
  - refine (eq_trans
      (proj1 (legacy_set_path_fills_one_entry_too_many "paths" ["/bin/"; "/usr/bin/"] true
                (replicate legacy.INIT_NUM_PATHS legacy.Null) _ _)) _).
    + constructor; [apply Hline; auto|]. constructor; [apply Hline; auto|]. constructor.
    + reflexivity.
    + reflexivity.
  - refine (eq_trans
      (proj1 (legacy_set_path_fills_one_entry_too_many "paths" (replicate 20 "/bin/") true
                (replicate legacy.INIT_NUM_PATHS legacy.Null) _ _)) _).
    + apply Forall_replicate, Hline; auto.
    + reflexivity.
    + reflexivity.
Defined.

(** * The redirection handlers of both variants *)















